(** * Event delivery manager of the NEST kernel: round-based exchange

    A shallow embedding of [nestkernel/event_delivery_manager.cpp]:
    the modulus tables addressing the ring buffers, the collocation of the
    rank-segmented send buffer, the delivery of the receive buffer and the
    round loops of the spike-data and target-data exchange.

    Conventions.  C++ [long] ([delay]) values are [Z]; [/] and [%] on them
    are [Z.quot] and [Z.rem] (truncation towards zero).  [std::vector]s
    are lists, read with [!!] and written with [<[i:=x]>]. *)

From stdpp Require Import base numbers list.
From Stdlib Require Import ZArith Lia.

Local Open Scope Z_scope.

(** ** Machine integers *)

Definition LONG_MAX : Z := 2 ^ 63 - 1.
Definition UINT_MAX : Z := 2 ^ 32 - 1.

(** Conversion of a [long] to [size_t] (usual arithmetic conversions when a
    [long] meets a [size_t] operand). *)
Definition to_size_t (x : Z) : Z := x `mod` 2 ^ 64.

(** Conversion to [unsigned int]. *)
Definition to_uint (x : Z) : Z := x `mod` 2 ^ 32.

(** [for ( i = 0; i < n; ++i ) body(i)] over a state. *)
Definition for_upto {S : Type} (n : nat) (body : nat → S → S) (s : S) : S :=
  foldl (λ acc i, body i acc) s (seq 0 n).

(** ** Modulus engine *)

Module Moduli.

Record tables := Tables {
  moduli_ : list Z;
  slice_moduli_ : list Z
}.

(** [static_cast< size_t >( std::ceil( static_cast< double >( min_delay +
    max_delay ) / min_delay ) )]: the quotient is taken in doubles and
    rounded up; for positive operands in the exact range of a double this
    is the integer ceiling. *)
Definition nbuff (min_delay max_delay : Z) : Z :=
  (min_delay + max_delay + min_delay - 1) `quot` min_delay.

(** The loop recomputing [slice_moduli_], shared by [init_moduli] and
    [update_moduli]. *)
Definition fill_slice_moduli (min_delay max_delay steps : Z)
    (tbl : list Z) : list Z :=
  for_upto (Z.to_nat (min_delay + max_delay))
    (λ d t, <[d := to_size_t ((steps + Z.of_nat d) `quot` min_delay)
                     `rem` nbuff min_delay max_delay]> t)
    tbl.

(** [EventDeliveryManager::init_moduli]; [steps] is
    [get_clock().get_steps()].  [None] is a failed [assert]. *)
Definition init_moduli (min_delay max_delay steps : Z) (st : tables)
    : option tables :=
  if bool_decide (min_delay = 0) then None
  else if bool_decide (max_delay = 0) then None
  else
    let W := Z.to_nat (min_delay + max_delay) in
    let m0 := resize W 0 (moduli_ st) in
    let m := for_upto W
               (λ d t, <[d := (steps + Z.of_nat d)
                                `rem` (min_delay + max_delay)]> t) m0 in
    let s0 := resize W 0 (slice_moduli_ st) in
    Some (Tables m (fill_slice_moduli min_delay max_delay steps s0)).

(** [std::rotate( first, first + n, last )]. *)
Definition std_rotate {A : Type} (n : nat) (l : list A) : list A :=
  drop n l ++ take n l.

(** [EventDeliveryManager::update_moduli]. *)
Definition update_moduli (min_delay max_delay steps : Z) (st : tables)
    : option tables :=
  if bool_decide (min_delay = 0) then None
  else if bool_decide (max_delay = 0) then None
  else if bool_decide (Z.of_nat (length (moduli_ st)) = min_delay + max_delay)
  then
    Some (Tables (std_rotate (Z.to_nat min_delay) (moduli_ st))
                 (fill_slice_moduli min_delay max_delay steps
                    (slice_moduli_ st)))
  else None.

(** One slice: the clock advances by [min_delay] steps, then the tables
    are updated. *)
Definition advance_slice (min_delay max_delay : Z) (c : Z * tables)
    : option (Z * tables) :=
  st' ← update_moduli min_delay max_delay (c.1 + min_delay) c.2;
  Some (c.1 + min_delay, st').

Fixpoint advance_slices (n : nat) (min_delay max_delay : Z)
    (c : Z * tables) : option (Z * tables) :=
  match n with
  | O => Some c
  | S k => c' ← advance_slice min_delay max_delay c;
           advance_slices k min_delay max_delay c'
  end.

(** The closed form of the two tables at step count [steps]. *)
Definition moduli_at (min_delay max_delay steps : Z) : list Z :=
  (λ d, (steps + d) `mod` (min_delay + max_delay))
    <$> seqZ 0 (min_delay + max_delay).

Definition slice_moduli_at (min_delay max_delay steps : Z) : list Z :=
  (λ d, ((steps + d) `div` min_delay) `mod` nbuff min_delay max_delay)
    <$> seqZ 0 (min_delay + max_delay).

End Moduli.

(** ** Segment size *)

(** [ceil( send_buffer.size() / get_num_processes() )]: the division is an
    integer division of a [size_t] by an [int] (converted to [size_t]), so
    [ceil] receives an already truncated value; the result is stored in an
    [unsigned int]. *)
Definition num_spike_data_per_rank (buffer_size num_processes : Z) : Z :=
  to_uint (buffer_size `quot` to_size_t num_processes).

(** [v[ i ]] for a [std::vector] and a machine index: reading or writing
    outside the vector is undefined behaviour, modelled by [None]. *)
Definition vec_at {A : Type} (v : list A) (i : Z) : option A :=
  if bool_decide (0 ≤ i) then v !! Z.to_nat i else None.

Definition vec_set {A : Type} (v : list A) (i : Z) (x : A) : option (list A) :=
  if bool_decide (0 ≤ i < Z.of_nat (length v))
  then Some (<[Z.to_nat i := x]> v) else None.

(** ** Wire records *)

(** [SpikeData]: the fields are those the source reads, [tid],
    [syn_index], [lcid] and [lag]; the spec lists no other. *)
Record SpikeData := mkSpikeData {
  tid : Z;
  syn_index : Z;
  lcid : Z;
  lag : Z
}.

Global Instance SpikeData_eq_dec : EqDecision SpikeData.
Proof. solve_decision. Defined.

(** Modelled from the spec: the sentinel stamps of [SpikeData].  The
    declaration of [SpikeData] with [set_empty] and [set_complete] is not
    part of the two source files.  The spec has every unused slot carry one
    of the two states "empty" and "complete", while the delivery forwards
    every record whose thread id matches: a stamp is a reserved thread id
    that names no thread, and leaves the other fields alone. *)
Definition empty_marker : Z := 2 ^ 31 - 1.

(** Modelled from the spec: the reserved thread id of the "complete"
    stamp; the declaration of [SpikeData] is missing. *)
Definition complete_marker : Z := 2 ^ 31 - 2.

(** Modelled from the spec: [SpikeData::set_empty], missing from the source
    files, stamps the slot "empty". *)
Definition set_empty (d : SpikeData) : SpikeData :=
  mkSpikeData empty_marker (syn_index d) (lcid d) (lag d).

(** Modelled from the spec: [SpikeData::set_complete], missing from the
    source files, stamps the slot "complete". *)
Definition set_complete (d : SpikeData) : SpikeData :=
  mkSpikeData complete_marker (syn_index d) (lcid d) (lag d).

(** Modelled from the spec: the slot reports "empty"; the declaration of
    [SpikeData] is missing. *)
Definition is_empty (d : SpikeData) : bool :=
  bool_decide (tid d = empty_marker).

(** Modelled from the spec: the slot reports "complete"; the declaration of
    [SpikeData] is missing. *)
Definition is_complete (d : SpikeData) : bool :=
  bool_decide (tid d = complete_marker).

(** Modelled from the spec: the sentinel state of a [TargetData], of which
    the spec names the two predicates [is_empty] and [is_complete] next to
    ordinary data. *)
Inductive sentinel := NoMarker | EmptyMarker | CompleteMarker.

Global Instance sentinel_eq_dec : EqDecision sentinel.
Proof. solve_decision. Defined.

(** Modelled from the spec: [TargetData], whose declaration is missing
    from the source files.  [gid] is the field the source reads, [target]
    stands for the remaining payload and [td_marker] is the sentinel
    state. *)
Record TargetData := mkTargetData {
  gid : Z;
  target : Z;
  td_marker : sentinel
}.

Global Instance TargetData_eq_dec : EqDecision TargetData.
Proof. solve_decision. Defined.

(** Modelled from the spec: [TargetData::set_empty], missing from the
    source files. *)
Definition td_set_empty (d : TargetData) : TargetData :=
  mkTargetData (gid d) (target d) EmptyMarker.

(** Modelled from the spec: [TargetData::set_complete], missing from the
    source files. *)
Definition td_set_complete (d : TargetData) : TargetData :=
  mkTargetData (gid d) (target d) CompleteMarker.

(** Modelled from the spec: [TargetData::is_empty], missing from the source
    files. *)
Definition td_is_empty (d : TargetData) : bool :=
  bool_decide (td_marker d = EmptyMarker).

(** Modelled from the spec: [TargetData::is_complete], missing from the
    source files. *)
Definition td_is_complete (d : TargetData) : bool :=
  bool_decide (td_marker d = CompleteMarker).

(** ** The kernel managers read by the event delivery manager *)

(** The values [kernel()] hands out: delays and clock
    ([connection_builder_manager], [simulation_manager]), the process count
    ([mpi_manager]) and the thread pool with the rank range assigned to each
    thread ([vp_manager]; the source reads the range of the calling
    thread). *)
Record Kernel := mkKernel {
  get_min_delay : Z;
  get_clock : Z;
  get_from_step : Z;
  get_num_processes : Z;
  get_num_threads : Z;
  get_num_assigned_ranks_per_thread : Z;
  get_start_rank_per_thread : Z → Z;
  get_end_rank_per_thread : Z → Z
}.

(** The threads of the parallel region, in the order in which the
    sequential model lets them pass each barrier-delimited phase. *)
Definition threads (k : Kernel) : list Z := seqZ 0 (get_num_threads k).

(** ** Delivery of the receive buffer *)

(** One call [send_5g( tid, syn_index, lcid, se )] of the routing layer;
    [c_stamp] is the time stamp of [se], in steps. *)
Record send_5g_call := mkSend {
  c_tid : Z;
  c_syn_index : Z;
  c_lcid : Z;
  c_stamp : Z
}.

Global Instance send_5g_call_eq_dec : EqDecision send_5g_call.
Proof. solve_decision. Defined.

(** [prepared_timestamps[ lag ] = get_clock() + Time::step( lag + 1 )]. *)
Definition prepared_timestamps (k : Kernel) : list Z :=
  for_upto (Z.to_nat (get_min_delay k))
    (λ lag t, <[lag := get_clock k + (Z.of_nat lag + 1)]> t)
    (replicate (Z.to_nat (get_min_delay k)) 0).

(** The scan of the receive buffer in [deliver_events_5g_]; the state is
    [no_spikes_delivered] and the calls made so far. *)
Fixpoint deliver_scan (ts : list Z) (t : Z) (it : list SpikeData)
    (acc : bool * list send_5g_call) : option (bool * list send_5g_call) :=
  match it with
  | [] => Some acc
  | d :: rest =>
      if bool_decide (tid d = t) then
        stamp ← vec_at ts (lag d);
        deliver_scan ts t rest
          (false, acc.2 ++ [mkSend t (syn_index d) (lcid d) stamp])
      else deliver_scan ts t rest acc
  end.

(** [EventDeliveryManager::deliver_events_5g_]: the returned flag
    [no_spikes_delivered] and the calls to [send_5g], in order. *)
Definition deliver_events_5g_ (k : Kernel) (t : Z) (recv : list SpikeData)
    : option (bool * list send_5g_call) :=
  if bool_decide (get_from_step k > 0) then Some (true, [])
  else deliver_scan (prepared_timestamps k) t recv (true, []).

(** The delivery phase of one round: every thread delivers, and
    [others_completed], set to [true] before, is the conjunction of the
    flags the threads return. *)
Fixpoint deliver_threads (k : Kernel) (ts : list Z) (recv : list SpikeData)
    (acc : bool * list send_5g_call) : option (bool * list send_5g_call) :=
  match ts with
  | [] => Some acc
  | t :: rest =>
      r ← deliver_events_5g_ k t recv;
      deliver_threads k rest recv (acc.1 && r.1, acc.2 ++ r.2)
  end.

(** ** Target data: stamping, completion checks, distribution *)

Definition prepare_target_data_buffers_ (me_completed : bool)
    (send_buffer : list TargetData) : list TargetData :=
  if negb me_completed
  then for_upto (length send_buffer)
         (λ i b, match b !! i with
                 | Some d => <[i := td_set_empty d]> b | None => b end)
         send_buffer
  else for_upto (length send_buffer)
         (λ i b, match b !! i with
                 | Some d => <[i := td_set_complete d]> b | None => b end)
         send_buffer.

Fixpoint check_target_data_me_completed_ (buffer : list TargetData) : bool :=
  match buffer with
  | [] => true
  | d :: rest =>
      if negb (td_is_empty d) then false
      else check_target_data_me_completed_ rest
  end.

Fixpoint check_target_data_others_completed_ (buffer : list TargetData)
    : bool :=
  match buffer with
  | [] => true
  | d :: rest =>
      if negb (td_is_complete d) then false
      else check_target_data_others_completed_ rest
  end.

(** [distribute_target_data_buffers_]: the calls [add_target( tid, *it )],
    in order; [is_vp_local] is the lookup of [vp_manager]. *)
Fixpoint distribute_target_data_buffers_ (is_vp_local : Z → bool) (t : Z)
    (recv_buffer : list TargetData) : list (Z * TargetData) :=
  match recv_buffer with
  | [] => []
  | d :: rest =>
      if negb (td_is_empty d) && negb (td_is_complete d)
         && is_vp_local (gid d)
      then (t, d) :: distribute_target_data_buffers_ is_vp_local t rest
      else distribute_target_data_buffers_ is_vp_local t rest
  end.

(** ** The spike register, an external collaborator *)

(** The operations of [spike_register_table_] that the exchange calls, as
    state transformers on the register [R]; the first argument is the
    calling thread.  [get_next_spike_data tid rank_start rank_end] yields the
    target rank and the record, or nothing.
    [reset_current_index_target_table] belongs to the connection builder,
    whose iteration state the register consults; it is kept in [R]. *)
Class SpikeRegisterTable (R : Type) := {
  reset_entry_point : Z → R → R;
  restore_entry_point : Z → R → R;
  save_entry_point : Z → R → R;
  get_next_spike_data : Z → Z → Z → R → option (Z * SpikeData) * R;
  reject_last_spike_data : Z → R → R;
  toggle_target_processed_flags : Z → R → R;
  clear : Z → R → R;
  reset_current_index_target_table : Z → R → R
}.

(** What the collocation does to the register and to the send buffer, in
    program order. *)
Inductive colloc_event :=
  | EvGetNext (t : Z) (result : option (Z * SpikeData))
  | EvWrite (target_rank idx : Z) (d : SpikeData)
  | EvReject (t : Z)
  | EvSave (t : Z).

(** How a loop of the model ends: it returned, the model ran out of fuel,
    or the program left defined behaviour (an index outside a vector). *)
Inductive status (A : Type) :=
  | Returned (a : A)
  | NoFuel
  | Undefined.
Arguments Returned {A} a.
Arguments NoFuel {A}.
Arguments Undefined {A}.

(** ** Collocation of the spike send buffer *)

Record colloc (R : Type) := mkColloc {
  c_send : list SpikeData;
  c_offset : list Z;
  c_sum : Z;
  c_untouched : bool;
  c_reg : R;
  c_trace : list colloc_event
}.
Arguments mkColloc {R}.
Arguments c_send {R}.
Arguments c_offset {R}.
Arguments c_sum {R}.
Arguments c_untouched {R}.
Arguments c_reg {R}.
Arguments c_trace {R}.

Inductive step (R : Type) :=
  | Continue (st : colloc R)
  | Return (b : bool) (st : colloc R)
  | Fault.
Arguments Continue {R}.
Arguments Return {R}.
Arguments Fault {R}.

Section collocation.
Context {R : Type} `{SpikeRegisterTable R}.

(** The test closing an iteration that pulled a record:
    [sum_send_buffer_offset == num_spike_data_per_rank *
    num_assigned_ranks_per_thread]. *)
Definition close_iteration (n m : Z) (st : colloc R) : step R :=
  if bool_decide (c_sum st = to_uint (m * n))
  then Return (c_untouched st) st
  else Continue st.

(** One iteration of the [while ( true )] of
    [collocate_spike_data_buffers_]; [n], [rs], [re] are
    [num_assigned_ranks_per_thread], [rank_start], [rank_end] and [m] is
    [num_spike_data_per_rank]. *)
Definition collocate_step (t rs re n m : Z) (st : colloc R) : step R :=
  let '(nxt, reg') := get_next_spike_data t rs re (c_reg st) in
  let tr := c_trace st ++ [EvGetNext t nxt] in
  match nxt with
  | Some (target_rank, d) =>
      let target_rank_index := target_rank - rs in
      match vec_at (c_offset st) target_rank_index with
      | None => Fault
      | Some off =>
          if bool_decide (off < m) then
            let idx := to_uint (target_rank * m + off) in
            match vec_set (c_send st) idx d,
                  vec_set (c_offset st) target_rank_index
                          (to_uint (off + 1)) with
            | Some send', Some offset' =>
                close_iteration n m
                  (mkColloc send' offset' (to_uint (c_sum st + 1)) false
                            reg' (tr ++ [EvWrite target_rank idx d]))
            | _, _ => Fault
            end
          else
            close_iteration n m
              (mkColloc (c_send st) (c_offset st) (c_sum st)
                        (c_untouched st)
                        (save_entry_point t
                           (reject_last_spike_data t reg'))
                        (tr ++ [EvReject t; EvSave t]))
      end
  | None =>
      Return (c_untouched st)
        (mkColloc (c_send st) (c_offset st) (c_sum st) (c_untouched st)
                  reg' tr)
  end.

Fixpoint collocate_loop (fuel : nat) (t rs re n m : Z) (st : colloc R)
    : status bool * colloc R :=
  match fuel with
  | O => (NoFuel, st)
  | S fuel' =>
      match collocate_step t rs re n m st with
      | Continue st' => collocate_loop fuel' t rs re n m st'
      | Return b st' => (Returned b, st')
      | Fault => (Undefined, st)
      end
  end.

(** [EventDeliveryManager::collocate_spike_data_buffers_]. *)
Definition collocate_spike_data_buffers_ (fuel : nat) (k : Kernel) (t : Z)
    (send : list SpikeData) (reg : R) (trace : list colloc_event)
    : status bool * colloc R :=
  let n := get_num_assigned_ranks_per_thread k in
  let rs := get_start_rank_per_thread k t in
  let re := get_end_rank_per_thread k t in
  let m := num_spike_data_per_rank (Z.of_nat (length send))
                                   (get_num_processes k) in
  let st := mkColloc send (replicate (Z.to_nat n) 0) 0 true reg trace in
  if bool_decide (rs ≠ re)
  then collocate_loop fuel t rs re n m st
  else (Returned true, st).
End collocation.

(** [EventDeliveryManager::prepare_spike_data_buffers_]. *)
Definition prepare_spike_data_buffers_ (me_completed : bool)
    (send_buffer : list SpikeData) : list SpikeData :=
  if negb me_completed
  then for_upto (length send_buffer)
         (λ i b, match b !! i with
                 | Some d => <[i := set_empty d]> b | None => b end)
         send_buffer
  else for_upto (length send_buffer)
         (λ i b, match b !! i with
                 | Some d => <[i := set_complete d]> b | None => b end)
         send_buffer.

(** ** Collocation of the target-data send buffer *)

(** Modelled from the spec: [invalid_index], the "invalid-id value" that
    [get_next_target_data] leaves in [gid] when no target is left; the
    constant is declared outside the source files. *)
Definition invalid_index : Z := 2 ^ 64 - 1.

(** The operations of the connection builder on its source table that the
    target-data exchange calls, as state transformers on the table [S]; the
    first argument is the calling thread.  [get_next_target_data tid
    rank_start rank_end] fills [next_target_data]. *)
Class SourceTable (S : Type) := {
  reset_source_table_entry_point : Z → S → S;
  restore_source_table_entry_point : Z → S → S;
  save_source_table_entry_point : Z → S → S;
  get_next_target_data : Z → Z → Z → S → TargetData * S;
  reject_last_target_data : Z → S → S
}.

Inductive td_event :=
  | TdGetNext (t : Z) (d : TargetData)
  | TdWrite (target_rank idx : Z) (d : TargetData)
  | TdReject (t : Z)
  | TdSave (t : Z).

Record td_colloc (S : Type) := mkTdColloc {
  t_send : list TargetData;
  t_offset : list Z;
  t_sum : Z;
  t_src : S;
  t_trace : list td_event
}.
Arguments mkTdColloc {S}.
Arguments t_send {S}.
Arguments t_offset {S}.
Arguments t_sum {S}.
Arguments t_src {S}.
Arguments t_trace {S}.

Inductive td_step (S : Type) :=
  | TdContinue (st : td_colloc S)
  | TdBreak (st : td_colloc S)
  | TdFault.
Arguments TdContinue {S}.
Arguments TdBreak {S}.
Arguments TdFault {S}.

Section target_collocation.
Context {S : Type} `{SourceTable S}.

(** [get_process_id_of_gid] of the node manager. *)
Variable get_process_id_of_gid : Z → Z.

(** The test at the end of the loop body:
    [sum_send_buffer_offset == num_target_data_per_rank *
    num_assigned_ranks_per_thread]. *)
Definition td_close_iteration (n m : Z) (st : td_colloc S) : td_step S :=
  if bool_decide (t_sum st = to_uint (m * n)) then TdBreak st
  else TdContinue st.

(** One iteration of the [while ( true )] of
    [collocate_target_data_buffers_]. *)
Definition collocate_target_step (t rs re n m : Z) (st : td_colloc S)
    : td_step S :=
  let '(next_target_data, src') :=
    get_next_target_data t rs re (t_src st) in
  let tr := t_trace st ++ [TdGetNext t next_target_data] in
  if bool_decide (gid next_target_data = invalid_index) then
    TdBreak (mkTdColloc (t_send st) (t_offset st) (t_sum st) src' tr)
  else
    let target_rank := get_process_id_of_gid (gid next_target_data) in
    let target_rank_index := target_rank - rs in
    match vec_at (t_offset st) target_rank_index with
    | None => TdFault
    | Some off =>
        if bool_decide (off < m) then
          let idx := to_uint (target_rank * m + off) in
          match vec_set (t_send st) idx next_target_data,
                vec_set (t_offset st) target_rank_index
                        (to_uint (off + 1)) with
          | Some send', Some offset' =>
              td_close_iteration n m
                (mkTdColloc send' offset' (to_uint (t_sum st + 1)) src'
                   (tr ++ [TdWrite target_rank idx next_target_data]))
          | _, _ => TdFault
          end
        else
          td_close_iteration n m
            (mkTdColloc (t_send st) (t_offset st) (t_sum st)
               (save_source_table_entry_point t
                  (reject_last_target_data t src'))
               (tr ++ [TdReject t; TdSave t]))
    end.

Fixpoint collocate_target_loop (fuel : nat) (t rs re n m : Z)
    (st : td_colloc S) : status unit * td_colloc S :=
  match fuel with
  | O => (NoFuel, st)
  | Datatypes.S fuel' =>
      match collocate_target_step t rs re n m st with
      | TdContinue st' => collocate_target_loop fuel' t rs re n m st'
      | TdBreak st' => (Returned tt, st')
      | TdFault => (Undefined, st)
      end
  end.

(** [EventDeliveryManager::collocate_target_data_buffers_];
    [num_target_data_per_rank] is computed by the expression of the spike
    path. *)
Definition collocate_target_data_buffers_ (fuel : nat) (k : Kernel) (t : Z)
    (send_buffer : list TargetData) (src : S) (tr : list td_event)
    : status unit * td_colloc S :=
  let n := get_num_assigned_ranks_per_thread k in
  let rs := get_start_rank_per_thread k t in
  let re := get_end_rank_per_thread k t in
  let m := num_spike_data_per_rank (Z.of_nat (length send_buffer))
                                   (get_num_processes k) in
  let st := mkTdColloc send_buffer (replicate (Z.to_nat n) 0) 0 src tr in
  if bool_decide (rs ≠ re)
  then collocate_target_loop fuel t rs re n m st
  else (Returned tt, st).
End target_collocation.

(** ** The round loop of the spike-data exchange *)

(** The state of one rank: the two persistent buffers, the register, the
    calls made to the routing layer so far and the collocation events so
    far. *)
Record rank_state (R : Type) := mkRank {
  send_buffer_spike_data_ : list SpikeData;
  recv_buffer_spike_data_ : list SpikeData;
  spike_register_table_ : R;
  routed : list send_5g_call;
  trace : list colloc_event
}.
Arguments mkRank {R}.
Arguments send_buffer_spike_data_ {R}.
Arguments recv_buffer_spike_data_ {R}.
Arguments spike_register_table_ {R}.
Arguments routed {R}.
Arguments trace {R}.

(** A per-thread statement executed by every thread of the team between two
    barriers; the threads touch their own part of the state only, and the
    model runs them in the order of [threads]. *)
Definition for_threads {S : Type} (ts : list Z) (f : Z → S → S) (s : S) : S :=
  foldl (λ acc t, f t acc) s ts.

Section round.
Context {R : Type} `{SpikeRegisterTable R}.

(** The collocation phase: every thread collocates, and [me_completed] is
    the conjunction of the returned flags ([omp critical]). *)
Fixpoint collocate_threads (fuel : nat) (k : Kernel) (ts : list Z)
    (me_completed : bool) (send : list SpikeData) (reg : R)
    (tr : list colloc_event)
    : status bool * (list SpikeData * R * list colloc_event) :=
  match ts with
  | [] => (Returned me_completed, (send, reg, tr))
  | t :: rest =>
      match collocate_spike_data_buffers_ fuel k t send reg tr with
      | (Returned me_completed_tid, st) =>
          collocate_threads fuel k rest (me_completed && me_completed_tid)
            (c_send st) (c_reg st) (c_trace st)
      | (NoFuel, st) => (NoFuel, (c_send st, c_reg st, c_trace st))
      | (Undefined, st) => (Undefined, (c_send st, c_reg st, c_trace st))
      end
  end.

(** The head of the loop body of [gather_spike_data], up to the barrier
    before the collocation: the flags set in the [omp single], the
    restored entry points and the stamped send buffer. *)
Definition round_start (k : Kernel) (st : rank_state R)
    : bool * bool * list SpikeData * R :=
  let me_completed := true in
  let others_completed := true in
  let reg := for_threads (threads k)
               (λ t r, reset_current_index_target_table t
                         (restore_entry_point t r))
               (spike_register_table_ st) in
  let send := prepare_spike_data_buffers_ me_completed
                (send_buffer_spike_data_ st) in
  (me_completed, others_completed, send, reg).

(** One iteration of the [while ( true )] of [gather_spike_data];
    [alltoall send recv] is the receive buffer after
    [communicate_Alltoall].  The returned flag is
    [me_completed && others_completed], the condition of the [break]. *)
Definition gather_round (fuel : nat) (k : Kernel)
    (alltoall : list SpikeData → list SpikeData → list SpikeData)
    (st : rank_state R) : status bool * rank_state R :=
  let '(me_completed, others_completed, send1, reg1) := round_start k st in
  match collocate_threads fuel k (threads k) me_completed send1 reg1
          (trace st) with
  | (Returned me_completed, (send2, reg2, tr2)) =>
      let send3 := if me_completed
                   then prepare_spike_data_buffers_ me_completed send2
                   else send2 in
      let reg3 := for_threads (threads k) save_entry_point reg2 in
      let recv := alltoall send3 (recv_buffer_spike_data_ st) in
      match deliver_threads k (threads k) recv
              (others_completed, routed st) with
      | Some (others_completed, routed') =>
          (Returned (me_completed && others_completed),
           mkRank send3 recv reg3 routed' tr2)
      | None => (Undefined, mkRank send3 recv reg3 (routed st) tr2)
      end
  | (NoFuel, (send2, reg2, tr2)) =>
      (NoFuel, mkRank send2 (recv_buffer_spike_data_ st) reg2 (routed st) tr2)
  | (Undefined, (send2, reg2, tr2)) =>
      (Undefined,
       mkRank send2 (recv_buffer_spike_data_ st) reg2 (routed st) tr2)
  end.

(** The [while ( true )]; [alltoall i] is the exchange of round [i].  The
    result counts the rounds executed. *)
Fixpoint gather_rounds (rounds fuel : nat) (k : Kernel)
    (alltoall : nat → list SpikeData → list SpikeData → list SpikeData)
    (i : nat) (st : rank_state R) : status nat * rank_state R :=
  match rounds with
  | O => (NoFuel, st)
  | S rounds' =>
      match gather_round fuel k (alltoall i) st with
      | (Returned true, st') => (Returned (S i), st')
      | (Returned false, st') =>
          gather_rounds rounds' fuel k alltoall (S i) st'
      | (NoFuel, st') => (NoFuel, st')
      | (Undefined, st') => (Undefined, st')
      end
  end.

(** [EventDeliveryManager::gather_spike_data], for the whole team. *)
Definition gather_spike_data (rounds fuel : nat) (k : Kernel)
    (alltoall : nat → list SpikeData → list SpikeData → list SpikeData)
    (st : rank_state R) : status nat * rank_state R :=
  let reg0 := for_threads (threads k) reset_entry_point
                (spike_register_table_ st) in
  let st0 := mkRank (send_buffer_spike_data_ st)
               (recv_buffer_spike_data_ st) reg0 (routed st) (trace st) in
  match gather_rounds rounds fuel k alltoall 0 st0 with
  | (Returned n, st') =>
      let reg' := for_threads (threads k)
                    (λ t r, clear t (toggle_target_processed_flags t r))
                    (spike_register_table_ st') in
      (Returned n,
       mkRank (send_buffer_spike_data_ st') (recv_buffer_spike_data_ st')
              reg' (routed st') (trace st'))
  | other => other
  end.
End round.

(** ** Collaborators modelled from the spec *)

(** Segment [q] of a buffer partitioned into segments of [m] slots. *)
Definition segment {A : Type} (m q : nat) (buffer : list A) : list A :=
  take m (drop (q * m) buffer).

(** Modelled from the spec: the collective transport
    ([mpi_manager.communicate_Alltoall], not part of the source files), "a
    blocking, symmetric, fixed count" all-to-all: with [m] records per
    process, rank [q] receives from every rank [r], in rank order, the
    segment [q] of the send buffer of [r]; the slots of the receive buffer
    behind the received records keep their content. *)
Definition alltoall_recv {A : Type} (m : nat) (sends : list (list A))
    (q : nat) (recv : list A) : list A :=
  let got := concat (segment m q <$> sends) in
  got ++ drop (length got) recv.

(** Modelled from the spec: the checkpointed register
    ([spike_register_table_], not part of the source files), "a source of
    pending outgoing records that supports save/restore of an iteration
    position and reject last (undo the most recent advance)".  Each thread
    has its pending records with their destination ranks, the iteration
    position, the position before the most recent advance and the saved
    entry point. *)
Record cursor := mkCursor {
  pending : list (Z * SpikeData);
  pos : nat;
  last_pos : nat;
  saved : nat
}.

(** Modelled from the spec: the search of the register, missing from the
    source files, for the first record at or behind position [i] whose
    destination rank lies in [[rs, re)]; it yields the record and the
    position behind it. *)
Fixpoint next_in_range (rs re : Z) (l : list (Z * SpikeData)) (i : nat)
    : option (nat * (Z * SpikeData)) :=
  match l with
  | [] => None
  | x :: rest =>
      if bool_decide (rs ≤ x.1 < re) then Some (S i, x)
      else next_in_range rs re rest (S i)
  end.

(** Modelled from the spec: one advance of the iteration of a thread
    (the register is missing from the source files); the position before
    the advance is remembered for [reject_last_spike_data]. *)
Definition cursor_next (rs re : Z) (c : cursor)
    : option (Z * SpikeData) * cursor :=
  match next_in_range rs re (drop (pos c) (pending c)) (pos c) with
  | Some (p, x) => (Some x, mkCursor (pending c) p (pos c) (saved c))
  | None => (None, c)
  end.

(** Modelled from the spec: an operation on the part of the register that
    thread [t] owns (the register is missing from the source files). *)
Definition on_thread (f : cursor → cursor) (t : Z) (reg : list cursor)
    : list cursor :=
  if bool_decide (0 ≤ t) then alter f (Z.to_nat t) reg else reg.

(** Modelled from the spec: the operations of the checkpointed register,
    missing from the source files.  Saving stores the position, restoring
    returns to the stored position, rejecting undoes the most recent
    advance, resetting returns to the first record. *)
#[global] Instance cursor_register : SpikeRegisterTable (list cursor) := {
  reset_entry_point :=
    on_thread (λ c, mkCursor (pending c) 0 0 0);
  restore_entry_point :=
    on_thread (λ c, mkCursor (pending c) (saved c) (saved c) (saved c));
  save_entry_point :=
    on_thread (λ c, mkCursor (pending c) (pos c) (last_pos c) (pos c));
  get_next_spike_data t rs re reg :=
    match vec_at reg t with
    | Some c => let '(x, c') := cursor_next rs re c in
                (x, on_thread (λ _, c') t reg)
    | None => (None, reg)
    end;
  reject_last_spike_data :=
    on_thread (λ c, mkCursor (pending c) (last_pos c) (last_pos c) (saved c));
  toggle_target_processed_flags := λ _ reg, reg;
  clear := on_thread (λ c, mkCursor [] 0 0 0);
  reset_current_index_target_table := λ _ reg, reg
}.

(** Modelled from the spec: the source table of the connection builder,
    missing from the source files, as a checkpointed iteration like the
    spike register: the pending targets of each thread, the iteration
    position, the position before the most recent advance and the saved
    entry point. *)
Record td_cursor := mkTdCursor {
  td_pending : list TargetData;
  td_pos : nat;
  td_last_pos : nat;
  td_saved : nat
}.

(** Modelled from the spec: the search of the source table, missing from
    the source files, for the first target at or behind position [i] whose
    process, found by [pid] from its [gid], lies in [[rs, re)]. *)
Fixpoint td_next_in_range (pid : Z → Z) (rs re : Z) (l : list TargetData)
    (i : nat) : option (nat * TargetData) :=
  match l with
  | [] => None
  | x :: rest =>
      if bool_decide (rs ≤ pid (gid x) < re) then Some (S i, x)
      else td_next_in_range pid rs re rest (S i)
  end.

(** Modelled from the spec: one advance of the iteration over the source
    table (missing from the source files); when no target is left the
    record handed out carries [invalid_index]. *)
Definition td_cursor_next (pid : Z → Z) (rs re : Z) (c : td_cursor)
    : TargetData * td_cursor :=
  match td_next_in_range pid rs re (drop (td_pos c) (td_pending c))
          (td_pos c) with
  | Some (p, x) => (x, mkTdCursor (td_pending c) p (td_pos c) (td_saved c))
  | None => (mkTargetData invalid_index 0 NoMarker, c)
  end.

(** Modelled from the spec: an operation on the part of the source table
    that thread [t] owns (the table is missing from the source files). *)
Definition td_on_thread (f : td_cursor → td_cursor) (t : Z)
    (src : list td_cursor) : list td_cursor :=
  if bool_decide (0 ≤ t) then alter f (Z.to_nat t) src else src.

(** Modelled from the spec: the operations of the source table, missing
    from the source files, with the checkpoint of the spike register. *)
Definition source_table_cursor (pid : Z → Z)
    : SourceTable (list td_cursor) := {|
  reset_source_table_entry_point :=
    td_on_thread (λ c, mkTdCursor (td_pending c) 0 0 0);
  restore_source_table_entry_point :=
    td_on_thread
      (λ c, mkTdCursor (td_pending c) (td_saved c) (td_saved c) (td_saved c));
  save_source_table_entry_point :=
    td_on_thread
      (λ c, mkTdCursor (td_pending c) (td_pos c) (td_last_pos c) (td_pos c));
  get_next_target_data := λ t rs re src,
    match vec_at src t with
    | Some c => let '(x, c') := td_cursor_next pid rs re c in
                (x, td_on_thread (λ _, c') t src)
    | None => (mkTargetData invalid_index 0 NoMarker, src)
    end;
  reject_last_target_data :=
    td_on_thread
      (λ c, mkTdCursor (td_pending c) (td_last_pos c) (td_last_pos c)
                       (td_saved c))
|}.

(** ** Vocabulary of the statements *)

(** The call of the routing layer that forwards record [d] to thread [t]:
    the time stamp is the clock advanced by [lag + 1] steps. *)
Definition call_of (k : Kernel) (t : Z) (d : SpikeData) : send_5g_call :=
  mkSend t (syn_index d) (lcid d) (get_clock k + (lag d + 1)).

(** The records of the buffer addressed to thread [t], in buffer order. *)
Definition addressed_to (t : Z) (recv : list SpikeData) : list SpikeData :=
  filter (λ d, tid d = t) recv.

(** Every record addressed to [t] carries a lag inside the slice, so that
    it indexes inside [prepared_timestamps]. *)
Definition lags_in_slice (k : Kernel) (t : Z) (recv : list SpikeData) : Prop :=
  ∀ d, d ∈ recv → tid d = t → 0 ≤ lag d < get_min_delay k.

(** The writes of a run of the collocation, in program order: the
    destination rank of the record and the send-buffer index written. *)
Definition writes_of (evs : list colloc_event) : list (Z * Z) :=
  omap (λ ev, match ev with
              | EvWrite rank idx _ => Some (rank, idx) | _ => None end) evs.

(** A write for destination [w.1] at index [w.2]: the rank lies in the
    range [[rs, re)] and the index is [rank * m + off] for an offset below
    the segment size [m]. *)
Definition in_segments (m rs re : Z) (w : Z * Z) : Prop :=
  rs ≤ w.1 < re ∧ ∃ off, 0 ≤ off < m ∧ w.2 = w.1 * m + off.

(** The rank range [vp_manager] assigns to a thread: when it is not empty it
    lies within the ranks of the run and holds at most
    [num_assigned_ranks_per_thread] ranks. *)
Definition rank_range_ok (k : Kernel) (t : Z) : Prop :=
  get_start_rank_per_thread k t ≠ get_end_rank_per_thread k t →
  0 ≤ get_start_rank_per_thread k t
  ∧ get_end_rank_per_thread k t ≤ get_num_processes k
  ∧ get_end_rank_per_thread k t - get_start_rank_per_thread k t
    ≤ get_num_assigned_ranks_per_thread k.

(** The register hands out only records whose destination rank lies in the
    range it was asked for. *)
Definition pulls_in_range (R : Type) `{SpikeRegisterTable R} (t rs re : Z)
    : Prop :=
  ∀ reg rank d reg',
    get_next_spike_data t rs re reg = (Some (rank, d), reg') → rs ≤ rank < re.

(** The invariant of the collocation loop on a send buffer of [size] slots:
    the vectors keep their sizes, no offset exceeds the segment size, and
    the events behind [tr0] wrote inside the segments of the range only. *)
Definition colloc_inv {R : Type} (size n m rs re : Z)
    (tr0 : list colloc_event) (st : colloc R) : Prop :=
  Z.of_nat (length (c_send st)) = size
  ∧ Z.of_nat (length (c_offset st)) = n
  ∧ Forall (λ off, 0 ≤ off ≤ m) (c_offset st)
  ∧ ∃ evs, c_trace st = tr0 ++ evs
           ∧ Forall (in_segments m rs re) (writes_of evs).

(** ** Concrete configurations *)

(** One process with one thread that is assigned the rank range [[0, 1)];
    [min_delay] is 2 and the clock stands at step 10. *)
Definition one_thread_kernel (from_step : Z) : Kernel :=
  mkKernel 2 10 from_step 1 1 1 (λ _, 0) (λ _, 1).

(** A data record for thread [t] with lag [l]. *)
Definition spike (t l : Z) : SpikeData := mkSpikeData t 0 0 l.

(** The test of [distribute_target_data_buffers_] on one record. *)
Definition forwarded (is_vp_local : Z → bool) (d : TargetData) : Prop :=
  td_is_empty d = false ∧ td_is_complete d = false
  ∧ is_vp_local (gid d) = true.

(** A write inside the segment of its destination rank and inside a send
    buffer of [size] slots. *)
Definition write_in_own_segment (m size rs re : Z) (w : Z * Z) : Prop :=
  in_segments m rs re w
  ∧ w.1 * m ≤ w.2 < (w.1 + 1) * m
  ∧ 0 ≤ w.2 < size.

(** Two processes with two threads; thread [t] is assigned the rank range
    [[t, t + 1)]. *)
Definition two_rank_kernel : Kernel :=
  mkKernel 2 10 0 2 2 1 (λ t, t) (λ t, t + 1).

(** A register of two threads: thread 0 holds one record for rank 0, thread
    1 holds three records for rank 1. *)
Definition two_thread_register : list cursor :=
  [mkCursor [(0, spike 0 0)] 0 0 0;
   mkCursor [(1, spike 0 0); (1, spike 1 0); (1, spike 1 1)] 0 0 0].

(** A send buffer of four slots, none of which names a thread. *)
Definition four_slots : list SpikeData :=
  [spike (-1) 0; spike (-1) 0; spike (-1) 0; spike (-1) 0].

(** The state of the single rank of [one_thread_kernel] before a call of
    [gather_spike_data]: one record for thread 0 of rank 0, with lag 1, is
    pending in the register; nothing was routed yet. *)
Definition pending_rank_state : rank_state (list cursor) :=
  mkRank four_slots four_slots [mkCursor [(0, spike 0 1)] 0 0 0] [] [].

(** The exchange of a run with one process: the rank receives its own
    segment. *)
Definition alltoall_single (m : nat) (i : nat) (send recv : list SpikeData)
    : list SpikeData :=
  alltoall_recv m [send] 0 recv.

(** ** One exchange among all ranks *)



(** The process of a [gid] in the examples: gids are dealt out to the two
    processes in turn. *)
Definition pid_of_gid (g : Z) : Z := g `mod` 2.

(** Modelled from the spec: the source table of the examples, with the
    processes of [pid_of_gid]; the table is missing from the source
    files. *)
#[global] Instance example_source_table : SourceTable (list td_cursor) :=
  source_table_cursor pid_of_gid.

(** ** Vocabulary of the further properties *)

(** The records a run of the collocation wrote, in program order: the
    destination rank, the send-buffer index and the record. *)
Definition written_of (evs : list colloc_event) : list (Z * Z * SpikeData) :=
  omap (λ ev, match ev with
              | EvWrite rank idx d => Some (rank, idx, d) | _ => None end) evs.

(** The send-buffer indices a run wrote. *)
Definition written_indices (evs : list colloc_event) : list Z :=
  (λ w : Z * Z * SpikeData, w.1.2) <$> written_of evs.

(** The invariant of the collocation loop on the content of the send
    buffer [send0] it started from: every write went below the fill level
    of the segment of its rank, no index was written twice, every written
    record is still in its slot, every other slot is as it was, and the sum
    of the offsets and [buffer_untouched] count the writes. *)
Definition colloc_fill_inv {R : Type} (send0 : list SpikeData)
    (n m rs re : Z) (tr0 : list colloc_event) (st : colloc R) : Prop :=
  ∃ evs,
    c_trace st = tr0 ++ evs
    ∧ length (c_send st) = length send0
    ∧ Z.of_nat (length (c_offset st)) = n
    ∧ Forall (λ off, 0 ≤ off ≤ m) (c_offset st)
    ∧ Forall (λ w : Z * Z * SpikeData,
                rs ≤ w.1.1 < re
                ∧ ∃ j off, c_offset st !! Z.to_nat (w.1.1 - rs) = Some off
                           ∧ 0 ≤ j < off ∧ w.1.2 = w.1.1 * m + j)
        (written_of evs)
    ∧ NoDup (written_indices evs)
    ∧ Forall (λ w : Z * Z * SpikeData,
                c_send st !! Z.to_nat w.1.2 = Some w.2) (written_of evs)
    ∧ (∀ i, Z.of_nat i ∉ written_indices evs → c_send st !! i = send0 !! i)
    ∧ c_sum st = Z.of_nat (length (written_of evs))
    ∧ c_untouched st = bool_decide (written_of evs = []).

(** The writes of a run of the target-data collocation, in program order:
    the destination rank and the send-buffer index written. *)
Definition td_writes_of (evs : list td_event) : list (Z * Z) :=
  omap (λ ev, match ev with
              | TdWrite rank idx _ => Some (rank, idx) | _ => None end) evs.

(** The source table hands out only targets whose process, found by
    [pid], lies in the rank range it was asked for. *)
Definition td_pulls_in_range (S : Type) `{SourceTable S} (pid : Z → Z)
    (t rs re : Z) : Prop :=
  ∀ src d src',
    get_next_target_data t rs re src = (d, src') →
    gid d ≠ invalid_index → rs ≤ pid (gid d) < re.

(** The invariant of the loop of [collocate_target_data_buffers_] on a send
    buffer of [size] slots. *)
Definition td_colloc_inv {S : Type} (size n m rs re : Z)
    (tr0 : list td_event) (st : td_colloc S) : Prop :=
  Z.of_nat (length (t_send st)) = size
  ∧ Z.of_nat (length (t_offset st)) = n
  ∧ Forall (λ off, 0 ≤ off ≤ m) (t_offset st)
  ∧ ∃ evs, t_trace st = tr0 ++ evs
           ∧ Forall (in_segments m rs re) (td_writes_of evs).

(** A source table of two threads for the examples: thread 1 holds three
    targets on rank 1. *)
Definition two_thread_source_table : list td_cursor :=
  [mkTdCursor [] 0 0 0;
   mkTdCursor [mkTargetData 1 7 NoMarker; mkTargetData 3 8 NoMarker;
               mkTargetData 5 9 NoMarker] 0 0 0].

(** A target-data send buffer of four slots. *)
Definition four_target_slots : list TargetData :=
  [mkTargetData 0 0 EmptyMarker; mkTargetData 0 0 EmptyMarker;
   mkTargetData 0 0 EmptyMarker; mkTargetData 0 0 EmptyMarker].

(** Three processes with one thread that is assigned the rank range
    [[0, 3)]. *)
Definition three_rank_kernel : Kernel :=
  mkKernel 2 10 0 3 1 3 (λ _, 0) (λ _, 3).

(** A send buffer of two slots: fewer slots than [three_rank_kernel] has
    processes. *)
Definition two_slots : list SpikeData := [spike (-1) 0; spike (-1) 0].

(** The team of threads is set up for the collocation: the register hands
    every thread records of its own rank range only, every range lies within
    the ranks of the run, and the ranges of different threads are
    disjoint. *)
Definition team_ranges_ok (R : Type) `{SpikeRegisterTable R} (k : Kernel)
    : Prop :=
  (∀ t, t ∈ threads k →
     pulls_in_range R t (get_start_rank_per_thread k t)
       (get_end_rank_per_thread k t)
     ∧ rank_range_ok k t)
  ∧ ∀ t1 t2, t1 ∈ threads k → t2 ∈ threads k → t1 ≠ t2 →
      get_end_rank_per_thread k t1 ≤ get_start_rank_per_thread k t2
      ∨ get_end_rank_per_thread k t2 ≤ get_start_rank_per_thread k t1.

(** The invariant of the collocation phase of a round, after the threads
    [finished] have collocated into the buffer that held [send0] at the
    barrier: no index was written twice, every record written is in its
    slot, every other slot is as it was at the barrier, every write went
    into a segment of the range of a thread that has finished, and
    [me_completed] tells that nothing was written. *)
Definition team_inv (k : Kernel) (m : Z) (send0 : list SpikeData)
    (tr0 : list colloc_event) (finished : list Z) (me_completed : bool)
    (send : list SpikeData) (tr : list colloc_event) : Prop :=
  ∃ evs,
    tr = tr0 ++ evs
    ∧ length send = length send0
    ∧ NoDup (written_indices evs)
    ∧ Forall (λ w : Z * Z * SpikeData,
                send !! Z.to_nat w.1.2 = Some w.2) (written_of evs)
    ∧ (∀ i, Z.of_nat i ∉ written_indices evs → send !! i = send0 !! i)
    ∧ Forall (λ w : Z * Z * SpikeData,
                0 ≤ w.1.1
                ∧ ∃ t, t ∈ finished
                       ∧ get_start_rank_per_thread k t ≤ w.1.1
                         < get_end_rank_per_thread k t
                       ∧ ∃ j, 0 ≤ j < m ∧ w.1.2 = w.1.1 * m + j)
        (written_of evs)
    ∧ me_completed = bool_decide (written_of evs = []).

(** The state of a rank of [two_rank_kernel] before a round: the register
    of two threads, and buffers of four slots. *)
Definition two_rank_state : rank_state (list cursor) :=
  mkRank four_slots four_slots two_thread_register [] [].

(** An exchange that leaves the receive buffer as it is. *)
Definition no_exchange (send recv : list SpikeData) : list SpikeData := recv.

(** The targets a run of the target-data collocation wrote, in program
    order: the rank, the send-buffer index and the record. *)
Definition td_written_of (evs : list td_event) : list (Z * Z * TargetData) :=
  omap (λ ev, match ev with
              | TdWrite rank idx d => Some (rank, idx, d) | _ => None end) evs.

Definition td_written_indices (evs : list td_event) : list Z :=
  (λ w : Z * Z * TargetData, w.1.2) <$> td_written_of evs.

(** The invariant of the loop of [collocate_target_data_buffers_] on the
    content of the send buffer [send0] it started from. *)
Definition td_fill_inv {S : Type} (send0 : list TargetData)
    (n m rs re : Z) (tr0 : list td_event) (st : td_colloc S) : Prop :=
  ∃ evs,
    t_trace st = tr0 ++ evs
    ∧ length (t_send st) = length send0
    ∧ Z.of_nat (length (t_offset st)) = n
    ∧ Forall (λ off, 0 ≤ off ≤ m) (t_offset st)
    ∧ Forall (λ w : Z * Z * TargetData,
                rs ≤ w.1.1 < re
                ∧ ∃ j off, t_offset st !! Z.to_nat (w.1.1 - rs) = Some off
                           ∧ 0 ≤ j < off ∧ w.1.2 = w.1.1 * m + j)
        (td_written_of evs)
    ∧ NoDup (td_written_indices evs)
    ∧ Forall (λ w : Z * Z * TargetData,
                t_send st !! Z.to_nat w.1.2 = Some w.2) (td_written_of evs)
    ∧ (∀ i, Z.of_nat i ∉ td_written_indices evs →
         t_send st !! i = send0 !! i)
    ∧ t_sum st = Z.of_nat (length (td_written_of evs)).

(** ** Configurations of the rejected record *)

(** A send buffer of three slots: one slot for each process of
    [three_rank_kernel]. *)
Definition three_slots : list SpikeData :=
  [spike (-1) 0; spike (-1) 0; spike (-1) 0].

(** A register of one thread that holds two records for rank 0 and one for
    rank 1. *)
Definition crowded_register : list cursor :=
  [mkCursor [(0, spike 0 0); (0, spike 0 1); (1, spike 0 0)] 0 0 0].

(** The state of the collocation of thread 0 of [three_rank_kernel] on
    [three_slots] and [crowded_register] after its first iteration: the
    segment of rank 0 (one slot) is full, the segments of ranks 1 and 2 are
    not. *)
Definition crowded_state : colloc (list cursor) :=
  mkColloc [spike 0 0; spike (-1) 0; spike (-1) 0] [1; 0; 0] 1 false
    [mkCursor [(0, spike 0 0); (0, spike 0 1); (1, spike 0 0)] 1 0 0]
    [EvGetNext 0 (Some (0, spike 0 0)); EvWrite 0 0 (spike 0 0)].

(** A target-data send buffer of three slots. *)
Definition three_target_slots : list TargetData :=
  [mkTargetData 0 0 EmptyMarker; mkTargetData 0 0 EmptyMarker;
   mkTargetData 0 0 EmptyMarker].

(** A source table of one thread that holds two targets on rank 1 and one
    on rank 0 (processes of [pid_of_gid]). *)
Definition crowded_source_table : list td_cursor :=
  [mkTdCursor [mkTargetData 1 7 NoMarker; mkTargetData 3 8 NoMarker;
               mkTargetData 2 9 NoMarker] 0 0 0].

(** The state of the target-data collocation of thread 0 of
    [three_rank_kernel] on [three_target_slots] and [crowded_source_table]
    after its first iteration: the segment of rank 1 is full. *)
Definition crowded_target_state : td_colloc (list td_cursor) :=
  mkTdColloc
    [mkTargetData 0 0 EmptyMarker; mkTargetData 1 7 NoMarker;
     mkTargetData 0 0 EmptyMarker]
    [0; 1; 0] 1
    [mkTdCursor [mkTargetData 1 7 NoMarker; mkTargetData 3 8 NoMarker;
                 mkTargetData 2 9 NoMarker] 1 0 0]
    [TdGetNext 0 (mkTargetData 1 7 NoMarker);
     TdWrite 1 1 (mkTargetData 1 7 NoMarker)].




(** ** The exchange among the ranks of a run *)

(** An exchange in which the rank receives nothing. *)
Definition nothing_received (send recv : list SpikeData) : list SpikeData :=
  [].

Section job.
Context {R : Type} `{SpikeRegisterTable R}.

(** The state in which [gather_spike_data] enters its loop: every thread
    has reset its entry point. *)
Definition loop_entry (k : Kernel) (st : rank_state R) : rank_state R :=
  mkRank (send_buffer_spike_data_ st) (recv_buffer_spike_data_ st)
    (for_threads (threads k) reset_entry_point (spike_register_table_ st))
    (routed st) (trace st).

(** The send buffer a rank hands to the exchange of round [i] of the loop
    it enters in state [st].  The sending side of a round reads neither the
    receive buffer nor the calls routed so far, so the rounds before are run
    with an exchange in which the rank receives nothing. *)
Fixpoint sent_in_round (fuel : nat) (k : Kernel) (st : rank_state R)
    (i : nat) : list SpikeData :=
  let st' := (gather_round fuel k nothing_received st).2 in
  match i with
  | O => send_buffer_spike_data_ st'
  | S i' => sent_in_round fuel k st' i'
  end.

(** Modelled from the spec: the collective transport among the ranks of a
    run that call [gather_spike_data] in the states [sts], seen from rank
    [q] in round [i]: the rank hands over its send buffer [send], the other
    ranks hand over theirs of the same round, and rank [q] receives, in rank
    order, segment [q] of each ([alltoall_recv], [m] records per
    process).  A rank that has left its loop before round [i] takes part
    in no exchange; for such a rank [sent_in_round] is what it would hand
    over, and the statement about the whole run assumes that the ranks
    leave their loops in the same round. *)
Definition job_exchange (fuel : nat) (k : Kernel) (m : nat)
    (sts : list (rank_state R)) (q : nat) (i : nat)
    (send recv : list SpikeData) : list SpikeData :=
  alltoall_recv m
    (<[q := send]> ((λ st, sent_in_round fuel k (loop_entry k st) i) <$> sts))
    q recv.
End job.

(** The records of a register modelled from the spec that the threads of
    the team hand out: of the pending records of every thread those for a
    rank of its range, with their destination ranks.  The collocation asks
    [get_next_spike_data] for the ranks of the range of the calling thread
    only, so that a pending record of a thread for another rank is handed
    out by no call. *)
Definition outgoing (k : Kernel) (reg : list cursor)
    : list (Z * SpikeData) :=
  concat ((λ t, match vec_at reg t with
                | Some c =>
                    filter (λ x : Z * SpikeData,
                              get_start_rank_per_thread k t ≤ x.1
                              < get_end_rank_per_thread k t)
                           (pending c)
                | None => []
                end) <$> threads k).



(** The two ranks of a run of [two_rank_kernel], both in the state
    [two_rank_state]. *)
Definition two_rank_job : list (rank_state (list cursor)) :=
  [two_rank_state; two_rank_state].




(** ** Vocabulary of the exchange from end to end *)





(** * Topology: connection_creator_impl.h

    The connection creator draws its random numbers from generators and
    asks parameter objects ([kernel_], [weight_], [delay_]) and a Vose
    lottery for values; none of them is in the source file.  They are the
    operations of the class [Draws], over a generator state [Rng] that every
    call threads through.  [connection_manager.connect] is the log of the
    connections made.  [number_of_connections_] is a member declared outside
    the file; it is an integer that the draw loops cast to [int] and to
    [long]. *)

Module Topology.

Definition INT_MAX : Z := 2 ^ 31 - 1.

(** [( int ) number_of_connections_] and [( long ) number_of_connections_]. *)
Definition to_int (x : Z) : Z := (x + 2 ^ 31) `mod` 2 ^ 32 - 2 ^ 31.
Definition to_long (x : Z) : Z := (x + 2 ^ 63) `mod` 2 ^ 64 - 2 ^ 63.

(** The layer handed to the parameter objects as last argument. *)
Inductive layer := SourceLayer | TargetLayer.

(** [kernel_accepts] is [rng->drand() < kernel_->value( rng, src, tgt, layer )];
    [weight_delay] is the pair of [weight_->value] and [delay_->value] at one
    pair of positions (as arguments of one call their order is the
    compiler's); [get_random_id] is a draw from the Vose lottery built on
    the probabilities. *)
Class Draws (Pos Rng Val : Type) := {
  kernel_accepts : Rng → Pos → Pos → layer → bool * Rng;
  kernel_value : Rng → Pos → Pos → layer → Val * Rng;
  weight_delay : Rng → Pos → Pos → layer → (Val * Val) * Rng;
  ulrand : Rng → Z → Z * Rng;
  get_random_id : list Val → Rng → Z * Rng;
  certain : Val
}.

(** One call of [kernel().connection_manager.connect]. *)
Record connection (Val : Type) := mkConnection {
  conn_source : Z;
  conn_target : Z;
  conn_thread : Z;
  conn_delay : Val;
  conn_weight : Val
}.
Arguments mkConnection {Val}.
Arguments conn_source {Val}.
Arguments conn_target {Val}.
Arguments conn_thread {Val}.
Arguments conn_delay {Val}.
Arguments conn_weight {Val}.

(** An element of the target collection with its position in the layer. *)
Record target_node (Pos : Type) := mkTarget {
  tgt_gid : Z;
  tgt_pos : Pos
}.
Arguments mkTarget {Pos}.
Arguments tgt_gid {Pos}.
Arguments tgt_pos {Pos}.

Inductive exception :=
  | IllegalConnection
  | KernelException (id : Z).

(** How a call ends: it returns, it throws, the model's fuel ran out inside
    a draw loop, or a vector was indexed out of range. *)
Inductive outcome (A : Type) :=
  | Done (a : A)
  | Thrown (e : exception) (a : A)
  | Starved (a : A)
  | OutOfBounds.
Arguments Done {A}.
Arguments Thrown {A}.
Arguments Starved {A}.
Arguments OutOfBounds {A}.

(** State of a draw loop; [d_ids] is a ghost list of the accepted draws. *)
Record draw (Rng Val : Type) := mkDraw {
  d_selected : list bool;
  d_rng : Rng;
  d_log : list (connection Val);
  d_ids : list Z
}.
Arguments mkDraw {Rng Val}.
Arguments d_selected {Rng Val}.
Arguments d_rng {Rng Val}.
Arguments d_log {Rng Val}.
Arguments d_ids {Rng Val}.

(** One pass through the body of a draw loop: [--i; continue], the
    end of the body, or an index out of range. *)
Inductive drawn (Rng Val : Type) :=
  | Rejected (rng : Rng)
  | Connected (s : draw Rng Val)
  | BadIndex.
Arguments Rejected {Rng Val}.
Arguments Connected {Rng Val}.
Arguments BadIndex {Rng Val}.

(** The vectors [targets], [weight_delay_pairs] and [probabilities] that
    [divergent_connect_] fills for one source. *)
Record candidates (Val : Type) := mkCandidates {
  cand_targets : list Z;
  cand_weight_delay_pairs : list (Val * Val);
  cand_probabilities : list Val
}.
Arguments mkCandidates {Val}.
Arguments cand_targets {Val}.
Arguments cand_weight_delay_pairs {Val}.
Arguments cand_probabilities {Val}.

Section creator.
Context {Pos Rng Val : Type} `{Draws Pos Rng Val}.

(** [connect_to_target_] over the range [from, to) of (position, gid)
    pairs. *)
Fixpoint connect_to_target_ (allow_autapses without_kernel : bool)
    (pool : list (Pos * Z)) (tgt : target_node Pos) (tgt_thread : Z)
    (source : layer) (rng : Rng) (log : list (connection Val))
    : Rng * list (connection Val) :=
  match pool with
  | [] => (rng, log)
  | iter :: rest =>
      if negb allow_autapses && bool_decide (iter.2 = tgt_gid tgt)
      then connect_to_target_ allow_autapses without_kernel rest tgt
             tgt_thread source rng log
      else
        let '(accepted, rng1) :=
          if without_kernel then (true, rng)
          else kernel_accepts rng iter.1 (tgt_pos tgt) source in
        if accepted
        then
          let '((w, d), rng2) :=
            weight_delay rng1 iter.1 (tgt_pos tgt) source in
          connect_to_target_ allow_autapses without_kernel rest tgt
            tgt_thread source rng2
            (log ++ [mkConnection iter.2 (tgt_gid tgt) tgt_thread d w])
        else
          connect_to_target_ allow_autapses without_kernel rest tgt
            tgt_thread source rng1 log
  end.

(** [PoolWrapper_]: the masked layer anchored at a position, or all global
    positions of the source layer. *)
Definition pool_range (mask : option (Pos → list (Pos * Z)))
    (global_positions : list (Pos * Z)) (anchor : Pos) : list (Pos * Z) :=
  match mask with
  | Some masked => masked anchor
  | None => global_positions
  end.

(** The body one thread runs in [target_driven_connect_]: all targets of
    the collection, those that are no proxy on this thread are connected.
    [is_proxy gid thread] is [get_node_or_proxy( gid, thread )->is_proxy()]. *)
Definition target_driven_connect_ (allow_autapses without_kernel : bool)
    (mask : option (Pos → list (Pos * Z)))
    (global_positions : list (Pos * Z)) (is_proxy : Z → Z → bool)
    (target_gc : list (target_node Pos)) (thread_id : Z)
    (rng : Rng) (log : list (connection Val))
    : Rng * list (connection Val) :=
  foldl (λ s tgt,
           if is_proxy (tgt_gid tgt) thread_id then s
           else connect_to_target_ allow_autapses without_kernel
                  (pool_range mask global_positions (tgt_pos tgt))
                  tgt thread_id SourceLayer s.1 s.2)
        (rng, log) target_gc.

(** The test before the draws of [convergent_connect_]. *)
Definition not_enough_sources (allow_autapses allow_multapses : bool)
    (positions : list (Pos * Z)) (target_id : Z)
    (number_of_connections_ : Z) : bool :=
  bool_decide (length positions = 0%nat)
  || (negb allow_autapses && bool_decide (length positions = 1%nat)
      && match positions with
         | p :: _ => bool_decide (p.2 = target_id)
         | [] => false
         end)
  || (negb allow_multapses
      && bool_decide (Z.of_nat (length positions) < number_of_connections_)).

(** The loop that collects [probabilities]. *)
Definition collect_probabilities (positions : list (Pos * Z))
    (target_pos : Pos) (rng : Rng) : list Val * Rng :=
  foldl (λ s iter,
           let '(p, rng') := kernel_value s.2 iter.1 target_pos SourceLayer in
           (s.1 ++ [p], rng'))
        ([], rng) positions.

(** Body of the four draw loops of [convergent_connect_].  [lottery] holds
    the probabilities when there is a kernel; [autapse_check] tells whether
    the body has the test of [source_id] against [target_id]. *)
Definition convergent_draw (lottery : option (list Val))
    (autapse_check allow_autapses allow_multapses : bool)
    (positions : list (Pos * Z)) (tgt : target_node Pos) (target_thread : Z)
    (s : draw Rng Val) : drawn Rng Val :=
  let '(random_id, rng) :=
    match lottery with
    | Some probabilities => get_random_id probabilities (d_rng s)
    | None => ulrand (d_rng s) (Z.of_nat (length positions))
    end in
  match (if allow_multapses then Some false
         else vec_at (d_selected s) random_id) with
  | None => BadIndex
  | Some true => Rejected rng
  | Some false =>
      match vec_at positions random_id with
      | None => BadIndex
      | Some (source_pos, source_id) =>
          if autapse_check && negb allow_autapses
             && bool_decide (source_id = tgt_gid tgt)
          then Rejected rng
          else
            let '((w, d), rng') :=
              weight_delay rng source_pos (tgt_pos tgt) SourceLayer in
            match vec_set (d_selected s) random_id true with
            | None => BadIndex
            | Some selected =>
                Connected
                  (mkDraw selected rng'
                     (d_log s ++ [mkConnection source_id (tgt_gid tgt)
                                    target_thread d w])
                     (d_ids s ++ [random_id]))
            end
      end
  end.

(** [for ( int i = 0; i < ( int ) number_of_connections_; ++i )]: a rejected
    draw runs [--i; continue] and the increment, which leave [i] as it
    was. *)
Fixpoint convergent_draws (fuel : nat) (lottery : option (list Val))
    (autapse_check allow_autapses allow_multapses : bool)
    (positions : list (Pos * Z)) (tgt : target_node Pos) (target_thread : Z)
    (n i : Z) (s : draw Rng Val) : outcome (draw Rng Val) :=
  if bool_decide (i < n)
  then
    match fuel with
    | O => Starved s
    | S fuel' =>
        match convergent_draw lottery autapse_check allow_autapses
                allow_multapses positions tgt target_thread s with
        | BadIndex => OutOfBounds
        | Rejected rng =>
            convergent_draws fuel' lottery autapse_check allow_autapses
              allow_multapses positions tgt target_thread n i
              (mkDraw (d_selected s) rng (d_log s) (d_ids s))
        | Connected s' =>
            convergent_draws fuel' lottery autapse_check allow_autapses
              allow_multapses positions tgt target_thread n (i + 1) s'
        end
    end
  else Done s.

(** What [convergent_connect_] does for one target, in its four branches
    (mask or not, kernel or not). *)
Definition convergent_target (fuel : nat)
    (masked with_kernel allow_autapses allow_multapses : bool)
    (number_of_connections_ : Z) (positions : list (Pos * Z))
    (tgt : target_node Pos) (target_thread : Z)
    (rng : Rng) (log : list (connection Val)) : outcome (draw Rng Val) :=
  let short := not_enough_sources allow_autapses allow_multapses positions
                 (tgt_gid tgt) number_of_connections_ in
  let is_selected := replicate (length positions) false in
  let n := to_int number_of_connections_ in
  if masked
  then
    if with_kernel
    then
      let '(probabilities, rng') :=
        collect_probabilities positions (tgt_pos tgt) rng in
      if short
      then Thrown (KernelException (tgt_gid tgt)) (mkDraw [] rng' log [])
      else convergent_draws fuel (Some probabilities) true allow_autapses
             allow_multapses positions tgt target_thread n 0
             (mkDraw is_selected rng' log [])
    else
      if short
      then Thrown (KernelException (tgt_gid tgt)) (mkDraw [] rng log [])
      else convergent_draws fuel None false allow_autapses
             allow_multapses positions tgt target_thread n 0
             (mkDraw is_selected rng log [])
  else
    if short
    then Thrown (KernelException (tgt_gid tgt)) (mkDraw [] rng log [])
    else
      if with_kernel
      then
        let '(probabilities, rng') :=
          collect_probabilities positions (tgt_pos tgt) rng in
        convergent_draws fuel (Some probabilities) true allow_autapses
          allow_multapses positions tgt target_thread n 0
          (mkDraw is_selected rng' log [])
      else
        convergent_draws fuel None true allow_autapses
          allow_multapses positions tgt target_thread n 0
          (mkDraw is_selected rng log []).

(** The generator of one thread replaced ([get_vp_rng] hands out a pointer
    to it). *)
Definition set_rng (rngs : Z → Rng) (thread : Z) (rng : Rng) : Z → Rng :=
  λ t, if bool_decide (t = thread) then rng else rngs t.

(** The loop of [convergent_connect_] over the targets local to the
    process. *)
Fixpoint convergent_targets (fuel : nat)
    (with_kernel allow_autapses allow_multapses : bool)
    (number_of_connections_ : Z) (mask : option (Pos → list (Pos * Z)))
    (global_positions : list (Pos * Z)) (get_thread : Z → Z)
    (targets : list (target_node Pos)) (rngs : Z → Rng)
    (log : list (connection Val))
    : outcome ((Z → Rng) * list (connection Val)) :=
  match targets with
  | [] => Done (rngs, log)
  | tgt :: rest =>
      let target_thread := get_thread (tgt_gid tgt) in
      match convergent_target fuel (bool_decide (is_Some mask)) with_kernel
              allow_autapses allow_multapses number_of_connections_
              (pool_range mask global_positions (tgt_pos tgt))
              tgt target_thread (rngs target_thread) log with
      | Done s =>
          convergent_targets fuel with_kernel allow_autapses allow_multapses
            number_of_connections_ mask global_positions get_thread rest
            (set_rng rngs target_thread (d_rng s)) (d_log s)
      | Thrown e s =>
          Thrown e (set_rng rngs target_thread (d_rng s), d_log s)
      | Starved s =>
          Starved (set_rng rngs target_thread (d_rng s), d_log s)
      | OutOfBounds => OutOfBounds
      end
  end.

(** [convergent_connect_]; [first_has_proxies] is [has_proxies()] of the
    first node of the target collection. *)
Definition convergent_connect_ (fuel : nat)
    (with_kernel allow_autapses allow_multapses : bool)
    (number_of_connections_ : Z) (first_has_proxies : bool)
    (mask : option (Pos → list (Pos * Z)))
    (global_positions : list (Pos * Z)) (get_thread : Z → Z)
    (targets : list (target_node Pos)) (rngs : Z → Rng)
    (log : list (connection Val))
    : outcome ((Z → Rng) * list (connection Val)) :=
  if bool_decide (number_of_connections_ < 1) then Done (rngs, log)
  else if negb first_has_proxies then Thrown IllegalConnection (rngs, log)
  else convergent_targets fuel with_kernel allow_autapses allow_multapses
         number_of_connections_ mask global_positions get_thread targets
         rngs log.

Definition find_targets (allow_autapses with_kernel : bool)
    (masked_target : list (Pos * Z)) (source_pos : Pos) (source_id : Z)
    (rng : Rng) : candidates Val * Rng :=
  foldl (λ s tgt_it,
           if negb allow_autapses && bool_decide (source_id = tgt_it.2)
           then s
           else
             let '(wd, rng1) :=
               weight_delay s.2 source_pos tgt_it.1 TargetLayer in
             let '(p, rng2) :=
               if with_kernel
               then kernel_value rng1 source_pos tgt_it.1 SourceLayer
               else (certain, rng1) in
             (mkCandidates (cand_targets s.1 ++ [tgt_it.2])
                (cand_weight_delay_pairs s.1 ++ [wd])
                (cand_probabilities s.1 ++ [p]), rng2))
        (mkCandidates [] [] [], rng) masked_target.

(** Body of the draw loop of [divergent_connect_]: a draw of a target that
    is not local ends the body by [continue], after the draw was counted. *)
Definition divergent_draw (allow_multapses : bool)
    (is_local_gid : Z → bool) (get_thread : Z → Z) (source_id : Z)
    (c : candidates Val) (s : draw Rng Val) : drawn Rng Val :=
  let '(random_id, rng) := get_random_id (cand_probabilities c) (d_rng s) in
  match (if allow_multapses then Some false
         else vec_at (d_selected s) random_id) with
  | None => BadIndex
  | Some true => Rejected rng
  | Some false =>
      match vec_set (d_selected s) random_id true with
      | None => BadIndex
      | Some selected =>
          match vec_at (cand_weight_delay_pairs c) random_id,
                vec_at (cand_targets c) random_id with
          | Some target_weight_delay, Some target_id =>
              if negb (is_local_gid target_id)
              then Connected (mkDraw selected rng (d_log s)
                                (d_ids s ++ [random_id]))
              else Connected
                     (mkDraw selected rng
                        (d_log s ++ [mkConnection source_id target_id
                                       (get_thread target_id)
                                       target_weight_delay.2
                                       target_weight_delay.1])
                        (d_ids s ++ [random_id]))
          | _, _ => BadIndex
          end
      end
  end.

(** [for ( long i = 0; i < ( long ) number_of_connections_; ++i )]. *)
Fixpoint divergent_draws (fuel : nat) (allow_multapses : bool)
    (is_local_gid : Z → bool) (get_thread : Z → Z) (source_id : Z)
    (c : candidates Val) (n i : Z) (s : draw Rng Val)
    : outcome (draw Rng Val) :=
  if bool_decide (i < n)
  then
    match fuel with
    | O => Starved s
    | S fuel' =>
        match divergent_draw allow_multapses is_local_gid get_thread
                source_id c s with
        | BadIndex => OutOfBounds
        | Rejected rng =>
            divergent_draws fuel' allow_multapses is_local_gid get_thread
              source_id c n i
              (mkDraw (d_selected s) rng (d_log s) (d_ids s))
        | Connected s' =>
            divergent_draws fuel' allow_multapses is_local_gid get_thread
              source_id c n (i + 1) s'
        end
    end
  else Done s.

(** What [divergent_connect_] does for one source with the global
    generator. *)
Definition divergent_source (fuel : nat)
    (with_kernel allow_autapses allow_multapses : bool)
    (number_of_connections_ : Z) (masked_target : Pos → list (Pos * Z))
    (is_local_gid : Z → bool) (get_thread : Z → Z) (src : Pos * Z)
    (rng : Rng) (log : list (connection Val)) : outcome (draw Rng Val) :=
  let '(c, rng') :=
    find_targets allow_autapses with_kernel (masked_target src.1)
      src.1 src.2 rng in
  if bool_decide (length (cand_targets c) = 0%nat)
     || (negb allow_multapses
         && bool_decide (Z.of_nat (length (cand_targets c))
                         < number_of_connections_))
  then Thrown (KernelException src.2) (mkDraw [] rng' log [])
  else divergent_draws fuel allow_multapses is_local_gid get_thread src.2 c
         (to_long number_of_connections_) 0
         (mkDraw (replicate (length (cand_targets c)) false) rng' log []).

(** The loop of [divergent_connect_] over the global positions of the
    source layer; the ghost list collects the accepted draws of every
    source. *)
Fixpoint divergent_sources (fuel : nat)
    (with_kernel allow_autapses allow_multapses : bool)
    (number_of_connections_ : Z) (masked_target : Pos → list (Pos * Z))
    (is_local_gid : Z → bool) (get_thread : Z → Z)
    (sources : list (Pos * Z)) (rng : Rng) (log : list (connection Val))
    : outcome (Rng * list (connection Val)) :=
  match sources with
  | [] => Done (rng, log)
  | src :: rest =>
      match divergent_source fuel with_kernel allow_autapses allow_multapses
              number_of_connections_ masked_target is_local_gid get_thread
              src rng log with
      | Done s =>
          divergent_sources fuel with_kernel allow_autapses allow_multapses
            number_of_connections_ masked_target is_local_gid get_thread
            rest (d_rng s) (d_log s)
      | Thrown e s => Thrown e (d_rng s, d_log s)
      | Starved s => Starved (d_rng s, d_log s)
      | OutOfBounds => OutOfBounds
      end
  end.

Definition divergent_connect_ (fuel : nat)
    (with_kernel allow_autapses allow_multapses : bool)
    (number_of_connections_ : Z) (first_has_proxies : bool)
    (masked_target : Pos → list (Pos * Z))
    (is_local_gid : Z → bool) (get_thread : Z → Z)
    (sources : list (Pos * Z)) (rng : Rng) (log : list (connection Val))
    : outcome (Rng * list (connection Val)) :=
  if bool_decide (number_of_connections_ < 1) then Done (rng, log)
  else if negb first_has_proxies then Thrown IllegalConnection (rng, log)
  else divergent_sources fuel with_kernel allow_autapses allow_multapses
         number_of_connections_ masked_target is_local_gid get_thread
         sources rng log.

End creator.

(** ** Vocabulary of the statements about the connection creator *)

(** The elements of a pool that may be connected to the node [id]: all of
    them, or all but the node itself. *)
Definition admissible {Pos : Type} (allow_autapses : bool) (id : Z)
    (pool : list (Pos * Z)) : list (Pos * Z) :=
  filter (λ p, allow_autapses = true ∨ p.2 ≠ id) pool.

Definition endpoints {Val : Type} (c : connection Val) : Z * Z :=
  (conn_source c, conn_target c).

(** The (source, target) pairs of one target with the admissible elements
    of its pool, in pool order. *)
Definition pool_pairs {Pos : Type} (allow_autapses : bool)
    (pool : list (Pos * Z)) (tgt : target_node Pos) : list (Z * Z) :=
  (λ p, (p.2, tgt_gid tgt)) <$> admissible allow_autapses (tgt_gid tgt) pool.

(** The targets that are no proxy on a thread. *)
Definition thread_targets {Pos : Type} (is_proxy : Z → Z → bool)
    (thread_id : Z) (target_gc : list (target_node Pos))
    : list (target_node Pos) :=
  filter (λ tgt, is_proxy (tgt_gid tgt) thread_id = false) target_gc.

(** Connection [c] was made for the accepted draw [random_id] of a
    convergent draw loop. *)
Definition drawn_from {Pos Val : Type} (positions : list (Pos * Z))
    (target_id target_thread : Z) (random_id : Z) (c : connection Val)
    : Prop :=
  (∃ pos, vec_at positions random_id = Some (pos, conn_source c))
  ∧ conn_target c = target_id ∧ conn_thread c = target_thread.

(** Invariant of the convergent draw loops at counter [i]. *)
Definition convergent_inv {Pos Rng Val : Type}
    (autapse_check allow_autapses allow_multapses : bool)
    (positions : list (Pos * Z)) (tgt : target_node Pos)
    (target_thread : Z) (log : list (connection Val))
    (i : Z) (s : draw Rng Val) : Prop :=
  ∃ new,
    d_log s = log ++ new
    ∧ Z.of_nat (length new) = i
    ∧ Forall2 (drawn_from positions (tgt_gid tgt) target_thread)
        (d_ids s) new
    ∧ length (d_selected s) = length positions
    ∧ Forall (λ id, vec_at (d_selected s) id = Some true) (d_ids s)
    ∧ (allow_multapses = false → NoDup (d_ids s))
    ∧ (autapse_check = true → allow_autapses = false →
       Forall (λ c, conn_source c ≠ conn_target c) new).

(** What the generators promise: [ulrand( n )] is below [n], and the
    lottery returns an index of its probabilities. *)
Definition draws_in_range (Pos Rng Val : Type) `{Draws Pos Rng Val} : Prop :=
  (∀ (rng : Rng) n, 0 < n → 0 ≤ (ulrand rng n).1 < n)
  ∧ (∀ (probabilities : list Val) (rng : Rng),
       probabilities ≠ [] →
       0 ≤ (get_random_id probabilities rng).1
         < Z.of_nat (length probabilities)).

(** The targets of a fixed fan-in: every target [number_of_connections_]
    times, in the order of the targets. *)
Definition fan_in {Pos : Type} (number_of_connections_ : Z)
    (targets : list (target_node Pos)) : list Z :=
  targets ≫= λ tgt, replicate (Z.to_nat number_of_connections_) (tgt_gid tgt).

(** The sources of a fixed fan-out. *)
Definition fan_out {Pos : Type} (number_of_connections_ : Z)
    (sources : list (Pos * Z)) : list Z :=
  sources ≫= λ src, replicate (Z.to_nat number_of_connections_) src.2.

(** The connection a divergent draw loop makes for the accepted draw
    [random_id], if its target is local. *)
Definition divergent_connection {Val : Type} (is_local_gid : Z → bool)
    (get_thread : Z → Z) (source_id : Z) (c : candidates Val)
    (random_id : Z) : option (connection Val) :=
  match vec_at (cand_weight_delay_pairs c) random_id,
        vec_at (cand_targets c) random_id with
  | Some target_weight_delay, Some target_id =>
      if is_local_gid target_id
      then Some (mkConnection source_id target_id (get_thread target_id)
                   target_weight_delay.2 target_weight_delay.1)
      else None
  | _, _ => None
  end.

(** Invariant of the divergent draw loop at counter [i]. *)
Definition divergent_inv {Rng Val : Type} (allow_multapses : bool)
    (is_local_gid : Z → bool) (get_thread : Z → Z) (source_id : Z)
    (c : candidates Val) (log : list (connection Val))
    (i : Z) (s : draw Rng Val) : Prop :=
  d_log s
  = log ++ omap (divergent_connection is_local_gid get_thread source_id c)
             (d_ids s)
  ∧ Z.of_nat (length (d_ids s)) = i
  ∧ length (d_selected s) = length (cand_targets c)
  ∧ Forall (λ id, vec_at (d_selected s) id = Some true) (d_ids s)
  ∧ (allow_multapses = false → NoDup (d_ids s)).

(** Two draw loops in the same state but for their logs. *)
Definition same_draws {Rng Val : Type} (s1 s2 : draw Rng Val) : Prop :=
  d_selected s1 = d_selected s2 ∧ d_rng s1 = d_rng s2 ∧ d_ids s1 = d_ids s2.

(** An outcome on a process where every target is local, seen from a
    process with log [log] where the targets of [is_local_gid] are local. *)
Definition local_part {Rng Val : Type} (is_local_gid : Z → bool)
    (log : list (connection Val))
    (o : outcome (Rng * list (connection Val)))
    : outcome (Rng * list (connection Val)) :=
  let keep (a : Rng * list (connection Val)) :=
    (a.1, log ++ filter (λ c, is_local_gid (conn_target c) = true) a.2) in
  match o with
  | Done a => Done (keep a)
  | Thrown e a => Thrown e (keep a)
  | Starved a => Starved (keep a)
  | OutOfBounds => OutOfBounds
  end.

(** Examples: nodes on a line; a generator is the list of the numbers it
    still hands out (0 when it is used up), reduced to the range asked
    for. *)
#[global] Instance example_draws : Draws Z (list Z) Z := {|
  kernel_accepts rng src tgt _ :=
    match rng with
    | [] => (false, [])
    | x :: rest => (bool_decide (x `mod` 2 = 0), rest)
    end;
  kernel_value rng src tgt _ := (1, rng);
  weight_delay rng src tgt _ := ((Z.abs (src - tgt), 1), rng);
  ulrand rng n :=
    match rng with
    | [] => (0, [])
    | x :: rest => (x `mod` n, rest)
    end;
  get_random_id probabilities rng :=
    match rng with
    | [] => (0, [])
    | x :: rest => (x `mod` Z.of_nat (length probabilities), rest)
    end;
  certain := 1
|}.

Definition three_positions : list (Z * Z) := [(0, 5); (1, 7); (2, 9)].

Definition two_positions : list (Z * Z) := [(0, 5); (1, 7)].

Definition example_target : target_node Z := mkTarget 5 0.

End Topology.

(** * Properties *)

Section for_upto_facts.
Context {A : Type}.

Lemma for_upto_insert_prefix (f : nat → A) (tbl : list A) (k : nat) :
  (k ≤ length tbl)%nat →
  for_upto k (λ d t, <[d := f d]> t) tbl = (f <$> seq 0 k) ++ drop k tbl.
Proof.
  unfold for_upto. induction k as [|k IH]; intros Hk.
  - by rewrite drop_0.
  - rewrite seq_S, foldl_app, fmap_app. simpl. rewrite IH by lia.
    destruct (lookup_lt_is_Some_2 tbl k ltac:(lia)) as [x Hx].
    rewrite (drop_S _ _ _ Hx).
    replace k with (length (f <$> seq 0 k) + 0)%nat at 1
      by (rewrite length_fmap, length_seq; lia).
    rewrite insert_app_r. simpl. by rewrite <- app_assoc.
Qed.

Lemma for_upto_insert_all (f : nat → A) (tbl : list A) :
  for_upto (length tbl) (λ d t, <[d := f d]> t) tbl
  = f <$> seq 0 (length tbl).
Proof.
  rewrite for_upto_insert_prefix by lia. by rewrite drop_all, app_nil_r.
Qed.
End for_upto_facts.

Module ModuliFacts.
Import Moduli.

Section window.
Variables min_delay max_delay : Z.
Hypothesis Hmin : 1 ≤ min_delay.
Hypothesis Hmax : 1 ≤ max_delay.

Local Abbreviation W := (min_delay + max_delay).

Lemma nbuff_pos : 0 < nbuff min_delay max_delay.
Proof.
  unfold nbuff. rewrite Z.quot_div_nonneg by lia.
  apply Z.div_str_pos. lia.
Qed.

Lemma length_moduli_at steps :
  length (moduli_at min_delay max_delay steps) = Z.to_nat W.
Proof. unfold moduli_at. by rewrite length_fmap, length_seqZ. Qed.

Lemma length_slice_moduli_at steps :
  length (slice_moduli_at min_delay max_delay steps) = Z.to_nat W.
Proof. unfold slice_moduli_at. by rewrite length_fmap, length_seqZ. Qed.

Lemma lookup_moduli_at steps (d : nat) :
  (d < Z.to_nat W)%nat →
  moduli_at min_delay max_delay steps !! d
  = Some ((steps + Z.of_nat d) `mod` W).
Proof.
  intros Hd. unfold moduli_at. rewrite list_lookup_fmap.
  rewrite lookup_seqZ_lt by lia. simpl. do 2 f_equal; lia.
Qed.

Lemma fill_slice_moduli_spec steps (tbl : list Z) :
  0 ≤ steps → steps + W ≤ LONG_MAX →
  length tbl = Z.to_nat W →
  fill_slice_moduli min_delay max_delay steps tbl
  = slice_moduli_at min_delay max_delay steps.
Proof.
  intros Hs Hb Hlen. unfold fill_slice_moduli, slice_moduli_at.
  rewrite <- Hlen, for_upto_insert_all, Hlen.
  unfold seqZ. rewrite <- list_fmap_compose.
  apply list_fmap_ext. intros i d Hi.
  apply lookup_seq in Hi as [Hd Hi]. simpl in Hd. subst d. simpl.
  replace (Z.of_nat i + 0) with (Z.of_nat i) by lia.
  assert (0 ≤ (steps + Z.of_nat i) `quot` min_delay ≤ steps + Z.of_nat i).
  { rewrite Z.quot_div_nonneg by lia. split.
    - apply Z.div_pos; lia.
    - apply Z.div_le_upper_bound; nia. }
  unfold to_size_t. rewrite Z.mod_small by (unfold LONG_MAX in Hb; lia).
  rewrite Z.rem_mod_nonneg by (pose proof nbuff_pos; lia).
  by rewrite Z.quot_div_nonneg by lia.
Qed.

Lemma init_moduli_spec steps (st : tables) :
  0 ≤ steps → steps + W ≤ LONG_MAX →
  init_moduli min_delay max_delay steps st
  = Some (Tables (moduli_at min_delay max_delay steps)
                 (slice_moduli_at min_delay max_delay steps)).
Proof.
  intros Hs Hb. unfold init_moduli.
  rewrite !bool_decide_eq_false_2 by lia. do 2 f_equal.
  - set (n := Z.to_nat W).
    replace n with (length (resize n 0 (moduli_ st))) at 1
      by apply length_resize.
    rewrite for_upto_insert_all, length_resize.
    unfold moduli_at, seqZ. rewrite <- list_fmap_compose.
    apply list_fmap_ext. intros i d Hi.
    apply lookup_seq in Hi as [Hd Hi]. simpl in Hd. subst d. simpl.
    replace (Z.of_nat i + 0) with (Z.of_nat i) by lia.
    apply Z.rem_mod_nonneg; lia.
  - apply fill_slice_moduli_spec; auto. apply length_resize.
Qed.

(** Rotating the table of step count [steps] left by [min_delay] gives
    the table of step count [steps + min_delay]. *)
Lemma std_rotate_moduli_at steps :
  0 ≤ steps →
  std_rotate (Z.to_nat min_delay) (moduli_at min_delay max_delay steps)
  = moduli_at min_delay max_delay (steps + min_delay).
Proof.
  intros Hs. apply list_eq. intros i. unfold std_rotate.
  destruct (decide (i < Z.to_nat W)%nat) as [Hi|Hi].
  2: { rewrite !lookup_ge_None_2; auto.
       - rewrite length_moduli_at. lia.
       - rewrite length_app, length_drop, length_take, length_moduli_at.
         lia. }
  rewrite (lookup_moduli_at _ i Hi).
  destruct (decide (i < Z.to_nat max_delay)%nat) as [Hlt|Hge].
  - rewrite lookup_app_l
      by (rewrite length_drop, length_moduli_at; lia).
    rewrite lookup_drop, lookup_moduli_at by lia.
    do 2 f_equal. lia.
  - rewrite lookup_app_r
      by (rewrite length_drop, length_moduli_at; lia).
    rewrite length_drop, length_moduli_at.
    rewrite lookup_take_lt by lia.
    rewrite lookup_moduli_at by lia. f_equal.
    replace (steps + min_delay + Z.of_nat i)
      with (steps + Z.of_nat (i - (Z.to_nat W - Z.to_nat min_delay))
            + 1 * W) by lia.
    by rewrite Z.mod_add by lia.
Qed.

Lemma update_moduli_spec steps (st : tables) :
  0 ≤ steps → steps + min_delay + W ≤ LONG_MAX →
  moduli_ st = moduli_at min_delay max_delay steps →
  length (slice_moduli_ st) = Z.to_nat W →
  update_moduli min_delay max_delay (steps + min_delay) st
  = Some (Tables (moduli_at min_delay max_delay (steps + min_delay))
                 (slice_moduli_at min_delay max_delay (steps + min_delay))).
Proof.
  intros Hs Hb Hm Hl. unfold update_moduli.
  rewrite !bool_decide_eq_false_2 by lia.
  rewrite bool_decide_eq_true_2
    by (rewrite Hm, length_moduli_at; lia).
  rewrite Hm, std_rotate_moduli_at by lia.
  by rewrite fill_slice_moduli_spec by lia.
Qed.

Lemma advance_slices_spec (n : nat) steps (st : tables) :
  0 ≤ steps → steps + Z.of_nat n * min_delay + W ≤ LONG_MAX →
  moduli_ st = moduli_at min_delay max_delay steps →
  slice_moduli_ st = slice_moduli_at min_delay max_delay steps →
  advance_slices n min_delay max_delay (steps, st)
  = Some (steps + Z.of_nat n * min_delay,
          Tables (moduli_at min_delay max_delay
                    (steps + Z.of_nat n * min_delay))
                 (slice_moduli_at min_delay max_delay
                    (steps + Z.of_nat n * min_delay))).
Proof.
  revert steps st. induction n as [|n IH]; intros steps st Hs Hb Hm Hl.
  - simpl. replace (steps + Z.of_nat 0 * min_delay) with steps by lia.
    destruct st; simpl in *; by subst.
  - simpl. unfold advance_slice. simpl.
    rewrite update_moduli_spec; auto; try nia.
    2: by rewrite Hl, length_slice_moduli_at.
    simpl. rewrite IH; simpl; auto; try nia.
    replace (steps + min_delay + Z.of_nat n * min_delay)
      with (steps + Z.of_nat (S n) * min_delay) by lia.
    done.
Qed.
End window.
End ModuliFacts.

(** ** Delivery *)

Module DeliveryFacts.

Lemma prepared_timestamps_at (k : Kernel) (l : Z) :
  0 ≤ l < get_min_delay k →
  vec_at (prepared_timestamps k) l = Some (get_clock k + (l + 1)).
Proof.
  intros Hl. unfold vec_at, prepared_timestamps.
  rewrite bool_decide_eq_true_2 by lia.
  set (n := Z.to_nat (get_min_delay k)).
  replace n with (length (replicate n 0)) at 1 by apply length_replicate.
  rewrite for_upto_insert_all, length_replicate, list_lookup_fmap.
  rewrite lookup_seq_lt by lia. simpl. do 2 f_equal; lia.
Qed.

Lemma deliver_scan_spec (k : Kernel) (t : Z) (it : list SpikeData)
    (acc : bool * list send_5g_call) :
  lags_in_slice k t it →
  deliver_scan (prepared_timestamps k) t it acc
  = Some (acc.1 && bool_decide (addressed_to t it = []),
          acc.2 ++ (call_of k t <$> addressed_to t it)).
Proof.
  revert acc. induction it as [|d rest IH]; intros [b calls] Hlag.
  - simpl. by rewrite andb_true_r, app_nil_r.
  - assert (lags_in_slice k t rest) as Hrest.
    { intros d' Hd'. apply Hlag. by right. }
    simpl. unfold addressed_to. rewrite filter_cons.
    destruct (decide (tid d = t)) as [Hd|Hd].
    + rewrite bool_decide_eq_true_2 by done.
      rewrite prepared_timestamps_at by (apply Hlag; [by left|done]).
      simpl. rewrite IH by done. simpl.
      rewrite andb_false_r. rewrite <- app_assoc. done.
    + rewrite bool_decide_eq_false_2 by done. rewrite IH by done. done.
Qed.

Lemma deliver_mid_slice (k : Kernel) (t : Z) (recv : list SpikeData) :
  get_from_step k > 0 → deliver_events_5g_ k t recv = Some (true, []).
Proof.
  intros Hf. unfold deliver_events_5g_.
  by rewrite bool_decide_eq_true_2.
Qed.

Lemma deliver_slice_start (k : Kernel) (t : Z) (recv : list SpikeData) :
  get_from_step k ≤ 0 → lags_in_slice k t recv →
  deliver_events_5g_ k t recv
  = Some (bool_decide (addressed_to t recv = []),
          call_of k t <$> addressed_to t recv).
Proof.
  intros Hf Hlag. unfold deliver_events_5g_.
  rewrite bool_decide_eq_false_2 by lia.
  by rewrite deliver_scan_spec.
Qed.

Lemma deliver_threads_mid_slice (k : Kernel) (ts : list Z)
    (recv : list SpikeData) (acc : bool * list send_5g_call) :
  get_from_step k > 0 → deliver_threads k ts recv acc = Some acc.
Proof.
  intros Hf. revert acc. induction ts as [|t ts IH]; intros [b calls].
  - done.
  - simpl. rewrite deliver_mid_slice by done. simpl.
    rewrite IH. by rewrite andb_true_r, app_nil_r.
Qed.

Lemma deliver_threads_slice_start (k : Kernel) (ts : list Z)
    (recv : list SpikeData) (acc : bool * list send_5g_call) :
  get_from_step k ≤ 0 →
  (∀ t, t ∈ ts → lags_in_slice k t recv) →
  deliver_threads k ts recv acc
  = Some (acc.1 && forallb (λ t, bool_decide (addressed_to t recv = [])) ts,
          acc.2 ++ concat ((λ t, call_of k t <$> addressed_to t recv) <$> ts)).
Proof.
  intros Hf. revert acc. induction ts as [|t ts IH]; intros [b calls] Hlag.
  - simpl. by rewrite andb_true_r, app_nil_r.
  - simpl. rewrite deliver_slice_start; [|done|apply Hlag; by left].
    simpl. rewrite IH by (intros t' Ht'; apply Hlag; by right).
    simpl. by rewrite andb_assoc, <- app_assoc.
Qed.

Lemma addressed_to_nil (t : Z) (recv : list SpikeData) :
  addressed_to t recv = [] ↔ ∀ d, d ∈ recv → tid d ≠ t.
Proof.
  unfold addressed_to. split.
  - intros Hnil d Hd Ht.
    assert (d ∈ filter (λ d, tid d = t) recv) as Hin
      by (apply list_elem_of_filter; done).
    rewrite Hnil in Hin. by apply not_elem_of_nil in Hin.
  - intros Hall. induction recv as [|d rest IH]; [done|].
    rewrite filter_cons. destruct (decide (tid d = t)) as [Ht|Ht].
    + exfalso. eapply Hall; [by left|done].
    + apply IH. intros d' Hd'. apply Hall. by right.
Qed.
End DeliveryFacts.

(** ** Collocation *)

Lemma vec_at_lookup {A : Type} (v : list A) (i : Z) :
  0 ≤ i < Z.of_nat (length v) → ∃ x, vec_at v i = Some x.
Proof.
  intros Hi. unfold vec_at. rewrite bool_decide_eq_true_2 by lia.
  apply lookup_lt_is_Some_2. lia.
Qed.

Lemma vec_at_Some {A : Type} (v : list A) (i : Z) (x : A) :
  vec_at v i = Some x → 0 ≤ i < Z.of_nat (length v) ∧ v !! Z.to_nat i = Some x.
Proof.
  unfold vec_at. case_bool_decide; [|done]. intros Hx. split; [|done].
  apply lookup_lt_Some in Hx. lia.
Qed.

Lemma to_uint_small (x : Z) : 0 ≤ x ≤ UINT_MAX → to_uint x = x.
Proof. intros Hx. unfold to_uint. apply Z.mod_small. unfold UINT_MAX in Hx. lia. Qed.

Lemma writes_of_app (e1 e2 : list colloc_event) :
  writes_of (e1 ++ e2) = writes_of e1 ++ writes_of e2.
Proof. unfold writes_of. apply omap_app. Qed.

Section collocation_facts.
Context {R : Type} `{SpikeRegisterTable R}.
Variables (t rs re n m size P : Z) (tr0 : list colloc_event).
Hypothesis Hpull : pulls_in_range R t rs re.
Hypothesis Hrs : 0 ≤ rs.
Hypothesis Hre : re ≤ P.
Hypothesis Hn : re - rs ≤ n.
Hypothesis Hm : 0 ≤ m.
Hypothesis Htile : m * P ≤ size.
Hypothesis Hsize : size ≤ UINT_MAX.

Lemma in_segments_bound (w : Z * Z) :
  in_segments m rs re w → 0 ≤ w.2 < size.
Proof. intros (Hr & off & Ho & ->). nia. Qed.

Lemma close_iteration_inv (st : colloc R) :
  colloc_inv size n m rs re tr0 st →
  match close_iteration n m st with
  | Continue st' | Return _ st' => colloc_inv size n m rs re tr0 st'
  | Fault => False
  end.
Proof. intros Hinv. unfold close_iteration. by case_bool_decide. Qed.

Lemma collocate_step_inv (st : colloc R) :
  colloc_inv size n m rs re tr0 st →
  match collocate_step t rs re n m st with
  | Continue st' | Return _ st' => colloc_inv size n m rs re tr0 st'
  | Fault => False
  end.
Proof.
  intros (Hsend & Hoff & Hbound & evs & Htr & Hev). unfold collocate_step.
  destruct (get_next_spike_data t rs re (c_reg st)) as [[[rank d]|] reg']
    eqn:Hnext.
  - pose proof (Hpull _ _ _ _ Hnext) as Hrank.
    destruct (vec_at_lookup (c_offset st) (rank - rs) ltac:(lia))
      as [off Hlook].
    rewrite Hlook. apply vec_at_Some in Hlook as [Hidx Hlook].
    pose proof (Forall_lookup_1 _ _ _ _ Hbound Hlook) as Hoffb.
    simpl in Hoffb. case_bool_decide as Hfull.
    + assert (0 ≤ rank * m + off < size) as Hin by nia.
      rewrite (to_uint_small (rank * m + off)) by lia.
      rewrite (to_uint_small (off + 1)) by nia.
      unfold vec_set. rewrite !bool_decide_eq_true_2 by lia.
      apply close_iteration_inv. repeat split; simpl.
      * rewrite length_insert. done.
      * rewrite length_insert. done.
      * apply Forall_insert; [done|lia].
      * exists (evs ++ [EvGetNext t (Some (rank, d));
                        EvWrite rank (rank * m + off) d]).
        split; [rewrite Htr, <- !app_assoc; done|].
        rewrite writes_of_app. apply Forall_app. split; [done|].
        simpl. apply Forall_singleton. split; [done|].
        exists off. simpl. lia.
    + apply close_iteration_inv. repeat split; simpl; try done.
      exists (evs ++ [EvGetNext t (Some (rank, d)); EvReject t; EvSave t]).
      split; [rewrite Htr, <- !app_assoc; done|].
      rewrite writes_of_app. apply Forall_app. split; [done|]. simpl.
      apply Forall_nil_2.
  - repeat split; simpl; try done.
    exists (evs ++ [EvGetNext t None]).
    split; [rewrite Htr, <- !app_assoc; done|].
    rewrite writes_of_app. apply Forall_app. split; [done|]. simpl.
    apply Forall_nil_2.
Qed.

Lemma collocate_loop_inv (fuel : nat) (st : colloc R) :
  colloc_inv size n m rs re tr0 st →
  (collocate_loop fuel t rs re n m st).1 ≠ Undefined
  ∧ colloc_inv size n m rs re tr0 (collocate_loop fuel t rs re n m st).2.
Proof.
  revert st. induction fuel as [|fuel IH]; intros st Hinv; simpl.
  - done.
  - pose proof (collocate_step_inv st Hinv) as Hstep.
    destruct (collocate_step t rs re n m st) as [st'|b st'|]; simpl.
    + by apply IH.
    + done.
    + done.
Qed.
End collocation_facts.

Lemma num_spike_data_per_rank_div (size P : Z) :
  0 ≤ size ≤ UINT_MAX → 1 ≤ P ≤ LONG_MAX →
  num_spike_data_per_rank size P = size `div` P.
Proof.
  intros Hs HP. unfold num_spike_data_per_rank, to_size_t.
  rewrite (Z.mod_small P) by (unfold LONG_MAX in HP; lia).
  rewrite Z.quot_div_nonneg by lia.
  apply to_uint_small. split.
  - apply Z.div_pos; lia.
  - transitivity size; [|lia]. apply Z.div_le_upper_bound; nia.
Qed.

Lemma num_spike_data_per_rank_tiles (size P : Z) :
  0 ≤ size ≤ UINT_MAX → 1 ≤ P ≤ LONG_MAX →
  0 ≤ num_spike_data_per_rank size P
  ∧ num_spike_data_per_rank size P * P ≤ size
  ∧ size < num_spike_data_per_rank size P * P + P.
Proof.
  intros Hs HP. rewrite num_spike_data_per_rank_div by done.
  pose proof (Z.div_mod size P ltac:(lia)) as Hdm.
  pose proof (Z.mod_pos_bound size P ltac:(lia)) as Hmod.
  repeat split; nia.
Qed.

Section collocate_call.
Context {R : Type} `{SpikeRegisterTable R}.
Variables (k : Kernel) (t : Z).

Local Abbreviation rs := (get_start_rank_per_thread k t).
Local Abbreviation re := (get_end_rank_per_thread k t).
Local Abbreviation n := (get_num_assigned_ranks_per_thread k).
Local Abbreviation P := (get_num_processes k).

Lemma collocate_spike_data_buffers_inv (fuel : nat)
    (send : list SpikeData) (reg : R) (tr0 : list colloc_event) :
  pulls_in_range R t rs re → rank_range_ok k t →
  1 ≤ P ≤ LONG_MAX → 0 ≤ n → Z.of_nat (length send) ≤ UINT_MAX →
  (collocate_spike_data_buffers_ fuel k t send reg tr0).1 ≠ Undefined
  ∧ colloc_inv (Z.of_nat (length send)) n
      (num_spike_data_per_rank (Z.of_nat (length send)) P) rs re tr0
      (collocate_spike_data_buffers_ fuel k t send reg tr0).2.
Proof.
  intros Hpull Hrange HP Hn Hsize.
  destruct (num_spike_data_per_rank_tiles (Z.of_nat (length send)) P)
    as (Hm0 & Htile & _); [lia|done|].
  assert (colloc_inv (Z.of_nat (length send)) n
            (num_spike_data_per_rank (Z.of_nat (length send)) P) rs re tr0
            (mkColloc send (replicate (Z.to_nat n) 0) 0 true reg tr0))
    as Hinit.
  { repeat split; simpl.
    - rewrite length_replicate. lia.
    - apply Forall_replicate. lia.
    - exists []. by rewrite app_nil_r. }
  unfold collocate_spike_data_buffers_. case_bool_decide as Hne.
  - destruct (Hrange Hne) as (Hrs & Hre & Hlen).
    eapply collocate_loop_inv; eauto.
  - done.
Qed.
End collocate_call.

(** * The claims *)

(** C2.  For a delay window with [min_delay >= 1] and [max_delay >= 1], a
    clock that starts at a step count [T0 >= 0] and advances by [min_delay]
    steps per slice (all step counts within the range of [long]): after [n]
    slices the tables are defined, and the next [update_moduli] leaves
    [moduli_] and [slice_moduli_] equal, as vectors and at every offset [d]
    of the window, to the tables [init_moduli] produces at the updated step
    count, from whatever tables it starts. *)
Theorem update_moduli_matches_init (min_delay max_delay T0 : Z) (n : nat)
    (st0 other : Moduli.tables) :
  1 ≤ min_delay → 1 ≤ max_delay → 0 ≤ T0 →
  T0 + Z.of_nat (S n) * min_delay + (min_delay + max_delay) ≤ LONG_MAX →
  ∃ st st' fresh,
    (Moduli.init_moduli min_delay max_delay T0 st0
       ≫= λ s, Moduli.advance_slices n min_delay max_delay (T0, s))
    = Some (T0 + Z.of_nat n * min_delay, st)
    ∧ Moduli.update_moduli min_delay max_delay
        (T0 + Z.of_nat n * min_delay + min_delay) st = Some st'
    ∧ Moduli.init_moduli min_delay max_delay
        (T0 + Z.of_nat n * min_delay + min_delay) other = Some fresh
    ∧ st' = fresh
    ∧ ∀ d, 0 ≤ d < min_delay + max_delay →
        Moduli.moduli_ st' !! Z.to_nat d = Moduli.moduli_ fresh !! Z.to_nat d
        ∧ Moduli.slice_moduli_ st' !! Z.to_nat d
          = Moduli.slice_moduli_ fresh !! Z.to_nat d
        ∧ Moduli.moduli_ st' !! Z.to_nat d
          = Some ((T0 + Z.of_nat n * min_delay + min_delay + d)
                    `mod` (min_delay + max_delay)).
Proof.
  intros Hmin Hmax HT Hb.
  set (T := T0 + Z.of_nat n * min_delay).
  exists (Moduli.Tables (Moduli.moduli_at min_delay max_delay T)
                        (Moduli.slice_moduli_at min_delay max_delay T)).
  exists (Moduli.Tables
            (Moduli.moduli_at min_delay max_delay (T + min_delay))
            (Moduli.slice_moduli_at min_delay max_delay (T + min_delay))).
  exists (Moduli.Tables
            (Moduli.moduli_at min_delay max_delay (T + min_delay))
            (Moduli.slice_moduli_at min_delay max_delay (T + min_delay))).
  assert (0 ≤ T) by (unfold T; nia).
  split; [|split; [|split; [|split]]].
  - rewrite ModuliFacts.init_moduli_spec by nia. simpl.
    by rewrite ModuliFacts.advance_slices_spec by (simpl; nia || done).
  - apply ModuliFacts.update_moduli_spec; simpl; try done.
    + unfold T. nia.
    + by apply ModuliFacts.length_slice_moduli_at.
  - apply ModuliFacts.init_moduli_spec; try done; unfold T; nia.
  - done.
  - intros d Hd. split; [done|]. split; [done|]. simpl.
    rewrite ModuliFacts.lookup_moduli_at by lia.
    do 2 f_equal. lia.
Qed.

Lemma update_moduli_matches_init_witness :
  ∃ st st' fresh,
    (Moduli.init_moduli 3 5 0 (Moduli.Tables [] [])
       ≫= λ s, Moduli.advance_slices 0 3 5 (0, s))
    = Some (0 + Z.of_nat 0 * 3, st)
    ∧ Moduli.update_moduli 3 5 (0 + Z.of_nat 0 * 3 + 3) st = Some st'
    ∧ Moduli.init_moduli 3 5 (0 + Z.of_nat 0 * 3 + 3) (Moduli.Tables [] [])
      = Some fresh
    ∧ st' = fresh
    ∧ ∀ d, 0 ≤ d < 3 + 5 →
        Moduli.moduli_ st' !! Z.to_nat d = Moduli.moduli_ fresh !! Z.to_nat d
        ∧ Moduli.slice_moduli_ st' !! Z.to_nat d
          = Moduli.slice_moduli_ fresh !! Z.to_nat d
        ∧ Moduli.moduli_ st' !! Z.to_nat d
          = Some ((0 + Z.of_nat 0 * 3 + 3 + d) `mod` (3 + 5)).
Proof.
  apply (update_moduli_matches_init 3 5 0 0
           (Moduli.Tables [] []) (Moduli.Tables [] []));
    unfold LONG_MAX; simpl; lia.
Defined.

(** The worked example of the window [min_delay = 3], [max_delay = 5]:
    the table at step 0 and the table after one slice. *)
Example moduli_worked_example :
  Moduli.init_moduli 3 5 0 (Moduli.Tables [] [])
  = Some (Moduli.Tables [0; 1; 2; 3; 4; 5; 6; 7] [0; 0; 0; 1; 1; 1; 2; 2])
  ∧ Moduli.advance_slice 3 5
      (0, Moduli.Tables [0; 1; 2; 3; 4; 5; 6; 7] [0; 0; 0; 1; 1; 1; 2; 2])
    = Some (3, Moduli.Tables [3; 4; 5; 6; 7; 0; 1; 2]
                             [1; 1; 1; 2; 2; 2; 0; 0]).
Proof. split; reflexivity. Qed.

(** C8, as stated, fails: for a buffer of 5 slots and 2 processes the
    segment size is 2, and the two segments cover 4 slots only. *)
Lemma segment_size_not_exact :
  num_spike_data_per_rank 5 2 = 2 ∧ num_spike_data_per_rank 5 2 * 2 ≠ 5.
Proof. split; [reflexivity|]. vm_compute. discriminate. Qed.

(** C8, amended.  For a buffer of [size] slots (within [unsigned int]) and
    [P >= 1] processes the segment size [m] is the truncated quotient
    [size / P]: the [P] segments lie within the buffer, no segment extends
    past its end, fewer than [P] slots at the end belong to no segment, and
    the segments tile the buffer exactly when [P] divides [size]. *)
Theorem segment_size_within_buffer (size P : Z) :
  0 ≤ size ≤ UINT_MAX → 1 ≤ P ≤ LONG_MAX →
  num_spike_data_per_rank size P = size `div` P
  ∧ num_spike_data_per_rank size P * P ≤ size
  ∧ size - num_spike_data_per_rank size P * P < P
  ∧ (num_spike_data_per_rank size P * P = size ↔ size `mod` P = 0)
  ∧ ∀ r, 0 ≤ r < P →
      0 ≤ r * num_spike_data_per_rank size P
      ∧ (r + 1) * num_spike_data_per_rank size P ≤ size.
Proof.
  intros Hs HP.
  destruct (num_spike_data_per_rank_tiles size P Hs HP) as (H0 & Hle & Hlt).
  pose proof (num_spike_data_per_rank_div size P Hs HP) as Hdiv.
  pose proof (Z.div_mod size P ltac:(lia)) as Hdm.
  repeat split; try lia; try nia.
Qed.

Lemma segment_size_within_buffer_witness :
  num_spike_data_per_rank 5 2 = 5 `div` 2
  ∧ num_spike_data_per_rank 5 2 * 2 ≤ 5
  ∧ 5 - num_spike_data_per_rank 5 2 * 2 < 2
  ∧ (num_spike_data_per_rank 5 2 * 2 = 5 ↔ 5 `mod` 2 = 0)
  ∧ ∀ r, 0 ≤ r < 2 →
      0 ≤ r * num_spike_data_per_rank 5 2
      ∧ (r + 1) * num_spike_data_per_rank 5 2 ≤ 5.
Proof.
  apply (segment_size_within_buffer 5 2);
    unfold UINT_MAX, LONG_MAX; lia.
Defined.

(** C7.  [distribute_target_data_buffers_] forwards to [add_target], in
    buffer order and once per slot, exactly the received records that are
    neither empty nor complete and whose [gid] is local to the receiving
    rank according to [is_vp_local]; empty records, complete records and
    records that are not local are never forwarded. *)
Theorem distribute_forwards_exactly (is_vp_local : Z → bool) (t : Z)
    (recv_buffer : list TargetData) :
  distribute_target_data_buffers_ is_vp_local t recv_buffer
  = (λ d, (t, d)) <$> filter (forwarded is_vp_local) recv_buffer
  ∧ (∀ t' d, (t', d) ∈ distribute_target_data_buffers_ is_vp_local t recv_buffer
       ↔ t' = t ∧ d ∈ recv_buffer ∧ td_is_empty d = false
         ∧ td_is_complete d = false ∧ is_vp_local (gid d) = true)
  ∧ (∀ t' d, td_is_empty d = true ∨ td_is_complete d = true
             ∨ is_vp_local (gid d) = false →
       (t', d) ∉ distribute_target_data_buffers_ is_vp_local t recv_buffer).
Proof.
  assert (distribute_target_data_buffers_ is_vp_local t recv_buffer
          = (λ d, (t, d)) <$> filter (forwarded is_vp_local) recv_buffer)
    as Heq.
  { induction recv_buffer as [|d rest IH]; [done|].
    simpl. rewrite filter_cons, IH.
    destruct (decide (forwarded is_vp_local d)) as [(He & Hc & Hl)|Hn].
    - by rewrite He, Hc, Hl.
    - unfold forwarded in Hn.
      destruct (td_is_empty d), (td_is_complete d), (is_vp_local (gid d));
        simpl; try done.
      exfalso. by apply Hn. }
  assert (∀ t' d,
    (t', d) ∈ distribute_target_data_buffers_ is_vp_local t recv_buffer
    ↔ t' = t ∧ d ∈ recv_buffer ∧ td_is_empty d = false
      ∧ td_is_complete d = false ∧ is_vp_local (gid d) = true) as Hiff.
  { intros t' d. rewrite Heq, list_elem_of_fmap. split.
    - intros (d' & Hpair & Hin). injection Hpair as -> ->.
      apply list_elem_of_filter in Hin as [(? & ? & ?) ?]. done.
    - intros (-> & Hin & He & Hc & Hl). exists d. split; [done|].
      apply list_elem_of_filter. done. }
  split; [done|]. split; [done|].
  intros t' d Hbad Hin. apply Hiff in Hin as (_ & _ & He & Hc & Hl).
  destruct Hbad as [Hb|[Hb|Hb]]; congruence.
Qed.

(** C6.  At the start of a slice ([from_step = 0]) [deliver_events_5g_]
    scans the whole receive buffer and forwards, in buffer order, exactly
    the records whose thread id equals [tid], each with the time stamp of
    the clock advanced by [lag + 1] steps (the lag of a forwarded record
    lies inside the slice); the returned flag tells that nothing was
    forwarded.  With [from_step > 0] no record is forwarded. *)
Theorem deliver_events_5g_forwards (k : Kernel) (t : Z)
    (recv : list SpikeData) :
  lags_in_slice k t recv →
  (get_from_step k = 0 →
     deliver_events_5g_ k t recv
     = Some (bool_decide (addressed_to t recv = []),
             call_of k t <$> addressed_to t recv))
  ∧ (get_from_step k > 0 → deliver_events_5g_ k t recv = Some (true, [])).
Proof.
  intros Hlag. split; intros Hf.
  - apply DeliveryFacts.deliver_slice_start; [lia|done].
  - by apply DeliveryFacts.deliver_mid_slice.
Qed.

Lemma deliver_events_5g_forwards_witness :
  (get_from_step (one_thread_kernel 0) = 0 →
     deliver_events_5g_ (one_thread_kernel 0) 0
       [spike 0 1; spike 3 0; spike 0 0]
     = Some (bool_decide
               (addressed_to 0 [spike 0 1; spike 3 0; spike 0 0] = []),
             call_of (one_thread_kernel 0) 0
               <$> addressed_to 0 [spike 0 1; spike 3 0; spike 0 0]))
  ∧ (get_from_step (one_thread_kernel 0) > 0 →
     deliver_events_5g_ (one_thread_kernel 0) 0
       [spike 0 1; spike 3 0; spike 0 0] = Some (true, [])).
Proof.
  apply (deliver_events_5g_forwards (one_thread_kernel 0) 0
           [spike 0 1; spike 3 0; spike 0 0]).
  intros d Hd Ht. simpl.
  apply elem_of_cons in Hd as [->|Hd]; [simpl; lia|].
  apply elem_of_cons in Hd as [->|Hd]; [simpl in Ht; lia|].
  apply elem_of_cons in Hd as [->|Hd]; [simpl; lia|].
  by apply not_elem_of_nil in Hd.
Defined.

(** The calls of the example: two records for thread 0, stamped 12 and 11. *)
Example deliver_events_5g_example :
  deliver_events_5g_ (one_thread_kernel 0) 0
    [spike 0 1; spike 3 0; spike 0 0]
  = Some (false, [mkSend 0 0 0 12; mkSend 0 0 0 11]).
Proof. reflexivity. Qed.

(** C10.  With [from_step > 0], for every thread and every receive buffer,
    [deliver_events_5g_] returns [true] without a call to the routing
    layer, so the delivery phase leaves [others_completed] and the calls as
    they were: the contribution of each thread is [true]. *)
Theorem deliver_mid_slice_is_silent (k : Kernel) (t : Z)
    (recv : list SpikeData) (others_completed : bool)
    (calls : list send_5g_call) :
  get_from_step k > 0 →
  deliver_events_5g_ k t recv = Some (true, [])
  ∧ deliver_threads k [t] recv (others_completed, calls)
    = Some (others_completed, calls)
  ∧ deliver_threads k (threads k) recv (true, calls) = Some (true, calls).
Proof.
  intros Hf. split; [|split].
  - by apply DeliveryFacts.deliver_mid_slice.
  - by apply DeliveryFacts.deliver_threads_mid_slice.
  - by apply DeliveryFacts.deliver_threads_mid_slice.
Qed.

Lemma deliver_mid_slice_is_silent_witness :
  deliver_events_5g_ (one_thread_kernel 1) 0 [spike 0 0] = Some (true, [])
  ∧ deliver_threads (one_thread_kernel 1) [0] [spike 0 0] (true, [])
    = Some (true, [])
  ∧ deliver_threads (one_thread_kernel 1) (threads (one_thread_kernel 1))
      [spike 0 0] (true, []) = Some (true, []).
Proof.
  apply (deliver_mid_slice_is_silent (one_thread_kernel 1) 0 [spike 0 0]
           true []).
  simpl. lia.
Defined.

(** C3, as stated, fails: in a round with [from_step = 1] the receive
    buffer holds a data record, which does not report "complete", and
    [others_completed] ends the round [true]. *)
Lemma others_completed_without_complete :
  deliver_threads (one_thread_kernel 1) (threads (one_thread_kernel 1))
    [spike 0 0] (true, []) = Some (true, [])
  ∧ ¬ (∀ d, d ∈ [spike 0 0] → is_complete d = true).
Proof.
  split; [reflexivity|].
  intros Hall. specialize (Hall (spike 0 0) ltac:(by left)).
  discriminate Hall.
Qed.

(** At the start of a slice the flag is no report of completeness either:
    a slot stamped "empty" names no thread of the team and leaves
    [others_completed] [true]. *)
Example others_completed_on_empty_slot :
  deliver_threads (one_thread_kernel 0) (threads (one_thread_kernel 0))
    [set_empty (spike 5 0)] (true, []) = Some (true, [])
  ∧ is_complete (set_empty (spike 5 0)) = false.
Proof. split; reflexivity. Qed.

(** C3, amended.  In every round the delivery phase is defined (the lags of
    the records addressed to the team lie inside the slice) and the shared
    flag [others_completed] ends the round [true] if and only if
    [from_step > 0] or no record of the whole receive buffer carries the
    thread id of a thread of the team, that is, no record was forwarded. *)
Theorem others_completed_iff_nothing_delivered (k : Kernel)
    (recv : list SpikeData) (calls : list send_5g_call) :
  (∀ t, t ∈ threads k → lags_in_slice k t recv) →
  ∃ others_completed calls',
    deliver_threads k (threads k) recv (true, calls)
    = Some (others_completed, calls')
    ∧ (others_completed = true
       ↔ get_from_step k > 0
         ∨ ∀ d, d ∈ recv → ¬ (0 ≤ tid d < get_num_threads k))
    ∧ (others_completed = true ↔ calls' = calls).
Proof.
  intros Hlag. destruct (decide (get_from_step k > 0)) as [Hf|Hf].
  - exists true, calls. split; [|split].
    + by apply DeliveryFacts.deliver_threads_mid_slice.
    + split; [by left|done].
    + done.
  - rewrite DeliveryFacts.deliver_threads_slice_start by (lia || done).
    eexists _, _. split; [done|]. simpl.
    assert (forallb (λ t, bool_decide (addressed_to t recv = [])) (threads k)
            = true
            ↔ ∀ d, d ∈ recv → ¬ (0 ≤ tid d < get_num_threads k)) as Hiff.
    { rewrite forallb_forall. split.
      - intros Hall d Hd Ht.
        assert (tid d ∈ threads k) as Hin by (apply elem_of_seqZ; lia).
        apply list_elem_of_In, Hall, bool_decide_eq_true in Hin.
        eapply DeliveryFacts.addressed_to_nil in Hin; [|done]. done.
      - intros Hnone t Ht. apply list_elem_of_In, elem_of_seqZ in Ht.
        apply bool_decide_eq_true, DeliveryFacts.addressed_to_nil.
        intros d Hd Heq. apply (Hnone d Hd). lia. }
    split.
    + rewrite Hiff. split; [by right|]. intros [?|?]; [lia|done].
    + split.
      * intros Hall. rewrite forallb_forall in Hall.
        replace (concat _) with (@nil send_5g_call);
          [by rewrite app_nil_r|].
        symmetry. apply concat_nil_Forall, Forall_fmap, Forall_forall.
        intros t Ht. simpl.
        apply list_elem_of_In, Hall, bool_decide_eq_true in Ht.
        by rewrite Ht.
      * intros Heq. apply (f_equal length) in Heq.
        rewrite length_app in Heq.
        assert (concat ((λ t, call_of k t <$> addressed_to t recv)
                          <$> threads k) = []) as Hnil
          by (apply length_zero_iff_nil; lia).
        apply forallb_forall. intros t Ht. apply bool_decide_eq_true.
        apply list_elem_of_In in Ht.
        pose proof (proj1 (concat_nil_Forall _) Hnil) as Hall.
        rewrite Forall_fmap, Forall_forall in Hall.
        specialize (Hall t Ht). simpl in Hall.
        by apply fmap_nil_inv in Hall.
Qed.

Lemma others_completed_iff_nothing_delivered_witness :
  ∃ others_completed calls',
    deliver_threads (one_thread_kernel 0) (threads (one_thread_kernel 0))
      [spike 0 1] (true, [])
    = Some (others_completed, calls')
    ∧ (others_completed = true
       ↔ get_from_step (one_thread_kernel 0) > 0
         ∨ ∀ d, d ∈ [spike 0 1] →
             ¬ (0 ≤ tid d < get_num_threads (one_thread_kernel 0)))
    ∧ (others_completed = true ↔ calls' = []).
Proof.
  apply (others_completed_iff_nothing_delivered (one_thread_kernel 0)
           [spike 0 1] []).
  intros t Ht d Hd Heq.
  apply elem_of_cons in Hd as [->|Hd]; [simpl; lia|].
  by apply not_elem_of_nil in Hd.
Defined.

(** ** The register modelled from the spec *)


Lemma next_in_range_in_range (rs re : Z) (l : list (Z * SpikeData)) (i p : nat)
    (x : Z * SpikeData) :
  next_in_range rs re l i = Some (p, x) → rs ≤ x.1 < re.
Proof.
  revert i. induction l as [|y l IH]; intros i; simpl; [done|].
  case_bool_decide as Hy.
  - intros [= <- <-]. done.
  - apply IH.
Qed.

Lemma cursor_pulls_in_range (t rs re : Z) :
  pulls_in_range (list cursor) t rs re.
Proof.
  intros reg rank d reg'. simpl.
  destruct (vec_at reg t) as [c|]; [|done].
  unfold cursor_next.
  destruct (next_in_range rs re (drop (pos c) (pending c)) (pos c))
    as [[p x]|] eqn:Hnext; [|done].
  intros [= -> _]. by apply next_in_range_in_range in Hnext.
Qed.

(** C9.  For every call of [collocate_spike_data_buffers_] in which the
    register hands out only records for ranks of [[rank_start, rank_end)]
    (the range [vp_manager] assigned to the thread, within the ranks of the
    run; the buffer size within [unsigned int]): no index leaves a vector,
    and every write to the send buffer goes to index [target_rank * m + off]
    with [off < m], inside the segment of the destination rank and inside
    the buffer.  Consequently the writes of two threads with disjoint rank
    ranges go to different indices. *)
Theorem collocate_writes_in_own_segment {R : Type} `{SpikeRegisterTable R}
    (k : Kernel) (t t' : Z) (fuel fuel' : nat) (send send' : list SpikeData)
    (reg reg' : R) :
  pulls_in_range R t (get_start_rank_per_thread k t)
    (get_end_rank_per_thread k t) →
  pulls_in_range R t' (get_start_rank_per_thread k t')
    (get_end_rank_per_thread k t') →
  rank_range_ok k t → rank_range_ok k t' →
  1 ≤ get_num_processes k ≤ LONG_MAX →
  0 ≤ get_num_assigned_ranks_per_thread k →
  Z.of_nat (length send) ≤ UINT_MAX → length send' = length send →
  get_end_rank_per_thread k t ≤ get_start_rank_per_thread k t'
  ∨ get_end_rank_per_thread k t' ≤ get_start_rank_per_thread k t →
  (collocate_spike_data_buffers_ fuel k t send reg []).1 ≠ Undefined
  ∧ Forall
      (write_in_own_segment
         (num_spike_data_per_rank (Z.of_nat (length send))
            (get_num_processes k))
         (Z.of_nat (length send))
         (get_start_rank_per_thread k t) (get_end_rank_per_thread k t))
      (writes_of (c_trace (collocate_spike_data_buffers_
                             fuel k t send reg []).2))
  ∧ ∀ w w',
      w ∈ writes_of (c_trace (collocate_spike_data_buffers_
                                fuel k t send reg []).2) →
      w' ∈ writes_of (c_trace (collocate_spike_data_buffers_
                                 fuel' k t' send' reg' []).2) →
      w.2 ≠ w'.2.
Proof.
  intros Hpull Hpull' Hrange Hrange' HP Hn Hsize Hlen Hdisj.
  set (m := num_spike_data_per_rank (Z.of_nat (length send))
              (get_num_processes k)).
  destruct (num_spike_data_per_rank_tiles (Z.of_nat (length send))
              (get_num_processes k)) as (Hm0 & Htile & _); [lia|done|].
  fold m in Hm0, Htile.
  destruct (collocate_spike_data_buffers_inv k t fuel send reg []
              Hpull Hrange HP Hn Hsize)
    as (Hdef & _ & _ & _ & evs & Htr & Hev).
  destruct (collocate_spike_data_buffers_inv k t' fuel' send' reg' []
              Hpull' Hrange' HP Hn ltac:(lia))
    as (_ & _ & _ & _ & evs' & Htr' & Hev').
  rewrite Hlen in Hev'. fold m in Hev, Hev'.
  simpl in Htr, Htr'. rewrite Htr, Htr'.
  assert (∀ w, in_segments m (get_start_rank_per_thread k t)
                 (get_end_rank_per_thread k t) w →
               0 ≤ get_start_rank_per_thread k t
               ∧ get_end_rank_per_thread k t ≤ get_num_processes k) as Hne.
  { intros w (Hr & _). destruct Hrange as (? & ? & _); [lia|done]. }
  split; [done|]. split.
  - eapply Forall_impl; [exact Hev|]. intros w Hw.
    destruct (Hne w Hw) as [Hrs Hre].
    destruct Hw as (Hr & off & Ho & Hidx).
    repeat split; eauto; nia.
  - intros w w' Hw Hw' Heq.
    rewrite Forall_forall in Hev, Hev'.
    destruct (Hev w Hw) as (Hr & off & Ho & Hidx).
    destruct (Hev' w' Hw') as (Hr' & off' & Ho' & Hidx').
    assert (w.1 ≠ w'.1) as Hneq by lia.
    rewrite Hidx, Hidx' in Heq. nia.
Qed.

Lemma collocate_writes_in_own_segment_witness :
  (collocate_spike_data_buffers_ 5 two_rank_kernel 0 four_slots
     two_thread_register []).1 ≠ Undefined
  ∧ Forall
      (write_in_own_segment
         (num_spike_data_per_rank (Z.of_nat (length four_slots))
            (get_num_processes two_rank_kernel))
         (Z.of_nat (length four_slots))
         (get_start_rank_per_thread two_rank_kernel 0)
         (get_end_rank_per_thread two_rank_kernel 0))
      (writes_of (c_trace (collocate_spike_data_buffers_
                             5 two_rank_kernel 0 four_slots
                             two_thread_register []).2))
  ∧ ∀ w w',
      w ∈ writes_of (c_trace (collocate_spike_data_buffers_
                                5 two_rank_kernel 0 four_slots
                                two_thread_register []).2) →
      w' ∈ writes_of (c_trace (collocate_spike_data_buffers_
                                 5 two_rank_kernel 1 four_slots
                                 two_thread_register []).2) →
      w.2 ≠ w'.2.
Proof.
  apply (collocate_writes_in_own_segment two_rank_kernel 0 1 5 5
           four_slots four_slots two_thread_register two_thread_register).
  - apply cursor_pulls_in_range.
  - apply cursor_pulls_in_range.
  - intros _. simpl. lia.
  - intros _. simpl. lia.
  - unfold LONG_MAX. simpl. lia.
  - simpl. lia.
  - unfold UINT_MAX. simpl. lia.
  - reflexivity.
  - left. simpl. lia.
Defined.

(** The writes of the two threads in the example: thread 0 fills slot 0 of
    the segment of rank 0, thread 1 fills the segment of rank 1 and returns
    with its third record still in the register. *)
Example collocate_two_threads_example :
  writes_of (c_trace (collocate_spike_data_buffers_ 5 two_rank_kernel 0
                        four_slots two_thread_register []).2) = [(0, 0)]
  ∧ writes_of (c_trace (collocate_spike_data_buffers_ 5 two_rank_kernel 1
                          four_slots two_thread_register []).2)
    = [(1, 2); (1, 3)]
  ∧ (collocate_spike_data_buffers_ 5 two_rank_kernel 1
       four_slots two_thread_register []).1 = Returned false.
Proof. repeat split; reflexivity. Qed.


(** ** Stamping of the send buffer *)

Lemma for_upto_stamp_prefix {A : Type} (f : A → A) (l : list A) (k : nat) :
  (k ≤ length l)%nat →
  for_upto k (λ i b, match b !! i with
                     | Some d => <[i := f d]> b | None => b end) l
  = (f <$> take k l) ++ drop k l.
Proof.
  unfold for_upto. induction k as [|k IH]; intros Hk.
  - by rewrite take_0, drop_0.
  - rewrite seq_S, foldl_app. simpl. rewrite IH by lia.
    destruct (lookup_lt_is_Some_2 l k ltac:(lia)) as [x Hx].
    assert (length (f <$> take k l) = k) as Hlen
      by (rewrite length_fmap, length_take; lia).
    rewrite lookup_app_r by lia. rewrite Hlen, Nat.sub_diag.
    rewrite lookup_drop, Nat.add_0_r, Hx.
    rewrite (take_S_r _ _ _ Hx), fmap_app, (drop_S _ _ _ Hx).
    replace k with (length (f <$> take k l) + 0)%nat at 1 by lia.
    rewrite insert_app_r. simpl. by rewrite <- app_assoc.
Qed.

Lemma prepare_spike_data_buffers_fmap (me_completed : bool)
    (send_buffer : list SpikeData) :
  prepare_spike_data_buffers_ me_completed send_buffer
  = (if me_completed then set_complete else set_empty) <$> send_buffer.
Proof.
  unfold prepare_spike_data_buffers_.
  destruct me_completed; simpl;
    rewrite for_upto_stamp_prefix by lia;
    by rewrite firstn_all, drop_all, app_nil_r.
Qed.

Lemma prepare_target_data_buffers_fmap (me_completed : bool)
    (send_buffer : list TargetData) :
  prepare_target_data_buffers_ me_completed send_buffer
  = (if me_completed then td_set_complete else td_set_empty) <$> send_buffer.
Proof.
  unfold prepare_target_data_buffers_.
  destruct me_completed; simpl;
    rewrite for_upto_stamp_prefix by lia;
    by rewrite firstn_all, drop_all, app_nil_r.
Qed.

(** The send buffer at the barrier before the collocation of a round of
    [gather_spike_data]: every slot is stamped "complete", whatever the
    register holds, because [me_completed] was set to [true] just before
    the call of [prepare_spike_data_buffers_]. *)
Lemma round_start_stamps_complete {R : Type} `{SpikeRegisterTable R}
    (k : Kernel) (st : rank_state R) :
  (round_start k st).1.2 = set_complete <$> send_buffer_spike_data_ st
  ∧ ∀ d, d ∈ (round_start k st).1.2 → is_complete d = true.
Proof.
  unfold round_start. simpl. rewrite prepare_spike_data_buffers_fmap.
  split; [done|]. intros d Hd.
  apply list_elem_of_fmap in Hd as (d' & -> & _). done.
Qed.

(** C4, on the code.  In the first round of [gather_spike_data] on a rank
    whose register holds a pending record (the next pull after the restore
    yields it, so the local source is not exhausted), every slot of the
    send buffer is stamped "complete" before the collocation, and none is
    stamped "empty". *)
Theorem spike_round_stamps_complete_while_pending :
  (get_next_spike_data 0 0 1
     (round_start (one_thread_kernel 0) pending_rank_state).2).1
  = Some (0, spike 0 1)
  ∧ (round_start (one_thread_kernel 0) pending_rank_state).1.2
    = [set_complete (spike (-1) 0); set_complete (spike (-1) 0);
       set_complete (spike (-1) 0); set_complete (spike (-1) 0)]
  ∧ Forall (λ d, is_complete d = true ∧ is_empty d = false)
      (round_start (one_thread_kernel 0) pending_rank_state).1.2.
Proof.
  split; [reflexivity|]. split; [reflexivity|].
  repeat constructor.
Qed.

(** The sibling path: [gather_target_data] starts with [me_completed =
    false] and hands the flag of the previous round to
    [prepare_target_data_buffers_], which then stamps "empty". *)
Example target_round_stamps_empty_while_pending (buffer : list TargetData) :
  prepare_target_data_buffers_ false buffer = td_set_empty <$> buffer
  ∧ prepare_target_data_buffers_ true buffer = td_set_complete <$> buffer.
Proof. split; apply prepare_target_data_buffers_fmap. Qed.

(** A call of [gather_spike_data] at the start of a slice on the single
    rank of [one_thread_kernel], whose register holds one pending record
    with lag 1: the call returns after two rounds and has delivered the
    record once, with the time stamp of the clock advanced by
    [lag + 1 = 2] steps. *)
Example spike_delivered_at_slice_start :
  (gather_spike_data 4 4 (one_thread_kernel 0) (alltoall_single 4)
     pending_rank_state).1 = Returned 2%nat
  ∧ routed (gather_spike_data 4 4 (one_thread_kernel 0) (alltoall_single 4)
              pending_rank_state).2 = [mkSend 0 0 0 12].
Proof. split; reflexivity. Qed.

(** ** The calls of a team *)

Section exchange_facts.
Context {A : Type}.



End exchange_facts.

Section team_facts.
Variable k : Kernel.







End team_facts.

(** * Further properties of the code *)

(** ** The modulus tables *)

Lemma nbuff_is_ceiling (min_delay max_delay : Z) :
  1 ≤ min_delay → 1 ≤ max_delay →
  (Moduli.nbuff min_delay max_delay - 1) * min_delay < min_delay + max_delay
  ∧ min_delay + max_delay ≤ Moduli.nbuff min_delay max_delay * min_delay.
Proof.
  intros Hmin Hmax. unfold Moduli.nbuff.
  rewrite Z.quot_div_nonneg by lia.
  pose proof (Z.div_mod (min_delay + max_delay + min_delay - 1) min_delay
                ltac:(lia)) as Hdm.
  pose proof (Z.mod_pos_bound (min_delay + max_delay + min_delay - 1)
                min_delay ltac:(lia)) as Hmod.
  nia.
Qed.

(** X1.  [init_moduli] on positive delays (non-negative clock, within
    [long]) succeeds from any earlier tables; both tables get the length of
    the window, every entry of [moduli_] is a slot of a ring buffer of
    [min_delay + max_delay] slots and every entry of [slice_moduli_] is one
    of the [nbuff] bins, where [nbuff] is the least number of slices of
    [min_delay] steps that cover the window. *)
Theorem init_moduli_in_range (min_delay max_delay steps : Z)
    (st : Moduli.tables) :
  1 ≤ min_delay → 1 ≤ max_delay → 0 ≤ steps →
  steps + (min_delay + max_delay) ≤ LONG_MAX →
  ∃ st',
    Moduli.init_moduli min_delay max_delay steps st = Some st'
    ∧ Z.of_nat (length (Moduli.moduli_ st')) = min_delay + max_delay
    ∧ Z.of_nat (length (Moduli.slice_moduli_ st')) = min_delay + max_delay
    ∧ Forall (λ x, 0 ≤ x < min_delay + max_delay) (Moduli.moduli_ st')
    ∧ Forall (λ x, 0 ≤ x < Moduli.nbuff min_delay max_delay)
        (Moduli.slice_moduli_ st')
    ∧ (Moduli.nbuff min_delay max_delay - 1) * min_delay
      < min_delay + max_delay
      ≤ Moduli.nbuff min_delay max_delay * min_delay.
Proof.
  intros Hmin Hmax Hs Hb. eexists. split.
  { by apply ModuliFacts.init_moduli_spec. }
  simpl. rewrite ModuliFacts.length_moduli_at,
    ModuliFacts.length_slice_moduli_at.
  split; [lia|]. split; [lia|]. split; [|split].
  - unfold Moduli.moduli_at. apply Forall_fmap, Forall_forall.
    intros d _. simpl. apply Z.mod_pos_bound. lia.
  - unfold Moduli.slice_moduli_at. apply Forall_fmap, Forall_forall.
    intros d _. simpl. apply Z.mod_pos_bound.
    by apply ModuliFacts.nbuff_pos.
  - by apply nbuff_is_ceiling.
Qed.

Lemma init_moduli_in_range_witness :
  ∃ st',
    Moduli.init_moduli 3 5 4 (Moduli.Tables [9] []) = Some st'
    ∧ Z.of_nat (length (Moduli.moduli_ st')) = 3 + 5
    ∧ Z.of_nat (length (Moduli.slice_moduli_ st')) = 3 + 5
    ∧ Forall (λ x, 0 ≤ x < 3 + 5) (Moduli.moduli_ st')
    ∧ Forall (λ x, 0 ≤ x < Moduli.nbuff 3 5) (Moduli.slice_moduli_ st')
    ∧ (Moduli.nbuff 3 5 - 1) * 3 < 3 + 5 ≤ Moduli.nbuff 3 5 * 3.
Proof.
  apply (init_moduli_in_range 3 5 4 (Moduli.Tables [9] []));
    unfold LONG_MAX; lia.
Defined.

Lemma moduli_at_permutation (min_delay max_delay steps : Z) :
  1 ≤ min_delay → 1 ≤ max_delay →
  Moduli.moduli_at min_delay max_delay steps
  ≡ₚ seqZ 0 (min_delay + max_delay).
Proof.
  intros Hmin Hmax. set (W := min_delay + max_delay).
  assert (0 < W) as HW by (unfold W; lia).
  apply NoDup_Permutation.
  - unfold Moduli.moduli_at. fold W.
    apply NoDup_fmap_2_strong; [|apply NoDup_seqZ].
    intros x y Hx%elem_of_seqZ Hy%elem_of_seqZ Heq.
    pose proof (Z.div_mod (steps + x) W ltac:(lia)) as Hdx.
    pose proof (Z.div_mod (steps + y) W ltac:(lia)) as Hdy.
    rewrite Heq in Hdx.
    generalize dependent ((steps + x) `div` W).
    generalize dependent ((steps + y) `div` W).
    generalize dependent ((steps + y) `mod` W).
    intros r _ q2 Hq2 q1 Hq1.
    assert (q1 = q2) by nia. lia.
  - apply NoDup_seqZ.
  - intros z. rewrite elem_of_seqZ. unfold Moduli.moduli_at. fold W.
    rewrite list_elem_of_fmap. split.
    + intros (d & -> & _). pose proof (Z.mod_pos_bound (steps + d) W HW). lia.
    + intros Hz. exists ((z - steps) `mod` W). split.
      * rewrite Zplus_mod_idemp_r.
        replace (steps + (z - steps)) with z by lia.
        symmetry. apply Z.mod_small. lia.
      * apply elem_of_seqZ.
        pose proof (Z.mod_pos_bound (z - steps) W HW). lia.
Qed.

(** X2.  The table [moduli_] that [init_moduli] computes is a permutation
    of the slots [0 .. min_delay + max_delay - 1]: different delay offsets
    of the window address different slots of a ring buffer, and every slot
    is addressed. *)
Theorem init_moduli_is_permutation (min_delay max_delay steps : Z)
    (st : Moduli.tables) :
  1 ≤ min_delay → 1 ≤ max_delay → 0 ≤ steps →
  steps + (min_delay + max_delay) ≤ LONG_MAX →
  ∃ st',
    Moduli.init_moduli min_delay max_delay steps st = Some st'
    ∧ Moduli.moduli_ st' ≡ₚ seqZ 0 (min_delay + max_delay)
    ∧ NoDup (Moduli.moduli_ st').
Proof.
  intros Hmin Hmax Hs Hb. eexists. split.
  { by apply ModuliFacts.init_moduli_spec. }
  simpl. pose proof (moduli_at_permutation min_delay max_delay steps
                       Hmin Hmax) as Hperm.
  split; [done|]. rewrite Hperm. apply NoDup_seqZ.
Qed.

Lemma init_moduli_is_permutation_witness :
  ∃ st',
    Moduli.init_moduli 3 5 4 (Moduli.Tables [] []) = Some st'
    ∧ Moduli.moduli_ st' ≡ₚ seqZ 0 (3 + 5)
    ∧ NoDup (Moduli.moduli_ st').
Proof.
  apply (init_moduli_is_permutation 3 5 4 (Moduli.Tables [] []));
    unfold LONG_MAX; lia.
Defined.

Lemma lookup_std_rotate {A : Type} (l : list A) (a i : Z) :
  0 ≤ a ≤ Z.of_nat (length l) → 0 ≤ i < Z.of_nat (length l) →
  Moduli.std_rotate (Z.to_nat a) l !! Z.to_nat i
  = l !! Z.to_nat ((i + a) `mod` Z.of_nat (length l)).
Proof.
  intros Ha Hi. unfold Moduli.std_rotate.
  destruct (decide (i + a < Z.of_nat (length l))) as [Hlt|Hge].
  - rewrite lookup_app_l by (rewrite length_drop; lia).
    rewrite lookup_drop, Z.mod_small by lia. f_equal. lia.
  - rewrite lookup_app_r by (rewrite length_drop; lia).
    rewrite length_drop, lookup_take_lt by lia.
    replace (i + a) with (i + a - Z.of_nat (length l)
                          + 1 * Z.of_nat (length l)) by lia.
    rewrite Z.mod_add, Z.mod_small by lia. f_equal. lia.
Qed.

Lemma length_fill_slice_moduli (min_delay max_delay steps : Z)
    (tbl : list Z) :
  Z.of_nat (length tbl) = min_delay + max_delay →
  length (Moduli.fill_slice_moduli min_delay max_delay steps tbl)
  = length tbl.
Proof.
  intros Hlen. unfold Moduli.fill_slice_moduli.
  replace (Z.to_nat (min_delay + max_delay)) with (length tbl) by lia.
  by rewrite for_upto_insert_all, length_fmap, length_seq.
Qed.

(** X3.  [update_moduli] does not read the clock for [moduli_]: on any
    table of the length of the window, [n] slice advances leave at offset
    [i] the entry that stood at offset [(i + n * min_delay) mod (min_delay
    + max_delay)], whatever the step counts.  The table stays a permutation
    of what it was, and it is back in its first arrangement whenever
    [n * min_delay] is a multiple of the window, for instance after as many
    slices as the window has steps. *)
Theorem update_moduli_rotates (min_delay max_delay T : Z) (n : nat)
    (st : Moduli.tables) :
  1 ≤ min_delay → 1 ≤ max_delay →
  Z.of_nat (length (Moduli.moduli_ st)) = min_delay + max_delay →
  Z.of_nat (length (Moduli.slice_moduli_ st)) = min_delay + max_delay →
  ∃ st',
    Moduli.advance_slices n min_delay max_delay (T, st)
    = Some (T + Z.of_nat n * min_delay, st')
    ∧ (∀ i, 0 ≤ i < min_delay + max_delay →
         Moduli.moduli_ st' !! Z.to_nat i
         = Moduli.moduli_ st
             !! Z.to_nat ((i + Z.of_nat n * min_delay)
                            `mod` (min_delay + max_delay)))
    ∧ Moduli.moduli_ st' ≡ₚ Moduli.moduli_ st
    ∧ ((Z.of_nat n * min_delay) `mod` (min_delay + max_delay) = 0 →
       Moduli.moduli_ st' = Moduli.moduli_ st).
Proof.
  intros Hmin Hmax.
  assert (∀ (n : nat) T st,
    Z.of_nat (length (Moduli.moduli_ st)) = min_delay + max_delay →
    Z.of_nat (length (Moduli.slice_moduli_ st)) = min_delay + max_delay →
    ∃ st',
      Moduli.advance_slices n min_delay max_delay (T, st)
      = Some (T + Z.of_nat n * min_delay, st')
      ∧ Z.of_nat (length (Moduli.moduli_ st')) = min_delay + max_delay
      ∧ (∀ i, 0 ≤ i < min_delay + max_delay →
           Moduli.moduli_ st' !! Z.to_nat i
           = Moduli.moduli_ st
               !! Z.to_nat ((i + Z.of_nat n * min_delay) `mod` (min_delay + max_delay)))
      ∧ Moduli.moduli_ st' ≡ₚ Moduli.moduli_ st) as Hgen.
  { clear n T st. intros n. induction n as [|n IH]; intros T st Hlm Hls.
    - exists st. simpl. split; [do 2 f_equal; lia|]. split; [done|].
      split; [|done]. intros i Hi.
      rewrite Z.add_0_r, Z.mod_small by lia. done.
    - simpl. unfold Moduli.advance_slice, Moduli.update_moduli. simpl.
      rewrite !bool_decide_eq_false_2 by lia.
      rewrite bool_decide_eq_true_2 by lia. simpl.
      edestruct (IH (T + min_delay)) as (st' & Hrun & Hlen & Hlook & Hperm);
        [| |rewrite Hrun].
      + simpl. unfold Moduli.std_rotate.
        rewrite length_app, length_drop, length_take. lia.
      + simpl. rewrite length_fill_slice_moduli by done. done.
      + exists st'. split; [do 2 f_equal; lia|]. split; [done|]. split.
        * intros i Hi. rewrite Hlook by done. simpl.
          pose proof (Z.mod_pos_bound (i + Z.of_nat n * min_delay)
                        (min_delay + max_delay) ltac:(lia)) as Hb.
          rewrite lookup_std_rotate by lia. rewrite Hlm.
          rewrite Zplus_mod_idemp_l.
          replace (i + Z.of_nat (S n) * min_delay)
            with (i + Z.of_nat n * min_delay + min_delay) by lia.
          done.
        * rewrite Hperm. simpl. unfold Moduli.std_rotate.
          rewrite app_Permutation_comm. by rewrite take_drop. }
  intros Hlm Hls.
  destruct (Hgen n T st Hlm Hls) as (st' & Hrun & Hlen & Hlook & Hperm).
  exists st'. split; [done|]. split; [done|]. split; [done|].
  intros Hmod. apply list_eq. intros j.
  destruct (decide (j < length (Moduli.moduli_ st))%nat) as [Hj|Hj].
  - specialize (Hlook (Z.of_nat j) ltac:(lia)).
    rewrite Nat2Z.id in Hlook. rewrite Hlook.
    rewrite <- Zplus_mod_idemp_r, Hmod, Z.add_0_r, Z.mod_small by lia.
    by rewrite Nat2Z.id.
  - rewrite !lookup_ge_None_2 by lia. done.
Qed.

Lemma update_moduli_rotates_witness :
  ∃ st',
    Moduli.advance_slices 8 3 5 (-7, Moduli.Tables [10; 11; 12; 13; 14; 15; 16; 17] [0; 0; 0; 0; 0; 0; 0; 0])
    = Some (-7 + Z.of_nat 8 * 3, st')
    ∧ (∀ i, 0 ≤ i < 3 + 5 →
         Moduli.moduli_ st' !! Z.to_nat i
         = Moduli.moduli_
             (Moduli.Tables [10; 11; 12; 13; 14; 15; 16; 17]
                            [0; 0; 0; 0; 0; 0; 0; 0])
             !! Z.to_nat ((i + Z.of_nat 8 * 3) `mod` (3 + 5)))
    ∧ Moduli.moduli_ st'
      ≡ₚ Moduli.moduli_
           (Moduli.Tables [10; 11; 12; 13; 14; 15; 16; 17]
                          [0; 0; 0; 0; 0; 0; 0; 0])
    ∧ ((Z.of_nat 8 * 3) `mod` (3 + 5) = 0 →
       Moduli.moduli_ st'
       = Moduli.moduli_
           (Moduli.Tables [10; 11; 12; 13; 14; 15; 16; 17]
                          [0; 0; 0; 0; 0; 0; 0; 0])).
Proof.
  apply (update_moduli_rotates 3 5 (-7) 8
           (Moduli.Tables [10; 11; 12; 13; 14; 15; 16; 17]
                          [0; 0; 0; 0; 0; 0; 0; 0]));
    simpl; lia.
Defined.

(** ** Delivery: when the time stamp table is indexed out of range *)

Lemma length_prepared_timestamps (k : Kernel) :
  length (prepared_timestamps k) = Z.to_nat (get_min_delay k).
Proof.
  unfold prepared_timestamps.
  set (n := Z.to_nat (get_min_delay k)).
  replace n with (length (replicate n 0)) at 1 by apply length_replicate.
  by rewrite for_upto_insert_all, length_fmap, length_seq, length_replicate.
Qed.

Lemma prepared_timestamps_out_of_range (k : Kernel) (l : Z) :
  ¬ (0 ≤ l < get_min_delay k) → vec_at (prepared_timestamps k) l = None.
Proof.
  intros Hl. unfold vec_at. case_bool_decide; [|done].
  apply lookup_ge_None_2. rewrite length_prepared_timestamps. lia.
Qed.

Lemma deliver_scan_undefined_iff (k : Kernel) (t : Z) (it : list SpikeData)
    (acc : bool * list send_5g_call) :
  deliver_scan (prepared_timestamps k) t it acc = None
  ↔ ∃ d, d ∈ it ∧ tid d = t ∧ ¬ (0 ≤ lag d < get_min_delay k).
Proof.
  revert acc. induction it as [|d rest IH]; intros acc; simpl.
  - split; [done|]. intros (d & Hd & _). by apply not_elem_of_nil in Hd.
  - case_bool_decide as Ht.
    + destruct (decide (0 ≤ lag d < get_min_delay k)) as [Hl|Hl].
      * rewrite DeliveryFacts.prepared_timestamps_at by done. simpl.
        rewrite IH. split.
        -- intros (d' & Hd' & Hrest). exists d'. split; [by right|done].
        -- intros (d' & [->|Hd']%elem_of_cons & Ht' & Hl'); [done|].
           by exists d'.
      * rewrite prepared_timestamps_out_of_range by done. simpl.
        split; [|done]. intros _. exists d. split; [by left|done].
    + rewrite IH. split.
      * intros (d' & Hd' & Hrest). exists d'. split; [by right|done].
      * intros (d' & [->|Hd']%elem_of_cons & Ht' & Hl'); [done|].
        by exists d'.
Qed.

(** X4.  [deliver_events_5g_] indexes [prepared_timestamps], a vector of
    [min_delay] entries, with the lag of every record it forwards and does
    not check the lag: it leaves the vector exactly when the delivery takes
    place ([from_step <= 0]) and the receive buffer holds a record for the
    thread whose lag is not below [min_delay].  Records for other threads
    and rounds with [from_step > 0] never do. *)
Theorem deliver_events_5g_out_of_range_iff (k : Kernel) (t : Z)
    (recv : list SpikeData) :
  deliver_events_5g_ k t recv = None
  ↔ get_from_step k ≤ 0
    ∧ ∃ d, d ∈ recv ∧ tid d = t ∧ ¬ (0 ≤ lag d < get_min_delay k).
Proof.
  unfold deliver_events_5g_. case_bool_decide as Hf.
  - split; [done|]. intros [? _]. lia.
  - rewrite deliver_scan_undefined_iff. split.
    + intros Hex. split; [lia|done].
    + by intros [_ Hex].
Qed.

(** ** Collocation: what a run leaves in the send buffer *)

Lemma written_of_app (e1 e2 : list colloc_event) :
  written_of (e1 ++ e2) = written_of e1 ++ written_of e2.
Proof. unfold written_of. apply omap_app. Qed.

Lemma written_indices_app (e1 e2 : list colloc_event) :
  written_indices (e1 ++ e2) = written_indices e1 ++ written_indices e2.
Proof. unfold written_indices. by rewrite written_of_app, fmap_app. Qed.

Lemma NoDup_in_range_length (l : list Z) (size : Z) :
  0 ≤ size → NoDup l → (∀ x, x ∈ l → 0 ≤ x < size) →
  Z.of_nat (length l) ≤ size.
Proof.
  intros Hsize Hnd Hin.
  assert (l ⊆+ seqZ 0 size) as Hsub.
  { apply NoDup_submseteq; [done|]. intros x Hx. apply elem_of_seqZ.
    specialize (Hin x Hx). lia. }
  apply submseteq_length in Hsub. rewrite length_seqZ in Hsub. lia.
Qed.

Section fill_facts.
Context {R : Type} `{SpikeRegisterTable R}.
Variables (t rs re n m P : Z) (send0 : list SpikeData)
  (tr0 : list colloc_event).
Hypothesis Hpull : pulls_in_range R t rs re.
Hypothesis Hrs : 0 ≤ rs.
Hypothesis Hre : re ≤ P.
Hypothesis Hn : re - rs ≤ n.
Hypothesis Hm : 0 ≤ m.
Hypothesis Htile : m * P ≤ Z.of_nat (length send0).
Hypothesis Hsize : Z.of_nat (length send0) ≤ UINT_MAX.

Lemma close_iteration_fill_inv (st : colloc R) :
  colloc_fill_inv send0 n m rs re tr0 st →
  match close_iteration n m st with
  | Continue st' => colloc_fill_inv send0 n m rs re tr0 st'
  | Return b st' => colloc_fill_inv send0 n m rs re tr0 st'
                    ∧ b = c_untouched st'
  | Fault => False
  end.
Proof. intros Hinv. unfold close_iteration. by case_bool_decide. Qed.

Lemma collocate_step_fill_inv (st : colloc R) :
  colloc_fill_inv send0 n m rs re tr0 st →
  match collocate_step t rs re n m st with
  | Continue st' => colloc_fill_inv send0 n m rs re tr0 st'
  | Return b st' => colloc_fill_inv send0 n m rs re tr0 st'
                    ∧ b = c_untouched st'
  | Fault => False
  end.
Proof.
  intros (evs & Htr & Hlen & Hoff & Hbound & Hbelow & Hnd & Hkept & Hframe
          & Hsum & Hunt).
  unfold collocate_step.
  destruct (get_next_spike_data t rs re (c_reg st)) as [[[rank d]|] reg']
    eqn:Hnext.
  - pose proof (Hpull _ _ _ _ Hnext) as Hrank.
    destruct (vec_at_lookup (c_offset st) (rank - rs) ltac:(lia))
      as [off Hlook].
    rewrite Hlook. apply vec_at_Some in Hlook as [Hidx Hlook].
    pose proof (Forall_lookup_1 _ _ _ _ Hbound Hlook) as Hoffb.
    simpl in Hoffb. destruct (decide (off < m)) as [Hfull|Hfull].
    + rewrite (bool_decide_eq_true_2 (off < m)) by done.
      assert ((rank + 1) * m ≤ P * m) as Hseg
        by (apply Z.mul_le_mono_nonneg_r; lia).
      assert (0 ≤ rank * m) as Hseg0 by (apply Z.mul_nonneg_nonneg; lia).
      assert (0 ≤ rank * m + off < Z.of_nat (length send0)) as Hin by lia.
      assert (∀ w, w ∈ written_of evs →
                0 ≤ w.1.2 < Z.of_nat (length send0)
                ∧ w.1.2 ≠ rank * m + off) as Hold.
      { intros w Hw. rewrite Forall_forall in Hbelow.
        destruct (Hbelow w Hw) as (Hr & j & offw & Hlw & Hj & Hwi).
        pose proof (Forall_lookup_1 _ _ _ _ Hbound Hlw) as Hoffw.
        simpl in Hoffw.
        assert ((w.1.1 + 1) * m ≤ P * m)
          by (apply Z.mul_le_mono_nonneg_r; lia).
        assert (0 ≤ w.1.1 * m) by (apply Z.mul_nonneg_nonneg; lia).
        split; [lia|]. rewrite Hwi.
        destruct (decide (w.1.1 = rank)) as [Heq|Hne].
        - rewrite Heq in Hlw. rewrite Hlook in Hlw. injection Hlw as <-.
          rewrite Heq. lia.
        - nia. }
      assert (rank * m + off ∉ written_indices evs) as Hfresh.
      { unfold written_indices. intros Hx.
        apply list_elem_of_fmap in Hx as (w & Heq & Hw).
        destruct (Hold w Hw) as [_ Hne]. congruence. }
      assert (Z.of_nat (length (written_of evs)) + 1
              ≤ Z.of_nat (length send0)) as Hcount.
      { assert (NoDup (written_indices evs ++ [rank * m + off])) as Hnd'.
        { apply NoDup_app. split; [done|]. split.
          - intros x Hx [->|Hnil%not_elem_of_nil]%elem_of_cons; done.
          - apply NoDup_singleton. }
        apply (NoDup_in_range_length _ (Z.of_nat (length send0))) in Hnd';
          [|lia|].
        - unfold written_indices in Hnd'.
          rewrite length_app, length_fmap in Hnd'. simpl in Hnd'. lia.
        - unfold written_indices.
          intros x [Hx|Hx]%elem_of_app.
          + apply list_elem_of_fmap in Hx as (w & -> & Hw).
            by apply Hold.
          + apply list_elem_of_singleton in Hx as ->. done. }
      rewrite (to_uint_small (rank * m + off)) by lia.
      rewrite (to_uint_small (off + 1)) by nia.
      unfold vec_set. rewrite !bool_decide_eq_true_2 by lia.
      apply close_iteration_fill_inv.
      exists (evs ++ [EvGetNext t (Some (rank, d));
                      EvWrite rank (rank * m + off) d]).
      simpl. rewrite written_of_app, written_indices_app. simpl.
      split; [rewrite Htr, <- !app_assoc; done|].
      split; [by rewrite length_insert|].
      split; [by rewrite length_insert|].
      split; [apply Forall_insert; [done|lia]|].
      split.
      { apply Forall_app. split.
        - eapply Forall_impl; [exact Hbelow|].
          intros w (Hr & j & offw & Hlw & Hj & Hwi). split; [done|].
          destruct (decide (w.1.1 = rank)) as [Heq|Hne].
          + exists j, (off + 1). rewrite Heq.
            rewrite list_lookup_insert_eq by lia.
            rewrite Heq, Hlook in Hlw. injection Hlw as <-.
            split; [done|]. split; [lia|]. by rewrite <- Heq.
          + exists j, offw.
            rewrite list_lookup_insert_ne by lia. done.
        - apply Forall_singleton. simpl. split; [done|].
          exists off, (off + 1).
          rewrite list_lookup_insert_eq by lia. split; [done|]. lia. }
      split.
      { apply NoDup_app. split; [done|]. split.
        - intros x Hx [->|Hnil%not_elem_of_nil]%elem_of_cons; done.
        - apply NoDup_singleton. }
      split.
      { apply Forall_app. split.
        - rewrite Forall_forall. intros w Hw.
          rewrite Forall_forall in Hkept.
          destruct (Hold w Hw) as [Hb Hne].
          rewrite list_lookup_insert_ne by lia. by apply Hkept.
        - apply Forall_singleton. simpl.
          apply list_lookup_insert_eq. lia. }
      split.
      { intros i Hi.
        assert (Z.of_nat i ∉ written_indices evs) as Hi1
          by (intros Hx; apply Hi, elem_of_app; by left).
        assert (Z.of_nat i ≠ rank * m + off) as Hi2
          by (intros Heq; apply Hi, elem_of_app; right; rewrite Heq;
              by left).
        rewrite list_lookup_insert_ne by lia. by apply Hframe. }
      split.
      { rewrite Hsum, length_app. simpl.
        rewrite to_uint_small by lia. lia. }
      symmetry. apply bool_decide_eq_false_2.
      intros Hnil%app_eq_nil. destruct Hnil as [_ Hnil]. done.
    + rewrite (bool_decide_eq_false_2 (off < m)) by done.
      apply close_iteration_fill_inv.
      exists (evs ++ [EvGetNext t (Some (rank, d)); EvReject t; EvSave t]).
      simpl. rewrite written_of_app, written_indices_app. simpl.
      rewrite !app_nil_r.
      split; [rewrite Htr, <- !app_assoc; done|]. done.
  - split; [|done].
    exists (evs ++ [EvGetNext t None]).
    simpl. rewrite written_of_app, written_indices_app. simpl.
    rewrite !app_nil_r.
    split; [rewrite Htr, <- !app_assoc; done|]. done.
Qed.

Lemma collocate_loop_fill_inv (fuel : nat) (st : colloc R) :
  colloc_fill_inv send0 n m rs re tr0 st →
  colloc_fill_inv send0 n m rs re tr0
    (collocate_loop fuel t rs re n m st).2
  ∧ ∀ b, (collocate_loop fuel t rs re n m st).1 = Returned b →
         b = c_untouched (collocate_loop fuel t rs re n m st).2.
Proof.
  revert st. induction fuel as [|fuel IH]; intros st Hinv; simpl.
  - done.
  - pose proof (collocate_step_fill_inv st Hinv) as Hstep.
    destruct (collocate_step t rs re n m st) as [st'|b st'|]; simpl.
    + by apply IH.
    + destruct Hstep as [Hinv' ->]. split; [done|]. by intros b' [= <-].
    + done.
Qed.
End fill_facts.

(** X5.  A call of [collocate_spike_data_buffers_] (register handing out
    ranks of the requested range, rank range of the thread within the ranks
    of the run, buffer size within [unsigned int]) never overwrites a record
    it wrote: for any number of iterations, the indices written are pairwise
    different, every record written is in its slot of the send buffer, every
    slot not written is as before the call, the buffer keeps its size and
    [sum_send_buffer_offset] counts the writes.  The flag it returns is
    [true] exactly when it wrote nothing, and then the send buffer is
    unchanged. *)
Theorem collocate_keeps_written_records {R : Type} `{SpikeRegisterTable R}
    (k : Kernel) (t : Z) (fuel : nat) (send : list SpikeData) (reg : R)
    (s : status bool) (st : colloc R) :
  pulls_in_range R t (get_start_rank_per_thread k t)
    (get_end_rank_per_thread k t) →
  rank_range_ok k t →
  1 ≤ get_num_processes k ≤ LONG_MAX →
  0 ≤ get_num_assigned_ranks_per_thread k →
  Z.of_nat (length send) ≤ UINT_MAX →
  collocate_spike_data_buffers_ fuel k t send reg [] = (s, st) →
  length (c_send st) = length send
  ∧ NoDup (written_indices (c_trace st))
  ∧ (∀ rank idx d, (rank, idx, d) ∈ written_of (c_trace st) →
       c_send st !! Z.to_nat idx = Some d)
  ∧ (∀ i, Z.of_nat i ∉ written_indices (c_trace st) →
       c_send st !! i = send !! i)
  ∧ c_sum st = Z.of_nat (length (written_of (c_trace st)))
  ∧ ∀ b, s = Returned b →
      (b = true ↔ written_of (c_trace st) = [])
      ∧ (b = true → c_send st = send).
Proof.
  intros Hpull Hrange HP Hn Hsize Hrun.
  destruct (num_spike_data_per_rank_tiles (Z.of_nat (length send))
              (get_num_processes k)) as (Hm0 & Htile & _); [lia|done|].
  set (m := num_spike_data_per_rank (Z.of_nat (length send))
              (get_num_processes k)) in *.
  set (st0 := mkColloc send
                (replicate (Z.to_nat (get_num_assigned_ranks_per_thread k)) 0)
                0 true reg []).
  assert (colloc_fill_inv send (get_num_assigned_ranks_per_thread k) m
            (get_start_rank_per_thread k t) (get_end_rank_per_thread k t)
            [] st0) as Hinit.
  { exists []. simpl. split; [done|]. split; [done|].
    split; [rewrite length_replicate; lia|].
    split; [apply Forall_replicate; lia|].
    split; [apply Forall_nil_2|]. split; [apply NoDup_nil_2|].
    split; [apply Forall_nil_2|]. done. }
  assert (colloc_fill_inv send (get_num_assigned_ranks_per_thread k) m
            (get_start_rank_per_thread k t) (get_end_rank_per_thread k t)
            [] st
          ∧ ∀ b, s = Returned b → b = c_untouched st) as [Hinv Hflag].
  { unfold collocate_spike_data_buffers_ in Hrun. fold m st0 in Hrun.
    case_bool_decide as Hne.
    - destruct (Hrange Hne) as (Hrs & Hre & Hlen).
      pose proof (collocate_loop_fill_inv t _ _ _ m (get_num_processes k)
                    send [] Hpull Hrs Hre Hlen Hm0 Htile Hsize fuel st0
                    Hinit) as Hloop.
      rewrite Hrun in Hloop. done.
    - injection Hrun as <- <-. split; [done|]. by intros b [= <-]. }
  destruct Hinv as (evs & Htr & Hlen & _ & _ & _ & Hnd & Hkept & Hframe
                    & Hsum & Hunt).
  simpl in Htr. subst evs.
  split; [done|]. split; [done|]. split.
  { intros rank idx d Hw. rewrite Forall_forall in Hkept.
    apply (Hkept _ Hw). }
  split; [done|]. split; [done|].
  intros b Hb. apply Hflag in Hb. rewrite Hunt in Hb.
  assert (b = true ↔ written_of (c_trace st) = []) as Hiff.
  { rewrite Hb. apply bool_decide_eq_true. }
  split; [done|]. intros Htrue. apply Hiff in Htrue.
  apply list_eq. intros i. apply Hframe.
  unfold written_indices. rewrite Htrue. apply not_elem_of_nil.
Qed.

Lemma collocate_keeps_written_records_witness :
  length (c_send (collocate_spike_data_buffers_ 5 two_rank_kernel 1
                    four_slots two_thread_register []).2)
  = length four_slots
  ∧ NoDup (written_indices
             (c_trace (collocate_spike_data_buffers_ 5 two_rank_kernel 1
                         four_slots two_thread_register []).2))
  ∧ (∀ rank idx d,
       (rank, idx, d)
       ∈ written_of (c_trace (collocate_spike_data_buffers_ 5
                                two_rank_kernel 1 four_slots
                                two_thread_register []).2) →
       c_send (collocate_spike_data_buffers_ 5 two_rank_kernel 1
                 four_slots two_thread_register []).2 !! Z.to_nat idx
       = Some d)
  ∧ (∀ i, Z.of_nat i
          ∉ written_indices
              (c_trace (collocate_spike_data_buffers_ 5 two_rank_kernel 1
                          four_slots two_thread_register []).2) →
       c_send (collocate_spike_data_buffers_ 5 two_rank_kernel 1
                 four_slots two_thread_register []).2 !! i
       = four_slots !! i)
  ∧ c_sum (collocate_spike_data_buffers_ 5 two_rank_kernel 1
             four_slots two_thread_register []).2
    = Z.of_nat (length (written_of
                          (c_trace (collocate_spike_data_buffers_ 5
                                      two_rank_kernel 1 four_slots
                                      two_thread_register []).2)))
  ∧ ∀ b, (collocate_spike_data_buffers_ 5 two_rank_kernel 1
            four_slots two_thread_register []).1 = Returned b →
      (b = true
       ↔ written_of (c_trace (collocate_spike_data_buffers_ 5
                                two_rank_kernel 1 four_slots
                                two_thread_register []).2) = [])
      ∧ (b = true →
         c_send (collocate_spike_data_buffers_ 5 two_rank_kernel 1
                   four_slots two_thread_register []).2 = four_slots).
Proof.
  apply (collocate_keeps_written_records two_rank_kernel 1 5 four_slots
           two_thread_register).
  - apply cursor_pulls_in_range.
  - intros _. simpl. lia.
  - unfold LONG_MAX. simpl. lia.
  - simpl. lia.
  - unfold UINT_MAX. simpl. lia.
  - apply surjective_pairing.
Defined.

(** X6.  When the send buffer has fewer slots than the run has processes,
    the segment size is zero: a call of [collocate_spike_data_buffers_]
    writes nothing and returns [true] after at most one pull, whatever the
    register holds; a record it pulled is rejected and the entry point
    saved. *)
Theorem collocate_without_capacity {R : Type} `{SpikeRegisterTable R}
    (k : Kernel) (t : Z) (fuel : nat) (send : list SpikeData) (reg : R) :
  pulls_in_range R t (get_start_rank_per_thread k t)
    (get_end_rank_per_thread k t) →
  rank_range_ok k t →
  1 ≤ get_num_processes k ≤ LONG_MAX →
  0 ≤ get_num_assigned_ranks_per_thread k →
  Z.of_nat (length send) < get_num_processes k →
  num_spike_data_per_rank (Z.of_nat (length send)) (get_num_processes k) = 0
  ∧ ∃ st,
      collocate_spike_data_buffers_ (S fuel) k t send reg [] = (Returned true, st)
      ∧ c_send st = send
      ∧ (c_trace st = []
         ∨ c_trace st = [EvGetNext t None]
         ∨ ∃ rank d, c_trace st
                     = [EvGetNext t (Some (rank, d)); EvReject t; EvSave t]).
Proof.
  intros Hpull Hrange HP Hn Hsmall.
  assert (num_spike_data_per_rank (Z.of_nat (length send))
            (get_num_processes k) = 0) as Hm.
  { unfold num_spike_data_per_rank, to_size_t.
    rewrite (Z.mod_small (get_num_processes k))
      by (unfold LONG_MAX in HP; lia).
    rewrite Z.quot_small by lia. done. }
  split; [done|].
  unfold collocate_spike_data_buffers_. rewrite Hm.
  case_bool_decide as Hne.
  2: { eexists. split; [done|]. split; [done|]. by left. }
  destruct (Hrange Hne) as (Hrs & Hre & Hlen).
  simpl. unfold collocate_step. simpl.
  destruct (get_next_spike_data t (get_start_rank_per_thread k t)
              (get_end_rank_per_thread k t) reg) as [[[rank d]|] reg']
    eqn:Hnext.
  - pose proof (Hpull _ _ _ _ Hnext) as Hrank.
    destruct (vec_at_lookup
                (replicate (Z.to_nat (get_num_assigned_ranks_per_thread k)) 0)
                (rank - get_start_rank_per_thread k t)) as [off Hlook].
    { rewrite length_replicate. lia. }
    rewrite Hlook. apply vec_at_Some in Hlook as [_ Hlook].
    apply lookup_replicate in Hlook as [-> _].
    rewrite bool_decide_eq_false_2 by lia.
    unfold close_iteration. simpl.
    eexists. split; [done|]. split; [done|]. right. right. by exists rank, d.
  - eexists. split; [done|]. split; [done|]. right. by left.
Qed.

Lemma collocate_without_capacity_witness :
  num_spike_data_per_rank (Z.of_nat (length two_slots))
    (get_num_processes three_rank_kernel) = 0
  ∧ ∃ st,
      collocate_spike_data_buffers_ 1 three_rank_kernel 0 two_slots
        [mkCursor [(2, spike 0 0); (0, spike 0 1)] 0 0 0] []
      = (Returned true, st)
      ∧ c_send st = two_slots
      ∧ (c_trace st = []
         ∨ c_trace st = [EvGetNext 0 None]
         ∨ ∃ rank d, c_trace st
                     = [EvGetNext 0 (Some (rank, d)); EvReject 0; EvSave 0]).
Proof.
  apply (collocate_without_capacity three_rank_kernel 0 0 two_slots
           [mkCursor [(2, spike 0 0); (0, spike 0 1)] 0 0 0]).
  - apply cursor_pulls_in_range.
  - intros _. simpl. lia.
  - unfold LONG_MAX. simpl. lia.
  - simpl. lia.
  - simpl. lia.
Defined.

(** ** Collocation of target data *)

Lemma td_writes_of_app (e1 e2 : list td_event) :
  td_writes_of (e1 ++ e2) = td_writes_of e1 ++ td_writes_of e2.
Proof. unfold td_writes_of. apply omap_app. Qed.

Section target_collocation_facts.
Context {S : Type} `{SourceTable S}.
Variables (pid : Z → Z) (t rs re n m size P : Z) (tr0 : list td_event).
Hypothesis Hpull : td_pulls_in_range S pid t rs re.
Hypothesis Hrs : 0 ≤ rs.
Hypothesis Hre : re ≤ P.
Hypothesis Hn : re - rs ≤ n.
Hypothesis Hm : 0 ≤ m.
Hypothesis Htile : m * P ≤ size.
Hypothesis Hsize : size ≤ UINT_MAX.

Lemma td_close_iteration_inv (st : td_colloc S) :
  td_colloc_inv size n m rs re tr0 st →
  match td_close_iteration n m st with
  | TdContinue st' | TdBreak st' => td_colloc_inv size n m rs re tr0 st'
  | TdFault => False
  end.
Proof. intros Hinv. unfold td_close_iteration. by case_bool_decide. Qed.

Lemma collocate_target_step_inv (st : td_colloc S) :
  td_colloc_inv size n m rs re tr0 st →
  match collocate_target_step pid t rs re n m st with
  | TdContinue st' | TdBreak st' => td_colloc_inv size n m rs re tr0 st'
  | TdFault => False
  end.
Proof.
  intros (Hsend & Hoff & Hbound & evs & Htr & Hev).
  unfold collocate_target_step.
  destruct (get_next_target_data t rs re (t_src st)) as [d src'] eqn:Hnext.
  destruct (decide (gid d = invalid_index)) as [Hend|Hvalid].
  - rewrite bool_decide_eq_true_2 by done.
    repeat split; simpl; try done.
    exists (evs ++ [TdGetNext t d]).
    split; [rewrite Htr, <- !app_assoc; done|].
    rewrite td_writes_of_app. apply Forall_app. split; [done|].
    apply Forall_nil_2.
  - rewrite bool_decide_eq_false_2 by done.
    pose proof (Hpull _ _ _ Hnext Hvalid) as Hrank.
    destruct (vec_at_lookup (t_offset st) (pid (gid d) - rs) ltac:(lia))
      as [off Hlook].
    rewrite Hlook. apply vec_at_Some in Hlook as [Hidx Hlook].
    pose proof (Forall_lookup_1 _ _ _ _ Hbound Hlook) as Hoffb.
    simpl in Hoffb. destruct (decide (off < m)) as [Hfull|Hfull].
    + rewrite bool_decide_eq_true_2 by done.
      assert ((pid (gid d) + 1) * m ≤ P * m)
        by (apply Z.mul_le_mono_nonneg_r; lia).
      assert (0 ≤ pid (gid d) * m) by (apply Z.mul_nonneg_nonneg; lia).
      rewrite (to_uint_small (pid (gid d) * m + off)) by lia.
      rewrite (to_uint_small (off + 1)) by lia.
      unfold vec_set. rewrite !bool_decide_eq_true_2 by lia.
      apply td_close_iteration_inv. repeat split; simpl.
      * by rewrite length_insert.
      * by rewrite length_insert.
      * apply Forall_insert; [done|lia].
      * exists (evs ++ [TdGetNext t d;
                        TdWrite (pid (gid d)) (pid (gid d) * m + off) d]).
        split; [rewrite Htr, <- !app_assoc; done|].
        rewrite td_writes_of_app. apply Forall_app. split; [done|].
        simpl. apply Forall_singleton. split; [done|].
        exists off. simpl. lia.
    + rewrite bool_decide_eq_false_2 by done.
      apply td_close_iteration_inv. repeat split; simpl; try done.
      exists (evs ++ [TdGetNext t d; TdReject t; TdSave t]).
      split; [rewrite Htr, <- !app_assoc; done|].
      rewrite td_writes_of_app. apply Forall_app. split; [done|].
      apply Forall_nil_2.
Qed.

Lemma collocate_target_loop_inv (fuel : nat) (st : td_colloc S) :
  td_colloc_inv size n m rs re tr0 st →
  (collocate_target_loop pid fuel t rs re n m st).1 ≠ Undefined
  ∧ td_colloc_inv size n m rs re tr0
      (collocate_target_loop pid fuel t rs re n m st).2.
Proof.
  revert st. induction fuel as [|fuel IH]; intros st Hinv; simpl.
  - done.
  - pose proof (collocate_target_step_inv st Hinv) as Hstep.
    destruct (collocate_target_step pid t rs re n m st) as [st'|st'|]; simpl.
    + by apply IH.
    + done.
    + done.
Qed.
End target_collocation_facts.

Lemma td_next_in_range_in_range (pid : Z → Z) (rs re : Z)
    (l : list TargetData) (i p : nat) (x : TargetData) :
  td_next_in_range pid rs re l i = Some (p, x) → rs ≤ pid (gid x) < re.
Proof.
  revert i. induction l as [|y l IH]; intros i; simpl; [done|].
  case_bool_decide as Hy.
  - intros [= <- <-]. done.
  - apply IH.
Qed.

Lemma td_cursor_pulls_in_range (pid : Z → Z) (t rs re : Z) :
  @td_pulls_in_range (list td_cursor) (source_table_cursor pid) pid t rs re.
Proof.
  intros src d src'. simpl.
  destruct (vec_at src t) as [c|].
  2: { intros [= <- _]. simpl. done. }
  unfold td_cursor_next.
  destruct (td_next_in_range pid rs re (drop (td_pos c) (td_pending c))
              (td_pos c)) as [[p x]|] eqn:Hnext.
  2: { intros [= <- _]. simpl. done. }
  intros [= -> _] _. by apply td_next_in_range_in_range in Hnext.
Qed.

(** X7.  For every call of [collocate_target_data_buffers_] in which the
    source table hands out only targets on ranks of [[rank_start,
    rank_end)] (range of the thread within the ranks of the run, buffer
    size within [unsigned int]): no index leaves a vector for any number of
    iterations, the send buffer keeps its size, and every write goes to
    index [target_rank * m + off] with [off < m], inside the segment of the
    rank of the target and inside the buffer. *)
Theorem collocate_target_writes_in_own_segment {S : Type} `{SourceTable S}
    (pid : Z → Z) (k : Kernel) (t : Z) (fuel : nat)
    (send : list TargetData) (src : S) :
  td_pulls_in_range S pid t (get_start_rank_per_thread k t)
    (get_end_rank_per_thread k t) →
  rank_range_ok k t →
  1 ≤ get_num_processes k ≤ LONG_MAX →
  0 ≤ get_num_assigned_ranks_per_thread k →
  Z.of_nat (length send) ≤ UINT_MAX →
  (collocate_target_data_buffers_ pid fuel k t send src []).1 ≠ Undefined
  ∧ length (t_send (collocate_target_data_buffers_ pid fuel k t send src []).2)
    = length send
  ∧ Forall
      (write_in_own_segment
         (num_spike_data_per_rank (Z.of_nat (length send))
            (get_num_processes k))
         (Z.of_nat (length send))
         (get_start_rank_per_thread k t) (get_end_rank_per_thread k t))
      (td_writes_of
         (t_trace (collocate_target_data_buffers_ pid fuel k t send src []).2)).
Proof.
  intros Hpull Hrange HP Hn Hsize.
  destruct (num_spike_data_per_rank_tiles (Z.of_nat (length send))
              (get_num_processes k)) as (Hm0 & Htile & _); [lia|done|].
  set (m := num_spike_data_per_rank (Z.of_nat (length send))
              (get_num_processes k)) in *.
  set (st0 := mkTdColloc send
                (replicate (Z.to_nat (get_num_assigned_ranks_per_thread k)) 0)
                0 src []).
  assert (td_colloc_inv (Z.of_nat (length send))
            (get_num_assigned_ranks_per_thread k) m
            (get_start_rank_per_thread k t) (get_end_rank_per_thread k t)
            [] st0) as Hinit.
  { repeat split; simpl.
    - rewrite length_replicate. lia.
    - apply Forall_replicate. lia.
    - exists []. split; [done|]. apply Forall_nil_2. }
  assert ((collocate_target_data_buffers_ pid fuel k t send src []).1
          ≠ Undefined
          ∧ td_colloc_inv (Z.of_nat (length send))
              (get_num_assigned_ranks_per_thread k) m
              (get_start_rank_per_thread k t) (get_end_rank_per_thread k t)
              []
              (collocate_target_data_buffers_ pid fuel k t send src []).2)
    as [Hdef Hinv].
  { unfold collocate_target_data_buffers_. fold m st0.
    case_bool_decide as Hne.
    - destruct (Hrange Hne) as (Hrs & Hre & Hlen).
      eapply collocate_target_loop_inv; eauto.
    - done. }
  destruct Hinv as (Hlen & _ & _ & evs & Htr & Hev).
  simpl in Htr. rewrite Htr.
  split; [done|]. split; [lia|].
  eapply Forall_impl; [exact Hev|]. intros w Hw.
  destruct Hw as (Hr & off & Ho & Hidx).
  destruct Hrange as (Hrs & Hre & _); [lia|].
  assert ((w.1 + 1) * m ≤ get_num_processes k * m)
    by (apply Z.mul_le_mono_nonneg_r; lia).
  assert (0 ≤ w.1 * m) by (apply Z.mul_nonneg_nonneg; lia).
  split; [split; [done|by exists off]|]. lia.
Qed.

Lemma collocate_target_writes_in_own_segment_witness :
  (collocate_target_data_buffers_ pid_of_gid 5 two_rank_kernel 1
     four_target_slots two_thread_source_table []).1 ≠ Undefined
  ∧ length (t_send (collocate_target_data_buffers_ pid_of_gid 5
                      two_rank_kernel 1 four_target_slots
                      two_thread_source_table []).2)
    = length four_target_slots
  ∧ Forall
      (write_in_own_segment
         (num_spike_data_per_rank (Z.of_nat (length four_target_slots))
            (get_num_processes two_rank_kernel))
         (Z.of_nat (length four_target_slots))
         (get_start_rank_per_thread two_rank_kernel 1)
         (get_end_rank_per_thread two_rank_kernel 1))
      (td_writes_of
         (t_trace (collocate_target_data_buffers_ pid_of_gid 5
                     two_rank_kernel 1 four_target_slots
                     two_thread_source_table []).2)).
Proof.
  apply (collocate_target_writes_in_own_segment pid_of_gid two_rank_kernel
           1 5 four_target_slots two_thread_source_table).
  - apply (td_cursor_pulls_in_range pid_of_gid).
  - intros _. simpl. lia.
  - unfold LONG_MAX. simpl. lia.
  - simpl. lia.
  - unfold UINT_MAX. simpl. lia.
Defined.

(** The run of the example: two targets fill the segment of rank 1, the
    loop breaks with the third still in the source table. *)
Example collocate_target_example :
  td_writes_of
    (t_trace (collocate_target_data_buffers_ pid_of_gid 5 two_rank_kernel 1
                four_target_slots two_thread_source_table []).2)
  = [(1, 2); (1, 3)]
  ∧ t_send (collocate_target_data_buffers_ pid_of_gid 5 two_rank_kernel 1
              four_target_slots two_thread_source_table []).2
    = [mkTargetData 0 0 EmptyMarker; mkTargetData 0 0 EmptyMarker;
       mkTargetData 1 7 NoMarker; mkTargetData 3 8 NoMarker].
Proof. split; reflexivity. Qed.

(** ** The sending side of a round *)

Section round_facts.
Context {R : Type} `{SpikeRegisterTable R}.
Variable k : Kernel.
Hypothesis HP : 1 ≤ get_num_processes k ≤ LONG_MAX.
Hypothesis Hn : 0 ≤ get_num_assigned_ranks_per_thread k.

(** What one call of the collocation adds to the state it starts from. *)
Lemma collocate_call_adds (t : Z) (fuel : nat) (send : list SpikeData)
    (reg : R) (tr0 : list colloc_event) :
  pulls_in_range R t (get_start_rank_per_thread k t)
    (get_end_rank_per_thread k t) →
  rank_range_ok k t →
  Z.of_nat (length send) ≤ UINT_MAX →
  ∃ evs,
    c_trace (collocate_spike_data_buffers_ fuel k t send reg tr0).2
    = tr0 ++ evs
    ∧ length (c_send (collocate_spike_data_buffers_ fuel k t send reg tr0).2)
      = length send
    ∧ NoDup (written_indices evs)
    ∧ Forall (λ w : Z * Z * SpikeData,
                c_send (collocate_spike_data_buffers_ fuel k t send reg tr0).2
                  !! Z.to_nat w.1.2 = Some w.2) (written_of evs)
    ∧ (∀ i, Z.of_nat i ∉ written_indices evs →
         c_send (collocate_spike_data_buffers_ fuel k t send reg tr0).2 !! i
         = send !! i)
    ∧ Forall (λ w : Z * Z * SpikeData,
                get_start_rank_per_thread k t ≤ w.1.1
                < get_end_rank_per_thread k t
                ∧ ∃ j, 0 ≤ j < num_spike_data_per_rank
                                 (Z.of_nat (length send))
                                 (get_num_processes k)
                       ∧ w.1.2 = w.1.1 * num_spike_data_per_rank
                                           (Z.of_nat (length send))
                                           (get_num_processes k) + j)
        (written_of evs)
    ∧ ∀ b, (collocate_spike_data_buffers_ fuel k t send reg tr0).1
           = Returned b → b = bool_decide (written_of evs = []).
Proof.
  intros Hpull Hrange Hsize.
  destruct (num_spike_data_per_rank_tiles (Z.of_nat (length send))
              (get_num_processes k)) as (Hm0 & Htile & _); [lia|done|].
  set (m := num_spike_data_per_rank (Z.of_nat (length send))
              (get_num_processes k)) in *.
  set (st0 := mkColloc send
                (replicate (Z.to_nat (get_num_assigned_ranks_per_thread k)) 0)
                0 true reg tr0).
  assert (colloc_fill_inv send (get_num_assigned_ranks_per_thread k) m
            (get_start_rank_per_thread k t) (get_end_rank_per_thread k t)
            tr0 st0) as Hinit.
  { exists []. simpl. split; [by rewrite app_nil_r|]. split; [done|].
    split; [rewrite length_replicate; lia|].
    split; [apply Forall_replicate; lia|].
    split; [apply Forall_nil_2|]. split; [apply NoDup_nil_2|].
    split; [apply Forall_nil_2|]. done. }
  assert (colloc_fill_inv send (get_num_assigned_ranks_per_thread k) m
            (get_start_rank_per_thread k t) (get_end_rank_per_thread k t)
            tr0 (collocate_spike_data_buffers_ fuel k t send reg tr0).2
          ∧ ∀ b, (collocate_spike_data_buffers_ fuel k t send reg tr0).1
                 = Returned b →
                 b = c_untouched
                       (collocate_spike_data_buffers_ fuel k t send reg tr0).2)
    as [Hinv Hflag].
  { unfold collocate_spike_data_buffers_. fold m st0.
    case_bool_decide as Hne.
    - destruct (Hrange Hne) as (Hrs & Hre & Hlen).
      apply (collocate_loop_fill_inv t _ _ _ m (get_num_processes k)
               send tr0 Hpull Hrs Hre Hlen Hm0 Htile Hsize fuel st0 Hinit).
    - simpl. split; [done|]. by intros b [= <-]. }
  destruct Hinv as (evs & Htr & Hlen & _ & Hbound & Hbelow & Hnd & Hkept
                    & Hframe & Hsum & Hunt).
  exists evs. split; [done|]. split; [done|]. split; [done|].
  split; [done|]. split; [done|]. split.
  - eapply Forall_impl; [exact Hbelow|].
    intros w (Hr & j & off & Hlook & Hj & Hidx). split; [done|].
    exists j. split; [|done].
    pose proof (Forall_lookup_1 _ _ _ _ Hbound Hlook) as Hoff.
    simpl in Hoff. lia.
  - intros b Hb. rewrite <- Hunt. by apply Hflag.
Qed.

Lemma bool_decide_app_nil {A : Type} `{EqDecision A} (l1 l2 : list A) :
  bool_decide (l1 = []) && bool_decide (l2 = [])
  = bool_decide (l1 ++ l2 = []).
Proof. by destruct l1, l2. Qed.

Lemma collocate_threads_team_inv (fuel : nat) (send0 : list SpikeData)
    (tr0 : list colloc_event) (ts finished : list Z) (me_completed : bool)
    (send : list SpikeData) (reg : R) (tr : list colloc_event) :
  Z.of_nat (length send0) ≤ UINT_MAX →
  NoDup (finished ++ ts) →
  (∀ t, t ∈ ts →
     pulls_in_range R t (get_start_rank_per_thread k t)
       (get_end_rank_per_thread k t)
     ∧ rank_range_ok k t) →
  (∀ t1 t2, t1 ∈ finished ++ ts → t2 ∈ finished ++ ts → t1 ≠ t2 →
     get_end_rank_per_thread k t1 ≤ get_start_rank_per_thread k t2
     ∨ get_end_rank_per_thread k t2 ≤ get_start_rank_per_thread k t1) →
  team_inv k (num_spike_data_per_rank (Z.of_nat (length send0))
                (get_num_processes k))
    send0 tr0 finished me_completed send tr →
  ∃ finished' me',
    team_inv k (num_spike_data_per_rank (Z.of_nat (length send0))
                  (get_num_processes k))
      send0 tr0 finished' me'
      (collocate_threads fuel k ts me_completed send reg tr).2.1.1
      (collocate_threads fuel k ts me_completed send reg tr).2.2
    ∧ ∀ b, (collocate_threads fuel k ts me_completed send reg tr).1
           = Returned b → b = me'.
Proof.
  intros Hsize. revert finished me_completed send reg tr.
  induction ts as [|t ts IH];
    intros finished me_completed send reg tr Hnd Hok Hdisj Hinv.
  - simpl. exists finished, me_completed. split; [done|].
    by intros b [= <-].
  - destruct Hinv as (evs & -> & Hlen & Hnd' & Hkept & Hframe & Hseg & Hme).
    destruct (Hok t ltac:(by left)) as [Hpull Hrange].
    destruct (collocate_call_adds t fuel send reg (tr0 ++ evs) Hpull Hrange
                ltac:(rewrite Hlen; lia))
      as (evs_t & Htr & Hlen_t & Hnd_t & Hkept_t & Hframe_t & Hseg_t
          & Hflag_t).
    rewrite Hlen in Hseg_t.
    set (m := num_spike_data_per_rank (Z.of_nat (length send0))
                (get_num_processes k)) in *.
    assert (t ∉ finished) as Hnew.
    { apply NoDup_app in Hnd as (_ & Hnd & _).
      intros Hin. apply (Hnd t Hin). by left. }
    assert (∀ w : Z * Z * SpikeData, w ∈ written_of evs_t → 0 ≤ w.1.1)
      as Hrank_t.
    { intros w Hw. rewrite Forall_forall in Hseg_t.
      destruct (Hseg_t w Hw) as (Hr & _).
      destruct Hrange as (? & _); lia. }
    assert (∀ w w' : Z * Z * SpikeData,
              w ∈ written_of evs → w' ∈ written_of evs_t →
              0 ≤ w.1.2 ∧ w.1.2 ≠ w'.1.2) as Hfresh.
    { intros w w' Hw Hw'. rewrite Forall_forall in Hseg, Hseg_t.
      destruct (Hseg w Hw) as (Hr0 & t' & Ht' & Hr & j & Hj & Hidx).
      destruct (Hseg_t w' Hw') as (Hr' & j' & Hj' & Hidx').
      assert (t' ≠ t) as Hne by (intros ->; done).
      assert (0 ≤ w.1.1 * m) by (apply Z.mul_nonneg_nonneg; lia).
      split; [lia|].
      destruct (Hdisj t' t) as [Hd|Hd].
      - apply elem_of_app. by left.
      - apply elem_of_app. right. by left.
      - done.
      - rewrite Hidx, Hidx'. nia.
      - rewrite Hidx, Hidx'. nia. }
    remember (collocate_spike_data_buffers_ fuel k t send reg (tr0 ++ evs))
      as call eqn:Hcall.
    assert (team_inv k m send0 tr0 (finished ++ [t])
              (me_completed && bool_decide (written_of evs_t = []))
              (c_send call.2) (c_trace call.2)) as Hinv'.
    { exists (evs ++ evs_t). rewrite Htr, <- app_assoc.
      rewrite written_of_app, written_indices_app.
      split; [done|]. split; [congruence|]. split.
      { apply NoDup_app. split; [done|]. split; [|done].
        unfold written_indices. intros x Hx Hx'.
        apply list_elem_of_fmap in Hx as (w & -> & Hw).
        apply list_elem_of_fmap in Hx' as (w' & Heq & Hw').
        by apply (Hfresh w w' Hw Hw'). }
      split.
      { apply Forall_app. split; [|done].
        rewrite Forall_forall. intros w Hw.
        rewrite Forall_forall in Hkept.
        rewrite Hframe_t; [by apply Hkept|].
        unfold written_indices. intros Hx.
        apply list_elem_of_fmap in Hx as (w' & Heq & Hw').
        destruct (Hfresh w w' Hw Hw') as [Hpos Hne]. lia. }
      split.
      { intros i Hi. rewrite not_elem_of_app in Hi.
        destruct Hi as [Hi Hi']. rewrite Hframe_t by done.
        by apply Hframe. }
      split.
      { apply Forall_app. split.
        - eapply Forall_impl; [exact Hseg|].
          intros w (Hr0 & t' & Ht' & Hrest). split; [done|].
          exists t'. split; [|done]. apply elem_of_app. by left.
        - rewrite Forall_forall. intros w Hw. split; [by apply Hrank_t|].
          rewrite Forall_forall in Hseg_t.
          exists t. split; [|by apply Hseg_t].
          apply elem_of_app. right. by left. }
      rewrite Hme. apply bool_decide_app_nil. }
    simpl. rewrite <- Hcall.
    destruct call as [[b| |] stt]; simpl in *.
    + rewrite (Hflag_t b eq_refl).
      apply (IH (finished ++ [t])); try done.
      * by rewrite <- app_assoc.
      * intros t' Ht'. apply Hok. by right.
      * intros t1 t2 Ht1 Ht2. rewrite <- app_assoc in Ht1, Ht2.
        by apply Hdisj.
    + eexists (finished ++ [t]), _. split; [exact Hinv'|]. done.
    + eexists (finished ++ [t]), _. split; [exact Hinv'|]. done.
Qed.
End round_facts.

(** X8.  The sending side of one round of [gather_spike_data], for a team
    whose threads have disjoint rank ranges within the ranks of the run: in
    whatever way the round ends, the send buffer keeps its size, no slot was
    written twice, every record a thread wrote in this round is in its slot
    of the send buffer, and every other slot holds the "complete" stamp of
    what it held before the round.  The round that ends the loop wrote no
    record at all: the buffer it exchanged holds stamps only. *)
Theorem round_exchanges_written_records {R : Type} `{SpikeRegisterTable R}
    (k : Kernel) (fuel : nat)
    (alltoall : list SpikeData → list SpikeData → list SpikeData)
    (st st' : rank_state R) (s : status bool) :
  team_ranges_ok R k →
  1 ≤ get_num_processes k ≤ LONG_MAX →
  0 ≤ get_num_assigned_ranks_per_thread k →
  Z.of_nat (length (send_buffer_spike_data_ st)) ≤ UINT_MAX →
  gather_round fuel k alltoall st = (s, st') →
  ∃ evs,
    trace st' = trace st ++ evs
    ∧ length (send_buffer_spike_data_ st')
      = length (send_buffer_spike_data_ st)
    ∧ NoDup (written_indices evs)
    ∧ (∀ rank idx d, (rank, idx, d) ∈ written_of evs →
         send_buffer_spike_data_ st' !! Z.to_nat idx = Some d)
    ∧ (∀ i, Z.of_nat i ∉ written_indices evs →
         send_buffer_spike_data_ st' !! i
         = set_complete <$> (send_buffer_spike_data_ st !! i))
    ∧ (s = Returned true →
       written_of evs = []
       ∧ send_buffer_spike_data_ st'
         = set_complete <$> send_buffer_spike_data_ st).
Proof.
  intros [Hok Hdisj] HP Hn Hsize Hround.
  unfold gather_round, round_start in Hround.
  rewrite prepare_spike_data_buffers_fmap in Hround.
  set (send1 := set_complete <$> send_buffer_spike_data_ st) in *.
  set (reg1 := for_threads (threads k)
                 (λ t r, reset_current_index_target_table t
                           (restore_entry_point t r))
                 (spike_register_table_ st)) in *.
  assert (length send1 = length (send_buffer_spike_data_ st)) as Hlen1
    by apply length_fmap.
  destruct (collocate_threads_team_inv k HP Hn fuel send1 (trace st)
              (threads k) [] true send1 reg1 (trace st))
    as (finished & me' & Hinv & Hflag).
  { lia. }
  { apply NoDup_seqZ. }
  { done. }
  { done. }
  { exists []. rewrite app_nil_r. repeat split; try done.
    - apply NoDup_nil_2. }
  destruct Hinv as (evs & Htr & Hlen & Hnd & Hkept & Hframe & _ & Hme).
  exists evs.
  assert (∀ send, length send = length send1 →
            (∀ i, Z.of_nat i ∉ written_indices evs → send !! i = send1 !! i) →
            ∀ i, Z.of_nat i ∉ written_indices evs →
              send !! i = set_complete <$> (send_buffer_spike_data_ st !! i))
    as Hstamp.
  { intros send _ Hfr i Hi. rewrite Hfr by done.
    unfold send1. by rewrite list_lookup_fmap. }
  destruct (collocate_threads fuel k (threads k) true send1 reg1 (trace st))
    as [[me| |] [[send2 reg2] tr2]] eqn:Hteam; simpl in *.
  - specialize (Hflag me eq_refl). rewrite <- Hflag in Hme. clear Hflag.
    assert ((if me then prepare_spike_data_buffers_ me send2 else send2)
            = send2) as Hsend3.
    { destruct me; [|done].
      symmetry in Hme. apply bool_decide_eq_true in Hme.
      assert (send2 = send1) as ->.
      { apply list_eq. intros i. apply Hframe.
        unfold written_indices. rewrite Hme. apply not_elem_of_nil. }
      rewrite prepare_spike_data_buffers_fmap. unfold send1.
      rewrite <- list_fmap_compose. apply list_fmap_ext.
      intros i d _. by destruct d. }
    rewrite Hsend3 in Hround.
    assert (s = Returned true → written_of evs = []
                                ∧ send2 = send1) as Hexit.
    { destruct (deliver_threads k (threads k)
                  (alltoall send2 (recv_buffer_spike_data_ st))
                  (true, routed st)) as [[others routed']|];
        injection Hround as <- <-; [|done].
      intros [= Hb]. apply andb_true_iff in Hb as [-> _].
      symmetry in Hme. apply bool_decide_eq_true in Hme.
      split; [done|]. apply list_eq. intros i. apply Hframe.
      unfold written_indices. rewrite Hme. apply not_elem_of_nil. }
    assert (send_buffer_spike_data_ st' = send2 ∧ trace st' = tr2)
      as [-> ->].
    { destruct (deliver_threads k (threads k)
                  (alltoall send2 (recv_buffer_spike_data_ st))
                  (true, routed st)) as [[others routed']|];
        injection Hround as <- <-; done. }
    split; [done|]. split; [lia|]. split; [done|]. split.
    { intros rank idx d Hw. rewrite Forall_forall in Hkept.
      apply (Hkept _ Hw). }
    split; [by apply Hstamp|]. done.
  - injection Hround as <- <-. simpl.
    split; [done|]. split; [lia|]. split; [done|]. split.
    { intros rank idx d Hw. rewrite Forall_forall in Hkept.
      apply (Hkept _ Hw). }
    split; [by apply Hstamp|]. done.
  - injection Hround as <- <-. simpl.
    split; [done|]. split; [lia|]. split; [done|]. split.
    { intros rank idx d Hw. rewrite Forall_forall in Hkept.
      apply (Hkept _ Hw). }
    split; [by apply Hstamp|]. done.
Qed.

Lemma two_rank_team_ok : team_ranges_ok (list cursor) two_rank_kernel.
Proof.
  split.
  - intros t Ht. split; [apply cursor_pulls_in_range|].
    apply elem_of_seqZ in Ht. intros _. simpl in *. lia.
  - intros t1 t2 _ _ Hne. simpl. lia.
Qed.

Lemma round_exchanges_written_records_witness :
  ∃ evs,
    trace (gather_round 5 two_rank_kernel no_exchange two_rank_state).2
    = trace two_rank_state ++ evs
    ∧ length (send_buffer_spike_data_
                (gather_round 5 two_rank_kernel no_exchange
                   two_rank_state).2)
      = length (send_buffer_spike_data_ two_rank_state)
    ∧ NoDup (written_indices evs)
    ∧ (∀ rank idx d, (rank, idx, d) ∈ written_of evs →
         send_buffer_spike_data_
           (gather_round 5 two_rank_kernel no_exchange two_rank_state).2
           !! Z.to_nat idx = Some d)
    ∧ (∀ i, Z.of_nat i ∉ written_indices evs →
         send_buffer_spike_data_
           (gather_round 5 two_rank_kernel no_exchange two_rank_state).2 !! i
         = set_complete <$> (send_buffer_spike_data_ two_rank_state !! i))
    ∧ ((gather_round 5 two_rank_kernel no_exchange two_rank_state).1
       = Returned true →
       written_of evs = []
       ∧ send_buffer_spike_data_
           (gather_round 5 two_rank_kernel no_exchange two_rank_state).2
         = set_complete <$> send_buffer_spike_data_ two_rank_state).
Proof.
  apply (round_exchanges_written_records two_rank_kernel 5 no_exchange
           two_rank_state).
  - apply two_rank_team_ok.
  - unfold LONG_MAX. simpl. lia.
  - simpl. lia.
  - unfold UINT_MAX. simpl. lia.
  - apply surjective_pairing.
Defined.

(** The round of the example: thread 0 writes its record to slot 0, thread
    1 fills the segment of rank 1; slot 1 holds a stamp. *)
Example round_example :
  send_buffer_spike_data_
    (gather_round 5 two_rank_kernel no_exchange two_rank_state).2
  = [spike 0 0; set_complete (spike (-1) 0); spike 0 0; spike 1 0]
  ∧ (gather_round 5 two_rank_kernel no_exchange two_rank_state).1
    = Returned false.
Proof. split; reflexivity. Qed.

(** ** Target data: how [me_completed] is detected *)

Lemma td_written_of_app (e1 e2 : list td_event) :
  td_written_of (e1 ++ e2) = td_written_of e1 ++ td_written_of e2.
Proof. unfold td_written_of. apply omap_app. Qed.

Lemma td_written_indices_app (e1 e2 : list td_event) :
  td_written_indices (e1 ++ e2)
  = td_written_indices e1 ++ td_written_indices e2.
Proof. unfold td_written_indices. by rewrite td_written_of_app, fmap_app. Qed.

Section target_fill_facts.
Context {S : Type} `{SourceTable S}.
Variables (pid : Z → Z) (t rs re n m P : Z) (send0 : list TargetData)
  (tr0 : list td_event).
Hypothesis Hpull : td_pulls_in_range S pid t rs re.
Hypothesis Hrs : 0 ≤ rs.
Hypothesis Hre : re ≤ P.
Hypothesis Hn : re - rs ≤ n.
Hypothesis Hm : 0 ≤ m.
Hypothesis Htile : m * P ≤ Z.of_nat (length send0).
Hypothesis Hsize : Z.of_nat (length send0) ≤ UINT_MAX.

Lemma td_close_iteration_fill_inv (st : td_colloc S) :
  td_fill_inv send0 n m rs re tr0 st →
  match td_close_iteration n m st with
  | TdContinue st' | TdBreak st' => td_fill_inv send0 n m rs re tr0 st'
  | TdFault => False
  end.
Proof. intros Hinv. unfold td_close_iteration. by case_bool_decide. Qed.

Lemma collocate_target_step_fill_inv (st : td_colloc S) :
  td_fill_inv send0 n m rs re tr0 st →
  match collocate_target_step pid t rs re n m st with
  | TdContinue st' | TdBreak st' => td_fill_inv send0 n m rs re tr0 st'
  | TdFault => False
  end.
Proof.
  intros (evs & Htr & Hlen & Hoff & Hbound & Hbelow & Hnd & Hkept & Hframe
          & Hsum).
  unfold collocate_target_step.
  destruct (get_next_target_data t rs re (t_src st)) as [d src'] eqn:Hnext.
  destruct (decide (gid d = invalid_index)) as [Hend|Hvalid].
  { rewrite bool_decide_eq_true_2 by done.
    exists (evs ++ [TdGetNext t d]).
    simpl. rewrite td_written_of_app, td_written_indices_app. simpl.
    rewrite !app_nil_r.
    split; [rewrite Htr, <- !app_assoc; done|]. done. }
  rewrite bool_decide_eq_false_2 by done.
  pose proof (Hpull _ _ _ Hnext Hvalid) as Hrank.
  set (rank := pid (gid d)) in *.
  destruct (vec_at_lookup (t_offset st) (rank - rs) ltac:(lia))
    as [off Hlook].
  rewrite Hlook. apply vec_at_Some in Hlook as [Hidx Hlook].
  pose proof (Forall_lookup_1 _ _ _ _ Hbound Hlook) as Hoffb.
  simpl in Hoffb. destruct (decide (off < m)) as [Hfull|Hfull].
  - rewrite (bool_decide_eq_true_2 (off < m)) by done.
    assert ((rank + 1) * m ≤ P * m) as Hseg
      by (apply Z.mul_le_mono_nonneg_r; lia).
    assert (0 ≤ rank * m) as Hseg0 by (apply Z.mul_nonneg_nonneg; lia).
    assert (0 ≤ rank * m + off < Z.of_nat (length send0)) as Hin by lia.
    assert (∀ w, w ∈ td_written_of evs →
              0 ≤ w.1.2 < Z.of_nat (length send0)
              ∧ w.1.2 ≠ rank * m + off) as Hold.
    { intros w Hw. rewrite Forall_forall in Hbelow.
      destruct (Hbelow w Hw) as (Hr & j & offw & Hlw & Hj & Hwi).
      pose proof (Forall_lookup_1 _ _ _ _ Hbound Hlw) as Hoffw.
      simpl in Hoffw.
      assert ((w.1.1 + 1) * m ≤ P * m)
        by (apply Z.mul_le_mono_nonneg_r; lia).
      assert (0 ≤ w.1.1 * m) by (apply Z.mul_nonneg_nonneg; lia).
      split; [lia|]. rewrite Hwi.
      destruct (decide (w.1.1 = rank)) as [Heq|Hne].
      - rewrite Heq in Hlw. rewrite Hlook in Hlw. injection Hlw as <-.
        rewrite Heq. lia.
      - nia. }
    assert (rank * m + off ∉ td_written_indices evs) as Hfresh.
    { unfold td_written_indices. intros Hx.
      apply list_elem_of_fmap in Hx as (w & Heq & Hw).
      destruct (Hold w Hw) as [_ Hne]. congruence. }
    assert (Z.of_nat (length (td_written_of evs)) + 1
            ≤ Z.of_nat (length send0)) as Hcount.
    { assert (NoDup (td_written_indices evs ++ [rank * m + off])) as Hnd'.
      { apply NoDup_app. split; [done|]. split.
        - intros x Hx [->|Hnil%not_elem_of_nil]%elem_of_cons; done.
        - apply NoDup_singleton. }
      apply (NoDup_in_range_length _ (Z.of_nat (length send0))) in Hnd';
        [|lia|].
      - unfold td_written_indices in Hnd'.
        rewrite length_app, length_fmap in Hnd'. simpl in Hnd'. lia.
      - unfold td_written_indices.
        intros x [Hx|Hx]%elem_of_app.
        + apply list_elem_of_fmap in Hx as (w & -> & Hw).
          by apply Hold.
        + apply list_elem_of_singleton in Hx as ->. done. }
    rewrite (to_uint_small (rank * m + off)) by lia.
    rewrite (to_uint_small (off + 1)) by nia.
    unfold vec_set. rewrite !bool_decide_eq_true_2 by lia.
    apply td_close_iteration_fill_inv.
    exists (evs ++ [TdGetNext t d; TdWrite rank (rank * m + off) d]).
    simpl. rewrite td_written_of_app, td_written_indices_app. simpl.
    split; [rewrite Htr, <- !app_assoc; done|].
    split; [by rewrite length_insert|].
    split; [by rewrite length_insert|].
    split; [apply Forall_insert; [done|lia]|].
    split.
    { apply Forall_app. split.
      - eapply Forall_impl; [exact Hbelow|].
        intros w (Hr & j & offw & Hlw & Hj & Hwi). split; [done|].
        destruct (decide (w.1.1 = rank)) as [Heq|Hne].
        + exists j, (off + 1). rewrite Heq.
          rewrite list_lookup_insert_eq by lia.
          rewrite Heq, Hlook in Hlw. injection Hlw as <-.
          split; [done|]. split; [lia|]. by rewrite <- Heq.
        + exists j, offw.
          rewrite list_lookup_insert_ne by lia. done.
      - apply Forall_singleton. simpl. split; [done|].
        exists off, (off + 1).
        rewrite list_lookup_insert_eq by lia. split; [done|]. lia. }
    split.
    { apply NoDup_app. split; [done|]. split.
      - intros x Hx [->|Hnil%not_elem_of_nil]%elem_of_cons; done.
      - apply NoDup_singleton. }
    split.
    { apply Forall_app. split.
      - rewrite Forall_forall. intros w Hw.
        rewrite Forall_forall in Hkept.
        destruct (Hold w Hw) as [Hb Hne].
        rewrite list_lookup_insert_ne by lia. by apply Hkept.
      - apply Forall_singleton. simpl.
        apply list_lookup_insert_eq. lia. }
    split.
    { intros i Hi.
      assert (Z.of_nat i ∉ td_written_indices evs) as Hi1
        by (intros Hx; apply Hi, elem_of_app; by left).
      assert (Z.of_nat i ≠ rank * m + off) as Hi2
        by (intros Heq; apply Hi, elem_of_app; right; rewrite Heq;
            by left).
      rewrite list_lookup_insert_ne by lia. by apply Hframe. }
    rewrite Hsum, length_app. simpl.
    rewrite to_uint_small by lia. lia.
  - rewrite (bool_decide_eq_false_2 (off < m)) by done.
    apply td_close_iteration_fill_inv.
    exists (evs ++ [TdGetNext t d; TdReject t; TdSave t]).
    simpl. rewrite td_written_of_app, td_written_indices_app. simpl.
    rewrite !app_nil_r.
    split; [rewrite Htr, <- !app_assoc; done|]. done.
Qed.

Lemma collocate_target_loop_fill_inv (fuel : nat) (st : td_colloc S) :
  td_fill_inv send0 n m rs re tr0 st →
  td_fill_inv send0 n m rs re tr0
    (collocate_target_loop pid fuel t rs re n m st).2.
Proof.
  revert st. induction fuel as [|fuel IH]; intros st Hinv; simpl.
  - done.
  - pose proof (collocate_target_step_fill_inv st Hinv) as Hstep.
    destruct (collocate_target_step pid t rs re n m st) as [st'|st'|]; simpl.
    + by apply IH.
    + done.
    + done.
Qed.
End target_fill_facts.

Lemma check_target_data_me_completed_iff (buffer : list TargetData) :
  check_target_data_me_completed_ buffer = true
  ↔ ∀ d, d ∈ buffer → td_is_empty d = true.
Proof.
  induction buffer as [|d rest IH]; simpl.
  - split; [|done]. intros _ d Hd. by apply not_elem_of_nil in Hd.
  - destruct (td_is_empty d) eqn:He; simpl.
    + rewrite IH. split.
      * intros Hall d' [->|Hd']%elem_of_cons; [done|by apply Hall].
      * intros Hall d' Hd'. apply Hall. by right.
    + split; [done|]. intros Hall.
      specialize (Hall d ltac:(by left)). congruence.
Qed.

Lemma check_target_data_others_completed_iff (buffer : list TargetData) :
  check_target_data_others_completed_ buffer = true
  ↔ ∀ d, d ∈ buffer → td_is_complete d = true.
Proof.
  induction buffer as [|d rest IH]; simpl.
  - split; [|done]. intros _ d Hd. by apply not_elem_of_nil in Hd.
  - destruct (td_is_complete d) eqn:He; simpl.
    + rewrite IH. split.
      * intros Hall d' [->|Hd']%elem_of_cons; [done|by apply Hall].
      * intros Hall d' Hd'. apply Hall. by right.
    + split; [done|]. intros Hall.
      specialize (Hall d ltac:(by left)). congruence.
Qed.

(** X9.  In a round of the target-data exchange that started with
    [me_completed = false], the test [check_target_data_me_completed_] on
    the send buffer that [prepare_target_data_buffers_] stamped "empty" and
    one thread then collocated into returns [true] exactly when every
    target that collocation wrote reports "empty" itself, in particular
    when it wrote none: a target written is still in its slot when the
    buffer is tested (targets of the source table on ranks of the range;
    range within the ranks of the run). *)
Theorem target_me_completed_iff_nothing_written {S : Type} `{SourceTable S}
    (pid : Z → Z) (k : Kernel) (t : Z) (fuel : nat)
    (send : list TargetData) (src : S) :
  td_pulls_in_range S pid t (get_start_rank_per_thread k t)
    (get_end_rank_per_thread k t) →
  rank_range_ok k t →
  1 ≤ get_num_processes k ≤ LONG_MAX →
  0 ≤ get_num_assigned_ranks_per_thread k →
  Z.of_nat (length send) ≤ UINT_MAX →
  (check_target_data_me_completed_
     (t_send (collocate_target_data_buffers_ pid fuel k t
                (prepare_target_data_buffers_ false send) src []).2)
   = true
   ↔ ∀ w, w ∈ td_written_of
                (t_trace (collocate_target_data_buffers_ pid fuel k t
                            (prepare_target_data_buffers_ false send) src
                            []).2) →
          td_is_empty w.2 = true)
  ∧ (td_written_of
       (t_trace (collocate_target_data_buffers_ pid fuel k t
                   (prepare_target_data_buffers_ false send) src []).2) = [] →
     t_send (collocate_target_data_buffers_ pid fuel k t
               (prepare_target_data_buffers_ false send) src []).2
     = td_set_empty <$> send).
Proof.
  intros Hpull Hrange HP Hn Hsize.
  rewrite prepare_target_data_buffers_fmap. simpl.
  set (send0 := td_set_empty <$> send).
  assert (length send0 = length send) as Hlen0 by apply length_fmap.
  destruct (num_spike_data_per_rank_tiles (Z.of_nat (length send0))
              (get_num_processes k)) as (Hm0 & Htile & _); [lia|done|].
  set (m := num_spike_data_per_rank (Z.of_nat (length send0))
              (get_num_processes k)) in *.
  set (st0 := mkTdColloc send0
                (replicate (Z.to_nat (get_num_assigned_ranks_per_thread k)) 0)
                0 src []).
  assert (td_fill_inv send0 (get_num_assigned_ranks_per_thread k) m
            (get_start_rank_per_thread k t) (get_end_rank_per_thread k t)
            [] st0) as Hinit.
  { exists []. simpl. split; [done|]. split; [done|].
    split; [rewrite length_replicate; lia|].
    split; [apply Forall_replicate; lia|].
    split; [apply Forall_nil_2|]. split; [apply NoDup_nil_2|].
    split; [apply Forall_nil_2|]. done. }
  assert (td_fill_inv send0 (get_num_assigned_ranks_per_thread k) m
            (get_start_rank_per_thread k t) (get_end_rank_per_thread k t)
            [] (collocate_target_data_buffers_ pid fuel k t send0 src []).2)
    as Hinv.
  { unfold collocate_target_data_buffers_. fold m st0.
    case_bool_decide as Hne.
    - destruct (Hrange Hne) as (Hrs & Hre & Hlen).
      apply (collocate_target_loop_fill_inv pid t _ _ _ m
               (get_num_processes k) send0 []); auto. lia.
    - done. }
  destruct Hinv as (evs & Htr & Hlen & _ & _ & _ & _ & Hkept & Hframe & _).
  simpl in Htr. rewrite Htr.
  rewrite check_target_data_me_completed_iff. split.
  - split.
    + intros Hall w Hw. rewrite Forall_forall in Hkept.
      apply Hall. eapply list_elem_of_lookup_2. by apply Hkept.
    + intros Hall d Hd. apply list_elem_of_lookup in Hd as [i Hi].
      destruct (decide (Z.of_nat i ∈ td_written_indices evs)) as [Hin|Hout].
      * unfold td_written_indices in Hin.
        apply list_elem_of_fmap in Hin as (w & Heq & Hw).
        rewrite Forall_forall in Hkept. pose proof (Hkept w Hw) as Hk.
        rewrite <- Heq, Nat2Z.id in Hk. rewrite Hi in Hk.
        injection Hk as ->. by apply Hall.
      * rewrite Hframe in Hi by done. unfold send0 in Hi.
        rewrite list_lookup_fmap in Hi.
        destruct (send !! i); [|done]. by injection Hi as <-.
  - intros Hnil. apply list_eq. intros i. apply Hframe.
    unfold td_written_indices. rewrite Hnil. apply not_elem_of_nil.
Qed.

Lemma target_me_completed_iff_nothing_written_witness :
  (check_target_data_me_completed_
     (t_send (collocate_target_data_buffers_ pid_of_gid 5 two_rank_kernel 1
                (prepare_target_data_buffers_ false four_target_slots)
                two_thread_source_table []).2)
   = true
   ↔ ∀ w, w ∈ td_written_of
                (t_trace (collocate_target_data_buffers_ pid_of_gid 5
                            two_rank_kernel 1
                            (prepare_target_data_buffers_ false
                               four_target_slots)
                            two_thread_source_table []).2) →
          td_is_empty w.2 = true)
  ∧ (td_written_of
       (t_trace (collocate_target_data_buffers_ pid_of_gid 5
                   two_rank_kernel 1
                   (prepare_target_data_buffers_ false four_target_slots)
                   two_thread_source_table []).2) = [] →
     t_send (collocate_target_data_buffers_ pid_of_gid 5 two_rank_kernel 1
               (prepare_target_data_buffers_ false four_target_slots)
               two_thread_source_table []).2
     = td_set_empty <$> four_target_slots).
Proof.
  apply (target_me_completed_iff_nothing_written pid_of_gid two_rank_kernel
           1 5 four_target_slots two_thread_source_table).
  - apply (td_cursor_pulls_in_range pid_of_gid).
  - intros _. simpl. lia.
  - unfold LONG_MAX. simpl. lia.
  - simpl. lia.
  - unfold UINT_MAX. simpl. lia.
Defined.

(** X10.  When [check_target_data_others_completed_] finds the receive
    buffer complete, [distribute_target_data_buffers_] forwards none of its
    records: the round that detects that the other ranks are done adds no
    target. *)
Theorem others_completed_round_adds_no_target (is_vp_local : Z → bool)
    (t : Z) (recv_buffer : list TargetData) :
  check_target_data_others_completed_ recv_buffer = true →
  distribute_target_data_buffers_ is_vp_local t recv_buffer = [].
Proof.
  rewrite check_target_data_others_completed_iff.
  induction recv_buffer as [|d rest IH]; intros Hall; [done|].
  simpl. rewrite (Hall d) by by left. rewrite andb_false_r. simpl.
  apply IH. intros d' Hd'. apply Hall. by right.
Qed.

Lemma others_completed_round_adds_no_target_witness :
  distribute_target_data_buffers_ (λ _, true) 0
    [mkTargetData 1 7 CompleteMarker; mkTargetData 4 2 CompleteMarker] = [].
Proof.
  apply (others_completed_round_adds_no_target (λ _, true) 0
           [mkTargetData 1 7 CompleteMarker; mkTargetData 4 2 CompleteMarker]).
  reflexivity.
Defined.

(** * The exchange from end to end *)

(** ** The rejected record *)


Section trace_facts.
Context {R : Type} `{SpikeRegisterTable R}.



End trace_facts.

Section cursor_facts.


Lemma length_on_thread (f : cursor → cursor) (t : Z) (reg : list cursor) :
  length (on_thread f t reg) = length reg.
Proof. unfold on_thread. case_bool_decide; [apply length_alter|done]. Qed.








End cursor_facts.

(** The same for the source table modelled from the spec. *)
Section td_cursor_facts.
Variable pid : Z → Z.
Local Abbreviation tbl := (source_table_cursor pid).










End td_cursor_facts.

(** A segment of size zero: nothing is written, whatever the register
    holds. *)
Section no_room_facts.
Context {R : Type} `{SpikeRegisterTable R}.







End no_room_facts.




(** ** The rejected record: the claim *)





(** The first iteration of the two calls of the example leads to the
    states in which the record is rejected. *)
Example crowded_states_reached :
  collocate_step 0 0 3 3 1
    (mkColloc three_slots [0; 0; 0] 0 true crowded_register [])
  = Continue crowded_state
  ∧ collocate_target_step pid_of_gid 0 0 3 3 1
      (mkTdColloc three_target_slots [0; 0; 0] 0 crowded_source_table [])
    = TdContinue crowded_target_state.
Proof. split; reflexivity. Qed.


(** ** The records a call hands out *)

(** The records of a cursor at or behind position [i] that a pull for the
    ranks of [[rs, re)] hands out. *)
Local Abbreviation ahead rs re i c :=
  (filter (λ x : Z * SpikeData, rs ≤ x.1 < re) (drop i (pending c))).

(** The records written, with their destination ranks. *)
Local Abbreviation pairs_of W :=
  ((λ w : Z * Z * SpikeData, (w.1.1, w.2)) <$> W).






Section team_writes.
Variable k : Kernel.
Hypothesis HP : 1 ≤ get_num_processes k ≤ LONG_MAX.
Hypothesis Hn : 0 ≤ get_num_assigned_ranks_per_thread k.


End team_writes.

(** ** Slots and records *)




(** ** The delivery of a round that returns *)




(** ** The parts of a round *)

Section round_parts.
Context {R : Type} `{SpikeRegisterTable R}.




End round_parts.

(** ** The sending side of a round: the records *)









Lemma fmap_ext_elem_of {A B : Type} (f g : A → B) (l : list A) :
  (∀ x, x ∈ l → f x = g x) → f <$> l = g <$> l.
Proof.
  intros Hext. apply list_fmap_ext. intros i x Hi. apply Hext.
  by eapply list_elem_of_lookup_2.
Qed.


(** ** The rounds of a rank *)





Section sender.
Variables (k : Kernel) (fuel : nat) (size : Z).
Hypothesis HP : 1 ≤ get_num_processes k.
Hypothesis Hsize : get_num_processes k ≤ size ≤ UINT_MAX.
Hypothesis HT : get_num_threads k ≤ complete_marker.
Hypothesis Hn : 0 ≤ get_num_assigned_ranks_per_thread k.
Hypothesis Hok : ∀ t, t ∈ threads k → rank_range_ok k t.
Hypothesis Hdisj :
  ∀ t1 t2, t1 ∈ threads k → t2 ∈ threads k → t1 ≠ t2 →
    get_end_rank_per_thread k t1 ≤ get_start_rank_per_thread k t2
    ∨ get_end_rank_per_thread k t2 ≤ get_start_rank_per_thread k t1.

Local Abbreviation mN :=
  (Z.to_nat (num_spike_data_per_rank size (get_num_processes k))).


End sender.






(** When every pending record of a thread of the team is for a rank of the
    range of the thread, the outgoing records are all pending records. *)
Lemma outgoing_owned (k : Kernel) (reg : list cursor) :
  (∀ t c x, t ∈ threads k → vec_at reg t = Some c → x ∈ pending c →
     get_start_rank_per_thread k t ≤ x.1 < get_end_rank_per_thread k t) →
  outgoing k reg
  = concat ((λ t, default [] (pending <$> vec_at reg t)) <$> threads k).
Proof.
  intros Hown. unfold outgoing. f_equal. apply fmap_ext_elem_of.
  intros t Ht. destruct (vec_at reg t) as [c|] eqn:Hc; [|done]. simpl.
  assert (∀ x, x ∈ pending c →
            get_start_rank_per_thread k t ≤ x.1
            < get_end_rank_per_thread k t) as Hin
    by (intros x Hx; by apply (Hown t c x)).
  clear Hown Hc. induction (pending c) as [|x l IH]; [done|].
  rewrite filter_cons, decide_True by (apply Hin; by left).
  f_equal. apply IH. intros y Hy. apply Hin. by right.
Qed.




(** The run of the example: both ranks leave the loop after three rounds;
    rank 0 has forwarded the record of thread 0 of either rank, rank 1 the
    three records of thread 1 of either rank, two of them in the first round
    and the third in the second. *)
Example gather_spike_data_example :
  (gather_spike_data 5 5 two_rank_kernel
     (job_exchange 5 two_rank_kernel 2 two_rank_job 0) two_rank_state).1
  = Returned 3%nat
  ∧ routed (gather_spike_data 5 5 two_rank_kernel
              (job_exchange 5 two_rank_kernel 2 two_rank_job 0)
              two_rank_state).2
    = [mkSend 0 0 0 11; mkSend 0 0 0 11]
  ∧ (gather_spike_data 5 5 two_rank_kernel
       (job_exchange 5 two_rank_kernel 2 two_rank_job 1) two_rank_state).1
    = Returned 3%nat
  ∧ routed (gather_spike_data 5 5 two_rank_kernel
              (job_exchange 5 two_rank_kernel 2 two_rank_job 1)
              two_rank_state).2
    = [mkSend 0 0 0 11; mkSend 0 0 0 11; mkSend 1 0 0 11; mkSend 1 0 0 11;
       mkSend 1 0 0 12; mkSend 1 0 0 12].
Proof. repeat split; reflexivity. Qed.


(** ** The connection creator *)

Import Topology.

Section connect_facts.
Context {Pos Rng Val : Type} `{Draws Pos Rng Val}.

Lemma admissible_skip (target_id : Z) (iter : Pos * Z)
    (rest : list (Pos * Z)) :
  iter.2 = target_id →
  admissible false target_id (iter :: rest) = admissible false target_id rest.
Proof.
  intros Heq. unfold admissible. rewrite filter_cons.
  destruct (decide _) as [[?|Hn]|_]; done.
Qed.

Lemma admissible_keep (allow_autapses : bool) (target_id : Z)
    (iter : Pos * Z) (rest : list (Pos * Z)) :
  negb allow_autapses && bool_decide (iter.2 = target_id) = false →
  admissible allow_autapses target_id (iter :: rest)
  = iter :: admissible allow_autapses target_id rest.
Proof.
  intros Hk. unfold admissible. rewrite filter_cons.
  destruct (decide _) as [_|Hn]; [done|]. destruct Hn.
  destruct allow_autapses; [by left|right]. simpl in Hk.
  by apply bool_decide_eq_false in Hk.
Qed.

Lemma admissible_no_autapse (target_id : Z) (pool : list (Pos * Z))
    (p : Pos * Z) :
  p ∈ admissible false target_id pool → p.2 ≠ target_id.
Proof.
  unfold admissible. rewrite list_elem_of_filter. by intros [[?|?] _].
Qed.

Lemma connect_to_target_spec (allow_autapses without_kernel : bool)
    (pool : list (Pos * Z)) (tgt : target_node Pos) (tgt_thread : Z)
    (source : layer) (rng : Rng) (log : list (connection Val)) :
  ∃ new,
    (connect_to_target_ allow_autapses without_kernel pool tgt tgt_thread
       source rng log).2 = log ++ new
    ∧ endpoints <$> new `sublist_of` pool_pairs allow_autapses pool tgt
    ∧ (without_kernel = true →
       endpoints <$> new = pool_pairs allow_autapses pool tgt)
    ∧ Forall (λ c, conn_thread c = tgt_thread) new.
Proof.
  unfold pool_pairs.
  revert rng log. induction pool as [|iter rest IH]; intros rng log.
  - exists []. simpl. rewrite app_nil_r. repeat split; try done.
  - cbn [connect_to_target_].
    destruct (negb allow_autapses && bool_decide (iter.2 = tgt_gid tgt))
      eqn:Hskip.
    + apply andb_true_iff in Hskip as [Ha Heq].
      apply bool_decide_eq_true in Heq. destruct allow_autapses; [done|].
      rewrite admissible_skip by done. apply IH.
    + rewrite admissible_keep by done.
      destruct (if without_kernel then _ else _) as [accepted rng1] eqn:Hacc.
      destruct accepted.
      * destruct (weight_delay rng1 iter.1 (tgt_pos tgt) source)
          as [[w d] rng2].
        destruct (IH rng2 (log ++ [mkConnection iter.2 (tgt_gid tgt)
                                     tgt_thread d w]))
          as (new & Hlog & Hsub & Hall & Hfor).
        exists (mkConnection iter.2 (tgt_gid tgt) tgt_thread d w :: new).
        rewrite Hlog, <- app_assoc. simpl. repeat split.
        -- by apply sublist_skip.
        -- intros Hwk. unfold endpoints at 1. simpl. f_equal. by apply Hall.
        -- by constructor.
      * destruct (IH rng1 log) as (new & Hlog & Hsub & Hall & Hfor).
        exists new. repeat split; try done.
        -- by apply sublist_cons.
        -- intros ->. by injection Hacc.
Qed.

Lemma thread_targets_cons (is_proxy : Z → Z → bool) (thread_id : Z)
    (tgt : target_node Pos) (rest : list (target_node Pos)) :
  thread_targets is_proxy thread_id (tgt :: rest)
  = if is_proxy (tgt_gid tgt) thread_id
    then thread_targets is_proxy thread_id rest
    else tgt :: thread_targets is_proxy thread_id rest.
Proof.
  unfold thread_targets. rewrite filter_cons.
  destruct (is_proxy (tgt_gid tgt) thread_id);
    destruct (decide _); done.
Qed.

End connect_facts.

(** X11.  The body a thread runs in [target_driven_connect_] only adds
    connections: the (source, target) pairs it adds are, in order, a
    sublist of the pairs of every target that is no proxy on the thread
    with the admissible elements of the target's pool (the masked layer
    anchored at the target, or all positions), each pair at most once per
    occurrence in the pool; without a kernel they are exactly these pairs.
    Every connection is made on the thread, and with autapses disallowed no
    node is connected to itself. *)
Theorem target_driven_connects_pool {Pos Rng Val : Type}
    `{Draws Pos Rng Val} (allow_autapses without_kernel : bool)
    (mask : option (Pos → list (Pos * Z)))
    (global_positions : list (Pos * Z)) (is_proxy : Z → Z → bool)
    (target_gc : list (target_node Pos)) (thread_id : Z)
    (rng : Rng) (log : list (connection Val)) :
  ∃ new,
    (target_driven_connect_ allow_autapses without_kernel mask
       global_positions is_proxy target_gc thread_id rng log).2 = log ++ new
    ∧ endpoints <$> new
        `sublist_of`
        (thread_targets is_proxy thread_id target_gc
         ≫= λ tgt, pool_pairs allow_autapses
                     (pool_range mask global_positions (tgt_pos tgt)) tgt)
    ∧ (without_kernel = true →
       endpoints <$> new
       = thread_targets is_proxy thread_id target_gc
         ≫= λ tgt, pool_pairs allow_autapses
                     (pool_range mask global_positions (tgt_pos tgt)) tgt)
    ∧ Forall (λ c, conn_thread c = thread_id) new
    ∧ (allow_autapses = false →
       Forall (λ c, conn_source c ≠ conn_target c) new).
Proof.
  assert (∃ new,
    (target_driven_connect_ allow_autapses without_kernel mask
       global_positions is_proxy target_gc thread_id rng log).2 = log ++ new
    ∧ endpoints <$> new
        `sublist_of`
        (thread_targets is_proxy thread_id target_gc
         ≫= λ tgt, pool_pairs allow_autapses
                     (pool_range mask global_positions (tgt_pos tgt)) tgt)
    ∧ (without_kernel = true →
       endpoints <$> new
       = thread_targets is_proxy thread_id target_gc
         ≫= λ tgt, pool_pairs allow_autapses
                     (pool_range mask global_positions (tgt_pos tgt)) tgt)
    ∧ Forall (λ c, conn_thread c = thread_id) new) as Hmain.
  { unfold target_driven_connect_.
    revert rng log. induction target_gc as [|tgt rest IH]; intros rng log.
    - exists []. simpl. rewrite app_nil_r. repeat split; try done.
    - simpl. rewrite thread_targets_cons.
      destruct (is_proxy (tgt_gid tgt) thread_id); [apply IH|].
      destruct (connect_to_target_spec allow_autapses without_kernel
                  (pool_range mask global_positions (tgt_pos tgt)) tgt
                  thread_id SourceLayer rng log)
        as (new1 & Hlog1 & Hsub1 & Hall1 & Hthr1).
      destruct (connect_to_target_ allow_autapses without_kernel
                  (pool_range mask global_positions (tgt_pos tgt)) tgt
                  thread_id SourceLayer rng log) as [rng1 log1] eqn:Hc.
      simpl in Hlog1. subst log1.
      destruct (IH rng1 (log ++ new1)) as (new2 & Hlog2 & Hsub2 & Hall2 & Hthr2).
      exists (new1 ++ new2). rewrite Hlog2, <- app_assoc.
      rewrite fmap_app. simpl. repeat split.
      + by apply sublist_app.
      + intros Hwk. by rewrite Hall1, Hall2.
      + by apply Forall_app. }
  destruct Hmain as (new & Hlog & Hsub & Hall & Hthr).
  exists new. repeat split; try done.
  intros ->. apply Forall_forall. intros c Hc.
  assert (endpoints c ∈ endpoints <$> new) as Hin
    by (apply list_elem_of_fmap; eauto).
  eapply elem_of_sublist in Hin; [|exact Hsub].
  apply list_elem_of_bind in Hin as (tgt & Hp & _).
  unfold pool_pairs in Hp. apply list_elem_of_fmap in Hp as (p & Heq & Hp).
  apply admissible_no_autapse in Hp. unfold endpoints in Heq.
  injection Heq as -> ->. done.
Qed.

Section convergent_facts.
Context {Pos Rng Val : Type} `{Draws Pos Rng Val}.
Variables (lottery : option (list Val))
  (autapse_check allow_autapses allow_multapses : bool)
  (positions : list (Pos * Z)) (tgt : target_node Pos) (target_thread : Z)
  (log : list (connection Val)).

Local Abbreviation inv :=
  (convergent_inv autapse_check allow_autapses allow_multapses positions tgt
     target_thread log).
Local Abbreviation body :=
  (convergent_draw lottery autapse_check allow_autapses allow_multapses
     positions tgt target_thread).

Lemma vec_at_set_eq {A : Type} (v v' : list A) (i : Z) (x : A) :
  vec_set v i x = Some v' → vec_at v' i = Some x.
Proof.
  unfold vec_set, vec_at. case_bool_decide as Hi; [|done].
  intros [= <-]. rewrite bool_decide_eq_true_2 by lia.
  apply list_lookup_insert_eq. lia.
Qed.

Lemma vec_at_set_other {A : Type} (v v' : list A) (i j : Z) (x y : A) :
  vec_set v i x = Some v' → vec_at v j = Some y → i ≠ j → vec_at v' j = Some y.
Proof.
  unfold vec_set, vec_at. case_bool_decide as Hi; [|done].
  intros [= <-]. case_bool_decide as Hj; [|done]. intros Hy Hne.
  rewrite list_lookup_insert_ne by lia. done.
Qed.

Lemma vec_set_length {A : Type} (v v' : list A) (i : Z) (x : A) :
  vec_set v i x = Some v' → length v' = length v.
Proof.
  unfold vec_set. case_bool_decide; [|done]. intros [= <-].
  apply length_insert.
Qed.

Lemma convergent_draw_rejected (i : Z) (s : draw Rng Val) (rng : Rng) :
  inv i s → inv i (mkDraw (d_selected s) rng (d_log s) (d_ids s)).
Proof. done. Qed.

Lemma convergent_draw_connected (i : Z) (s s' : draw Rng Val) :
  inv i s → body s = Connected s' → inv (i + 1) s'.
Proof.
  intros (new & Hlog & Hlen & Hfrom & Hsel & Hids & Hnd & Hauto).
  unfold convergent_draw.
  destruct (match lottery with Some _ => _ | None => _ end)
    as [random_id rng].
  destruct (if allow_multapses then Some false else _) as [[|]|] eqn:Hm;
    [done| |done].
  destruct (vec_at positions random_id) as [[source_pos source_id]|] eqn:Hp;
    [|done].
  destruct (autapse_check && negb allow_autapses
            && bool_decide (source_id = tgt_gid tgt)) eqn:Ha; [done|].
  destruct (weight_delay rng source_pos (tgt_pos tgt) SourceLayer)
    as [[w d] rng'].
  destruct (vec_set (d_selected s) random_id true) as [selected|] eqn:Hset;
    [|done].
  intros [= <-]. simpl.
  exists (new ++ [mkConnection source_id (tgt_gid tgt) target_thread d w]).
  rewrite Hlog, app_assoc, length_app. simpl.
  split; [done|]. split; [lia|].
  split.
  { apply Forall2_app; [done|]. constructor; [|constructor].
    split; [|done]. by exists source_pos. }
  split; [by rewrite (vec_set_length _ _ _ _ Hset)|].
  split.
  { apply Forall_app. split.
    - eapply Forall_impl; [exact Hids|]. intros id Hid. simpl in Hid.
      destruct (decide (random_id = id)) as [->|Hne].
      + by eapply vec_at_set_eq.
      + by eapply vec_at_set_other.
    - constructor; [|constructor]. by eapply vec_at_set_eq. }
  split.
  { intros ->. apply NoDup_app. split; [by apply Hnd|]. split.
    - intros id Hid [->|Hin]%elem_of_cons; [|by apply not_elem_of_nil in Hin].
      rewrite Forall_forall in Hids. apply Hids in Hid. congruence.
    - apply NoDup_singleton. }
  intros -> ->. apply Forall_app. split; [by apply Hauto|].
  constructor; [|constructor]. simpl in *.
  by apply bool_decide_eq_false in Ha.
Qed.

Lemma convergent_draws_inv (fuel : nat) (n i : Z) (s : draw Rng Val) :
  inv i s → i ≤ n →
  match convergent_draws fuel lottery autapse_check allow_autapses
          allow_multapses positions tgt target_thread n i s with
  | Done s' => inv n s'
  | Starved s' => ∃ i', i ≤ i' < n ∧ inv i' s'
  | Thrown _ _ => False
  | OutOfBounds => True
  end.
Proof.
  revert i s. induction fuel as [|fuel IH]; intros i s Hinv Hle; simpl.
  - case_bool_decide as Hlt.
    + exists i. split; [lia|done].
    + by replace n with i by lia.
  - case_bool_decide as Hlt; [|by replace n with i by lia].
    destruct (body s) as [rng|s'|] eqn:Hb; [| |done].
    + specialize (IH i _ (convergent_draw_rejected i s rng Hinv) Hle).
      destruct (convergent_draws fuel _ _ _ _ _ _ _ _ _ _); try done.
    + specialize (IH (i + 1) s' (convergent_draw_connected i s s' Hinv Hb)
                    ltac:(lia)).
      destruct (convergent_draws fuel _ _ _ _ _ _ _ _ _ _); try done.
      destruct IH as (i' & Hi' & Hinv'). exists i'. split; [lia|done].
Qed.

End convergent_facts.

Section convergent_target_facts.
Context {Pos Rng Val : Type} `{Draws Pos Rng Val}.

Lemma to_int_small (x : Z) : - 2 ^ 31 ≤ x ≤ INT_MAX → to_int x = x.
Proof.
  unfold to_int, INT_MAX. intros Hx.
  rewrite Z.mod_small by lia. lia.
Qed.

Lemma to_long_small (x : Z) : - 2 ^ 63 ≤ x ≤ LONG_MAX → to_long x = x.
Proof.
  unfold to_long, LONG_MAX. intros Hx.
  rewrite Z.mod_small by lia. lia.
Qed.

Lemma convergent_inv_start (autapse_check allow_autapses allow_multapses : bool)
    (positions : list (Pos * Z)) (tgt : target_node Pos) (target_thread : Z)
    (rng : Rng) (log : list (connection Val)) :
  convergent_inv autapse_check allow_autapses allow_multapses positions tgt
    target_thread log 0
    (mkDraw (replicate (length positions) false) rng log []).
Proof.
  exists []. simpl. rewrite app_nil_r, length_replicate.
  repeat split; try done; try constructor.
Qed.

Lemma convergent_target_outcome (fuel : nat)
    (masked with_kernel allow_autapses allow_multapses : bool)
    (number_of_connections_ : Z) (positions : list (Pos * Z))
    (tgt : target_node Pos) (target_thread : Z)
    (rng : Rng) (log : list (connection Val)) :
  1 ≤ number_of_connections_ ≤ INT_MAX →
  match convergent_target fuel masked with_kernel allow_autapses
          allow_multapses number_of_connections_ positions tgt target_thread
          rng log with
  | Done s =>
      not_enough_sources allow_autapses allow_multapses positions
        (tgt_gid tgt) number_of_connections_ = false
      ∧ convergent_inv (negb (masked && negb with_kernel)) allow_autapses
          allow_multapses positions tgt target_thread log
          number_of_connections_ s
  | Starved s =>
      not_enough_sources allow_autapses allow_multapses positions
        (tgt_gid tgt) number_of_connections_ = false
      ∧ ∃ i, 0 ≤ i < number_of_connections_
             ∧ convergent_inv (negb (masked && negb with_kernel))
                 allow_autapses allow_multapses positions tgt target_thread
                 log i s
  | Thrown e s =>
      not_enough_sources allow_autapses allow_multapses positions
        (tgt_gid tgt) number_of_connections_ = true
      ∧ e = KernelException (tgt_gid tgt) ∧ d_log s = log
  | OutOfBounds =>
      not_enough_sources allow_autapses allow_multapses positions
        (tgt_gid tgt) number_of_connections_ = false
  end.
Proof.
  intros HN. unfold convergent_target.
  rewrite to_int_small by (unfold INT_MAX in *; lia).
  destruct (collect_probabilities positions (tgt_pos tgt) rng)
    as [probabilities rng'].
  destruct (not_enough_sources allow_autapses allow_multapses positions
              (tgt_gid tgt) number_of_connections_) eqn:Hshort.
  - destruct masked, with_kernel; done.
  - destruct masked, with_kernel; simpl.
    + pose proof (convergent_draws_inv (Some probabilities) true
                    allow_autapses allow_multapses positions tgt
                    target_thread log fuel number_of_connections_ 0 _
                    (convergent_inv_start _ _ _ _ _ _ rng' log)
                    ltac:(lia)) as Hl.
      destruct (convergent_draws _ _ _ _ _ _ _ _ _ _ _); done.
    + pose proof (convergent_draws_inv None false
                    allow_autapses allow_multapses positions tgt
                    target_thread log fuel number_of_connections_ 0 _
                    (convergent_inv_start _ _ _ _ _ _ rng log)
                    ltac:(lia)) as Hl.
      destruct (convergent_draws _ _ _ _ _ _ _ _ _ _ _); done.
    + pose proof (convergent_draws_inv (Some probabilities) true
                    allow_autapses allow_multapses positions tgt
                    target_thread log fuel number_of_connections_ 0 _
                    (convergent_inv_start _ _ _ _ _ _ rng' log)
                    ltac:(lia)) as Hl.
      destruct (convergent_draws _ _ _ _ _ _ _ _ _ _ _); done.
    + pose proof (convergent_draws_inv None true
                    allow_autapses allow_multapses positions tgt
                    target_thread log fuel number_of_connections_ 0 _
                    (convergent_inv_start _ _ _ _ _ _ rng log)
                    ltac:(lia)) as Hl.
      destruct (convergent_draws _ _ _ _ _ _ _ _ _ _ _); done.
Qed.

End convergent_target_facts.

(** X12.  When the selection of [convergent_connect_] for one target
    returns, it has added exactly [number_of_connections_] connections, all
    to the target on the target's thread, each from the source at the
    position its draw indexed; with multapses disallowed no index was
    accepted twice; with autapses disallowed none of the connections is an
    autapse in the three branches that test for it (all but mask without
    kernel). *)
Theorem convergent_target_connects {Pos Rng Val : Type}
    `{Draws Pos Rng Val} (fuel : nat)
    (masked with_kernel allow_autapses allow_multapses : bool)
    (number_of_connections_ : Z) (positions : list (Pos * Z))
    (tgt : target_node Pos) (target_thread : Z)
    (rng : Rng) (log : list (connection Val)) (s : draw Rng Val) :
  1 ≤ number_of_connections_ ≤ INT_MAX →
  convergent_target fuel masked with_kernel allow_autapses allow_multapses
    number_of_connections_ positions tgt target_thread rng log = Done s →
  ∃ new,
    d_log s = log ++ new
    ∧ Z.of_nat (length new) = number_of_connections_
    ∧ Forall2 (drawn_from positions (tgt_gid tgt) target_thread)
        (d_ids s) new
    ∧ (allow_multapses = false → NoDup (d_ids s))
    ∧ (masked && negb with_kernel = false → allow_autapses = false →
       Forall (λ c, conn_source c ≠ conn_target c) new).
Proof.
  intros HN Hdone.
  pose proof (convergent_target_outcome fuel masked with_kernel
                allow_autapses allow_multapses number_of_connections_
                positions tgt target_thread rng log HN) as Hout.
  rewrite Hdone in Hout.
  destruct Hout as (_ & new & Hlog & Hlen & Hfrom & _ & _ & Hnd & Hauto).
  exists new. repeat split; try done.
  intros Hb. apply Hauto. by rewrite Hb.
Qed.

Lemma convergent_target_connects_witness :
  ∃ s,
    convergent_target 10 false false false false 2 three_positions
      example_target 0 [0; 1; 2] [] = Done s
    ∧ ∃ new,
        d_log s = [] ++ new
        ∧ Z.of_nat (length new) = 2
        ∧ Forall2 (drawn_from three_positions (tgt_gid example_target) 0)
            (d_ids s) new
        ∧ (false = false → NoDup (d_ids s))
        ∧ (false && negb false = false → false = false →
           Forall (λ c, conn_source c ≠ conn_target c) new).
Proof.
  eexists. split; [reflexivity|].
  apply (convergent_target_connects 10 false false false false 2
           three_positions example_target 0 [0; 1; 2] []).
  - unfold INT_MAX. lia.
  - reflexivity.
Defined.

Section counting.
Context {A : Type} (P : A → Prop) `{∀ x, Decision (P x)}.



End counting.



Lemma example_draws_in_range : draws_in_range Z (list Z) Z.
Proof.
  split.
  - intros rng n Hn. destruct rng as [|x rest]; simpl; [lia|].
    apply Z.mod_pos_bound. lia.
  - intros probabilities rng Hne.
    assert (0 < Z.of_nat (length probabilities))
      by (destruct probabilities; [done|simpl; lia]).
    destruct rng as [|x rest]; simpl; [lia|].
    apply Z.mod_pos_bound. lia.
Qed.

Section convergent_return.
Context {Pos Rng Val : Type} `{Draws Pos Rng Val}.

Lemma length_collect_probabilities (positions : list (Pos * Z))
    (target_pos : Pos) (rng : Rng) :
  length (collect_probabilities positions target_pos rng).1
  = length positions.
Proof.
  unfold collect_probabilities.
  assert (∀ (s : list Val * Rng),
            length (foldl (λ s iter,
                      let '(p, rng') :=
                        kernel_value s.2 iter.1 target_pos SourceLayer in
                      (s.1 ++ [p], rng')) s positions).1
            = (length s.1 + length positions)%nat) as Hgen.
  { induction positions as [|iter rest IH]; intros s; simpl; [lia|].
    rewrite IH.
    destruct (kernel_value s.2 iter.1 target_pos SourceLayer) as [p rng'].
    simpl. rewrite length_app. simpl. lia. }
  by rewrite Hgen.
Qed.

Lemma convergent_draws_without_rejection (fuel : nat)
    (lottery : option (list Val)) (autapse_check allow_autapses : bool)
    (positions : list (Pos * Z)) (tgt : target_node Pos)
    (target_thread : Z) (n i : Z) (s : draw Rng Val) :
  draws_in_range Pos Rng Val →
  autapse_check && negb allow_autapses = false →
  positions ≠ [] →
  (∀ probabilities, lottery = Some probabilities →
                    length probabilities = length positions) →
  length (d_selected s) = length positions →
  (Z.to_nat (n - i) ≤ fuel)%nat →
  ∃ s', convergent_draws fuel lottery autapse_check allow_autapses true
          positions tgt target_thread n i s = Done s'.
Proof.
  intros [Hul Hlot] Hcheck Hne Hprob. revert i s.
  induction fuel as [|fuel IH]; intros i s Hsel Hfuel; simpl.
  - rewrite bool_decide_eq_false_2 by lia. by exists s.
  - case_bool_decide as Hlt; [|by exists s].
    unfold convergent_draw.
    assert (0 < Z.of_nat (length positions)) as Hpos
      by (destruct positions; [done|simpl; lia]).
    assert (0 ≤ (match lottery with
                 | Some probabilities => get_random_id probabilities (d_rng s)
                 | None => ulrand (d_rng s) (Z.of_nat (length positions))
                 end).1 < Z.of_nat (length positions)) as Hid.
    { destruct lottery as [probabilities|].
      - rewrite <- (Hprob probabilities eq_refl). apply Hlot.
        intros ->. specialize (Hprob [] eq_refl). simpl in Hprob. lia.
      - by apply Hul. }
    destruct (match lottery with Some _ => _ | None => _ end)
      as [random_id rng]. simpl in Hid.
    destruct (vec_at positions random_id) as [[source_pos source_id]|] eqn:Hp.
    2:{ unfold vec_at in Hp. rewrite bool_decide_eq_true_2 in Hp by lia.
        apply lookup_ge_None in Hp. lia. }
    rewrite Hcheck. simpl.
    destruct (weight_delay rng source_pos (tgt_pos tgt) SourceLayer)
      as [[w d] rng'].
    unfold vec_set. rewrite bool_decide_eq_true_2 by lia.
    apply IH; simpl; [by rewrite length_insert|lia].
Qed.

End convergent_return.

(** X14.  With multapses allowed, and autapses allowed or in the branch
    that does not test for them (mask without kernel), no draw is rejected:
    if the generators keep their range and the test before the draws
    passes, the selection for one target returns after
    [number_of_connections_] iterations. *)
Theorem convergent_target_returns {Pos Rng Val : Type}
    `{Draws Pos Rng Val} (fuel : nat)
    (masked with_kernel allow_autapses : bool)
    (number_of_connections_ : Z) (positions : list (Pos * Z))
    (tgt : target_node Pos) (target_thread : Z)
    (rng : Rng) (log : list (connection Val)) :
  draws_in_range Pos Rng Val →
  1 ≤ number_of_connections_ ≤ INT_MAX →
  not_enough_sources allow_autapses true positions (tgt_gid tgt)
    number_of_connections_ = false →
  allow_autapses = true ∨ (masked = true ∧ with_kernel = false) →
  (Z.to_nat number_of_connections_ ≤ fuel)%nat →
  ∃ s, convergent_target fuel masked with_kernel allow_autapses true
         number_of_connections_ positions tgt target_thread rng log
       = Done s.
Proof.
  intros Hrange HN Hguard Hcase Hfuel. unfold convergent_target.
  rewrite Hguard. rewrite to_int_small by (unfold INT_MAX in *; lia).
  assert (positions ≠ []) as Hne.
  { intros ->. done. }
  pose proof (length_collect_probabilities positions (tgt_pos tgt) rng)
    as Hlen.
  destruct (collect_probabilities positions (tgt_pos tgt) rng)
    as [probabilities rng']. simpl in Hlen.
  destruct masked, with_kernel;
    apply convergent_draws_without_rejection; simpl;
    try done; try (rewrite length_replicate; done); try lia;
    try (by intros ? [= <-]);
    destruct Hcase as [->|[? ?]]; done.
Qed.

Lemma convergent_target_returns_witness :
  ∃ s, convergent_target 2 true false false true 2 three_positions
         example_target 0 [0; 1] [] = Done s.
Proof.
  apply (convergent_target_returns 2 true false false 2 three_positions
           example_target 0 [0; 1] []).
  - apply example_draws_in_range.
  - unfold INT_MAX. lia.
  - reflexivity.
  - right. split; reflexivity.
  - simpl. lia.
Defined.

Section convergent_log.
Context {Pos Rng Val : Type} `{Draws Pos Rng Val}.

Lemma convergent_draws_extends (fuel : nat) (lottery : option (list Val))
    (autapse_check allow_autapses allow_multapses : bool)
    (positions : list (Pos * Z)) (tgt : target_node Pos)
    (target_thread : Z) (n i : Z) (s : draw Rng Val) :
  match convergent_draws fuel lottery autapse_check allow_autapses
          allow_multapses positions tgt target_thread n i s with
  | Done s' | Starved s' => ∃ more, d_log s' = d_log s ++ more
  | Thrown _ _ => False
  | OutOfBounds => True
  end.
Proof.
  revert i s. induction fuel as [|fuel IH]; intros i s; simpl.
  - case_bool_decide; exists []; by rewrite app_nil_r.
  - case_bool_decide; [|exists []; by rewrite app_nil_r].
    destruct (convergent_draw _ _ _ _ _ _ _ s) as [rng|s'|] eqn:Hb; [| |done].
    + apply (IH i (mkDraw (d_selected s) rng (d_log s) (d_ids s))).
    + assert (∃ c, d_log s' = d_log s ++ [c]) as [c Hc].
      { unfold convergent_draw in Hb.
        destruct (match lottery with Some _ => _ | None => _ end)
          as [random_id rng].
        destruct (if allow_multapses then Some false else _) as [[|]|];
          [done| |done].
        destruct (vec_at positions random_id)
          as [[source_pos source_id]|]; [|done].
        destruct (autapse_check && negb allow_autapses
                  && bool_decide (source_id = tgt_gid tgt)); [done|].
        destruct (weight_delay rng source_pos (tgt_pos tgt) SourceLayer)
          as [[w d] rng'].
        destruct (vec_set (d_selected s) random_id true); [|done].
        injection Hb as <-. simpl. eauto. }
      specialize (IH (i + 1) s').
      destruct (convergent_draws fuel _ _ _ _ _ _ _ _ _ _); try done.
      * destruct IH as [more ->]. rewrite Hc, <- app_assoc. eauto.
      * destruct IH as [more ->]. rewrite Hc, <- app_assoc. eauto.
Qed.

End convergent_log.

(** X15.  The draw loop of the branch mask without kernel has no test of
    [source_id] against [target_id]: with autapses disallowed, if the first
    draw indexes the position of the target itself, the first connection
    made is from the target to itself, however the call goes on. *)
Theorem convergent_masked_without_kernel_autapse {Pos Rng Val : Type}
    `{Draws Pos Rng Val} (fuel : nat) (allow_multapses : bool)
    (number_of_connections_ : Z) (positions : list (Pos * Z))
    (tgt : target_node Pos) (target_thread : Z)
    (rng rng1 : Rng) (log : list (connection Val))
    (random_id : Z) (source_pos : Pos) :
  1 ≤ number_of_connections_ ≤ INT_MAX →
  not_enough_sources false allow_multapses positions (tgt_gid tgt)
    number_of_connections_ = false →
  ulrand rng (Z.of_nat (length positions)) = (random_id, rng1) →
  vec_at positions random_id = Some (source_pos, tgt_gid tgt) →
  match convergent_target (S fuel) true false false allow_multapses
          number_of_connections_ positions tgt target_thread rng log with
  | Done s | Starved s =>
      ∃ c, d_log s !! length log = Some c
           ∧ conn_source c = tgt_gid tgt ∧ conn_target c = tgt_gid tgt
  | Thrown _ _ => False
  | OutOfBounds => True
  end.
Proof.
  intros HN Hguard Hdraw Hpos. unfold convergent_target.
  rewrite Hguard. rewrite to_int_small by (unfold INT_MAX in *; lia).
  cbn [convergent_draws]. rewrite bool_decide_eq_true_2 by lia.
  unfold convergent_draw at 1. cbn [d_rng d_selected d_log d_ids].
  rewrite Hdraw, Hpos.
  assert (0 ≤ random_id < Z.of_nat (length positions)) as Hid.
  { unfold vec_at in Hpos. case_bool_decide; [|done].
    apply lookup_lt_Some in Hpos. lia. }
  assert (vec_at (replicate (length positions) false) random_id = Some false)
    as Hsel.
  { unfold vec_at. rewrite bool_decide_eq_true_2 by lia.
    apply lookup_replicate_2. lia. }
  rewrite Hsel.
  replace (if allow_multapses then Some false else Some false)
    with (Some false) by (by destruct allow_multapses).
  simpl.
  destruct (weight_delay rng1 source_pos (tgt_pos tgt) SourceLayer)
    as [[w d] rng2].
  unfold vec_set. rewrite length_replicate.
  rewrite bool_decide_eq_true_2 by lia.
  set (c := mkConnection (tgt_gid tgt) (tgt_gid tgt) target_thread d w).
  set (s1 := mkDraw _ rng2 (log ++ [c]) _).
  pose proof (convergent_draws_extends fuel None false false allow_multapses
                positions tgt target_thread number_of_connections_ (0 + 1)
                s1) as Hext.
  destruct (convergent_draws fuel None false false allow_multapses
              positions tgt target_thread number_of_connections_ (0 + 1) s1)
    as [s|e s|s|]; try done.
  - destruct Hext as [more ->]. exists c. simpl.
    rewrite <- app_assoc. rewrite lookup_app_r, Nat.sub_diag by lia. done.
  - destruct Hext as [more ->]. exists c. simpl.
    rewrite <- app_assoc. rewrite lookup_app_r, Nat.sub_diag by lia. done.
Qed.

Lemma convergent_masked_without_kernel_autapse_witness :
  match convergent_target 1 true false false true 1 three_positions
          example_target 0 [0] [] with
  | Done s | Starved s =>
      ∃ c, d_log s !! length ([] : list (connection Z)) = Some c
           ∧ conn_source c = tgt_gid example_target
           ∧ conn_target c = tgt_gid example_target
  | Thrown _ _ => False
  | OutOfBounds => True
  end.
Proof.
  apply (convergent_masked_without_kernel_autapse 0 true 1 three_positions
           example_target 0 [0] [] [] 0 0).
  - unfold INT_MAX. lia.
  - reflexivity.
  - reflexivity.
  - reflexivity.
Defined.

Section convergent_loop_facts.
Context {Pos Rng Val : Type} `{Draws Pos Rng Val}.

Lemma fmap_constant_replicate {A B : Type} (f : A → B) (b : B) (l : list A) :
  Forall (λ a, f a = b) l → f <$> l = replicate (length l) b.
Proof.
  induction 1 as [|a l Ha _ IH]; [done|].
  rewrite fmap_cons, Ha, IH. done.
Qed.

Lemma convergent_draws_cast (lottery : option (list Val))
    (autapse_check allow_autapses allow_multapses : bool)
    (positions : list (Pos * Z)) (tgt : target_node Pos) (target_thread : Z)
    (log : list (connection Val)) (fuel : nat) (n : Z) (s : draw Rng Val) :
  convergent_inv autapse_check allow_autapses allow_multapses positions tgt
    target_thread log 0 s →
  match convergent_draws fuel lottery autapse_check allow_autapses
          allow_multapses positions tgt target_thread n 0 s with
  | Done s' =>
      convergent_inv autapse_check allow_autapses allow_multapses positions
        tgt target_thread log (Z.max 0 n) s'
  | Starved s' =>
      ∃ i, convergent_inv autapse_check allow_autapses allow_multapses
             positions tgt target_thread log i s'
  | Thrown _ _ => False
  | OutOfBounds => True
  end.
Proof.
  intros Hinv. destruct (decide (0 ≤ n)) as [Hn|Hn].
  - pose proof (convergent_draws_inv lottery autapse_check allow_autapses
                  allow_multapses positions tgt target_thread log fuel n 0 s
                  Hinv Hn) as Hl.
    rewrite Z.max_r by done.
    destruct (convergent_draws _ _ _ _ _ _ _ _ _ _ _); try done.
    destruct Hl as (i & _ & Hi). by exists i.
  - rewrite Z.max_l by lia.
    destruct fuel; simpl; rewrite bool_decide_eq_false_2 by lia; done.
Qed.

Lemma convergent_target_outcome_cast (fuel : nat)
    (masked with_kernel allow_autapses allow_multapses : bool)
    (number_of_connections_ : Z) (positions : list (Pos * Z))
    (tgt : target_node Pos) (target_thread : Z)
    (rng : Rng) (log : list (connection Val)) :
  match convergent_target fuel masked with_kernel allow_autapses
          allow_multapses number_of_connections_ positions tgt target_thread
          rng log with
  | Done s =>
      ∃ new, d_log s = log ++ new
             ∧ length new = Z.to_nat (to_int number_of_connections_)
             ∧ Forall (λ c, conn_target c = tgt_gid tgt) new
  | Starved s => ∃ new, d_log s = log ++ new
  | Thrown e s => e = KernelException (tgt_gid tgt) ∧ d_log s = log
  | OutOfBounds => True
  end.
Proof.
  assert (∀ lottery autapse_check rng',
            match convergent_draws fuel lottery autapse_check allow_autapses
                    allow_multapses positions tgt target_thread
                    (to_int number_of_connections_) 0
                    (mkDraw (replicate (length positions) false) rng' log [])
            with
            | Done s =>
                ∃ new, d_log s = log ++ new
                       ∧ length new = Z.to_nat (to_int number_of_connections_)
                       ∧ Forall (λ c, conn_target c = tgt_gid tgt) new
            | Starved s => ∃ new, d_log s = log ++ new
            | Thrown e s => e = KernelException (tgt_gid tgt) ∧ d_log s = log
            | OutOfBounds => True
            end) as Hloop.
  { intros lottery autapse_check rng'.
    pose proof (convergent_draws_cast lottery autapse_check allow_autapses
                  allow_multapses positions tgt target_thread log fuel
                  (to_int number_of_connections_) _
                  (convergent_inv_start autapse_check allow_autapses
                     allow_multapses positions tgt target_thread rng' log))
      as Hl.
    destruct (convergent_draws _ _ _ _ _ _ _ _ _ _ _) as [s|e s|s|];
      try done.
    - destruct Hl as (new & Hlog & Hlen & Hfrom & _). exists new.
      split; [done|]. split; [lia|].
      apply Forall_forall. intros c Hc.
      apply list_elem_of_lookup in Hc as [j Hj].
      destruct (Forall2_lookup_r _ _ _ _ _ Hfrom Hj) as (id & _ & _ & Ht & _).
      done.
    - destruct Hl as (i & new & Hlog & _). by exists new. }
  unfold convergent_target.
  destruct (collect_probabilities positions (tgt_pos tgt) rng)
    as [probabilities rng'].
  destruct (not_enough_sources allow_autapses allow_multapses positions
              (tgt_gid tgt) number_of_connections_).
  - destruct masked, with_kernel; done.
  - destruct masked, with_kernel; apply Hloop.
Qed.

Lemma convergent_targets_outcome (fuel : nat)
    (with_kernel allow_autapses allow_multapses : bool)
    (number_of_connections_ : Z) (mask : option (Pos → list (Pos * Z)))
    (global_positions : list (Pos * Z)) (get_thread : Z → Z)
    (targets : list (target_node Pos)) (rngs : Z → Rng)
    (log : list (connection Val)) :
  match convergent_targets fuel with_kernel allow_autapses allow_multapses
          number_of_connections_ mask global_positions get_thread targets
          rngs log with
  | Done (_, log') =>
      ∃ new, log' = log ++ new
             ∧ conn_target <$> new
               = fan_in (to_int number_of_connections_) targets
  | Thrown e (_, log') =>
      ∃ k tgt new,
        targets !! k = Some tgt ∧ e = KernelException (tgt_gid tgt)
        ∧ log' = log ++ new
        ∧ conn_target <$> new
          = fan_in (to_int number_of_connections_) (take k targets)
  | Starved (_, log') => ∃ new, log' = log ++ new
  | OutOfBounds => True
  end.
Proof.
  revert rngs log.
  induction targets as [|tgt rest IH]; intros rngs log; simpl.
  - exists []. by rewrite app_nil_r.
  - pose proof (convergent_target_outcome_cast fuel
                  (bool_decide (is_Some mask))
                  with_kernel allow_autapses allow_multapses
                  number_of_connections_
                  (pool_range mask global_positions (tgt_pos tgt)) tgt
                  (get_thread (tgt_gid tgt)) (rngs (get_thread (tgt_gid tgt)))
                  log) as Hout.
    destruct (convergent_target fuel (bool_decide (is_Some mask)) with_kernel
                allow_autapses allow_multapses number_of_connections_
                (pool_range mask global_positions (tgt_pos tgt)) tgt
                (get_thread (tgt_gid tgt)) (rngs (get_thread (tgt_gid tgt)))
                log) as [s|e s|s|]; [| | |done].
    + destruct Hout as (new1 & Hlog1 & Hlen1 & Hall).
      assert (conn_target <$> new1
              = replicate (Z.to_nat (to_int number_of_connections_))
                  (tgt_gid tgt)) as Htargets.
      { rewrite <- Hlen1. by apply fmap_constant_replicate. }
      specialize (IH (set_rng rngs (get_thread (tgt_gid tgt)) (d_rng s))
                    (d_log s)).
      destruct (convergent_targets fuel with_kernel allow_autapses
                  allow_multapses number_of_connections_ mask
                  global_positions get_thread rest _ (d_log s))
        as [[rngs' log']|e [rngs' log']|[rngs' log']|]; [| | |done].
      * destruct IH as (new2 & -> & Hnew2). exists (new1 ++ new2).
        rewrite Hlog1, <- app_assoc. split; [done|].
        rewrite fmap_app, Htargets, Hnew2. done.
      * destruct IH as (k & tgt' & new2 & Hk & -> & -> & Hnew2).
        exists (S k), tgt', (new1 ++ new2). split; [done|]. split; [done|].
        rewrite Hlog1, <- app_assoc. split; [done|].
        rewrite fmap_app, Htargets, Hnew2. done.
      * destruct IH as (new2 & ->). exists (new1 ++ new2).
        by rewrite Hlog1, <- app_assoc.
    + destruct Hout as (-> & ->). exists 0%nat, tgt, [].
      simpl. by rewrite app_nil_r.
    + destruct Hout as (new & ->). by exists new.
Qed.

End convergent_loop_facts.

(** X16.  [convergent_connect_]: with [number_of_connections_ < 1] it
    returns at once and changes nothing, also for targets without proxies.
    Otherwise it throws [IllegalConnection] before any connection or draw
    if the first target has no proxies; when it returns, every target got
    exactly [( int ) number_of_connections_] connections, in the order of
    the targets: that is [number_of_connections_] itself up to [INT_MAX],
    and none when the cast is not positive; when a later target has not
    enough sources it throws [KernelException] for that target and the
    connections of all targets before it stay made. *)
Theorem convergent_connect_outcome {Pos Rng Val : Type}
    `{Draws Pos Rng Val} (fuel : nat)
    (with_kernel allow_autapses allow_multapses : bool)
    (number_of_connections_ : Z) (first_has_proxies : bool)
    (mask : option (Pos → list (Pos * Z)))
    (global_positions : list (Pos * Z)) (get_thread : Z → Z)
    (targets : list (target_node Pos)) (rngs : Z → Rng)
    (log : list (connection Val)) :
  (number_of_connections_ < 1 →
   convergent_connect_ fuel with_kernel allow_autapses allow_multapses
     number_of_connections_ first_has_proxies mask global_positions
     get_thread targets rngs log = Done (rngs, log))
  ∧ (1 ≤ number_of_connections_ →
     match convergent_connect_ fuel with_kernel allow_autapses
             allow_multapses number_of_connections_ first_has_proxies mask
             global_positions get_thread targets rngs log with
     | Done (_, log') =>
         first_has_proxies = true
         ∧ ∃ new, log' = log ++ new
                  ∧ conn_target <$> new
                    = fan_in (to_int number_of_connections_) targets
     | Thrown e (rngs', log') =>
         (first_has_proxies = false ∧ e = IllegalConnection
          ∧ rngs' = rngs ∧ log' = log)
         ∨ (first_has_proxies = true
            ∧ ∃ k tgt new,
                targets !! k = Some tgt ∧ e = KernelException (tgt_gid tgt)
                ∧ log' = log ++ new
                ∧ conn_target <$> new
                  = fan_in (to_int number_of_connections_) (take k targets))
     | Starved (_, log') =>
         first_has_proxies = true ∧ ∃ new, log' = log ++ new
     | OutOfBounds => first_has_proxies = true
     end)
  ∧ (1 ≤ number_of_connections_ ≤ INT_MAX →
     to_int number_of_connections_ = number_of_connections_)
  ∧ (to_int number_of_connections_ ≤ 0 →
     fan_in (to_int number_of_connections_) targets = []).
Proof.
  unfold convergent_connect_. split; [|split; [|split]].
  - intros HN. by rewrite bool_decide_eq_true_2.
  - intros HN. rewrite bool_decide_eq_false_2 by lia.
    destruct first_has_proxies; simpl; [|by left].
    pose proof (convergent_targets_outcome fuel with_kernel allow_autapses
                  allow_multapses number_of_connections_ mask
                  global_positions get_thread targets rngs log) as Hout.
    destruct (convergent_targets fuel with_kernel allow_autapses
                allow_multapses number_of_connections_ mask global_positions
                get_thread targets rngs log)
      as [[rngs' log']|e [rngs' log']|[rngs' log']|]; try done.
    by right.
  - intros HN. apply to_int_small. unfold INT_MAX in *. lia.
  - intros Hn. unfold fan_in. rewrite Z2Nat.nonpos by done.
    induction targets as [|tgt rest IH]; [done|]. done.
Qed.

Lemma convergent_connect_outcome_witness :
  match convergent_connect_ 10 false false false 1 true None
          three_positions (λ _, 0) [mkTarget 5 0; mkTarget 7 1]
          (λ _, [1; 2]) ([] : list (connection Z)) with
  | Done (_, log') =>
      true = true
      ∧ ∃ new, log' = [] ++ new
               ∧ conn_target <$> new
                 = fan_in (to_int 1) [mkTarget 5 0; mkTarget 7 1]
  | Thrown e (rngs', log') =>
      (true = false ∧ e = IllegalConnection
       ∧ rngs' = (λ _, [1; 2]) ∧ log' = [])
      ∨ (true = true
         ∧ ∃ k tgt new,
             [mkTarget 5 0; mkTarget 7 1] !! k = Some tgt
             ∧ e = KernelException (tgt_gid tgt)
             ∧ log' = [] ++ new
             ∧ conn_target <$> new
               = fan_in (to_int 1) (take k [mkTarget 5 0; mkTarget 7 1]))
  | Starved (_, log') => true = true ∧ ∃ new, log' = [] ++ new
  | OutOfBounds => true = true
  end.
Proof.
  apply (proj1 (proj2 (convergent_connect_outcome 10 false false false 1
                         true None three_positions (λ _, 0)
                         [mkTarget 5 0; mkTarget 7 1] (λ _, [1; 2]) []))).
  lia.
Defined.

(** Beyond [INT_MAX] the cast wraps: with [number_of_connections_ = 2 ^ 32
    + 1] the call returns with one connection for the target, with
    [2 ^ 31] with none. *)
Example convergent_connect_wraps :
  (∃ rngs c,
     convergent_connect_ 10 false true true (2 ^ 32 + 1) true None
       three_positions (λ _, 0) [mkTarget 5 0] (λ _, [1; 2])
       ([] : list (connection Z)) = Done (rngs, [c]))
  ∧ (∃ rngs,
       convergent_connect_ 10 false true true (2 ^ 31) true None
         three_positions (λ _, 0) [mkTarget 5 0] (λ _, [1; 2])
         ([] : list (connection Z)) = Done (rngs, [])).
Proof. split; repeat eexists; reflexivity. Qed.

Section divergent_facts.
Context {Pos Rng Val : Type} `{Draws Pos Rng Val}.

Lemma find_targets_spec (allow_autapses with_kernel : bool)
    (masked_target : list (Pos * Z)) (source_pos : Pos) (source_id : Z)
    (rng : Rng) :
  let c := (find_targets allow_autapses with_kernel masked_target source_pos
              source_id rng).1 in
  cand_targets c = (admissible allow_autapses source_id masked_target).*2
  ∧ length (cand_weight_delay_pairs c) = length (cand_targets c)
  ∧ length (cand_probabilities c) = length (cand_targets c).
Proof.
  unfold find_targets.
  assert (∀ (s : candidates Val * Rng),
    let c := (foldl (λ s tgt_it,
           if negb allow_autapses && bool_decide (source_id = tgt_it.2)
           then s
           else
             let '(wd, rng1) :=
               weight_delay s.2 source_pos tgt_it.1 TargetLayer in
             let '(p, rng2) :=
               if with_kernel
               then kernel_value rng1 source_pos tgt_it.1 SourceLayer
               else (certain, rng1) in
             (mkCandidates (cand_targets s.1 ++ [tgt_it.2])
                (cand_weight_delay_pairs s.1 ++ [wd])
                (cand_probabilities s.1 ++ [p]), rng2)) s masked_target).1 in
    cand_targets c
    = cand_targets s.1 ++ (admissible allow_autapses source_id masked_target).*2
    ∧ (length (cand_weight_delay_pairs s.1) = length (cand_targets s.1) →
       length (cand_weight_delay_pairs c) = length (cand_targets c))
    ∧ (length (cand_probabilities s.1) = length (cand_targets s.1) →
       length (cand_probabilities c) = length (cand_targets c))) as Hgen.
  { induction masked_target as [|tgt_it rest IH]; intros s.
    - simpl. by rewrite app_nil_r.
    - cbn [foldl].
      destruct (negb allow_autapses && bool_decide (source_id = tgt_it.2))
        eqn:Hskip.
      + apply andb_true_iff in Hskip as [Ha Heq].
        apply bool_decide_eq_true in Heq. destruct allow_autapses; [done|].
        rewrite admissible_skip by done. apply IH.
      + rewrite admissible_keep.
        2:{ destruct allow_autapses; [done|]. simpl in *.
            apply bool_decide_eq_false in Hskip.
            apply bool_decide_eq_false. congruence. }
        destruct (weight_delay s.2 source_pos tgt_it.1 TargetLayer)
          as [wd rng1].
        destruct (if with_kernel then _ else _) as [p rng2].
        specialize (IH (mkCandidates (cand_targets s.1 ++ [tgt_it.2])
                          (cand_weight_delay_pairs s.1 ++ [wd])
                          (cand_probabilities s.1 ++ [p]), rng2)).
        simpl in IH. destruct IH as (Ht & Hw & Hp).
        split; [|split].
        * rewrite Ht, <- app_assoc. done.
        * intros Hl. apply Hw. rewrite !length_app. simpl. lia.
        * intros Hl. apply Hp. rewrite !length_app. simpl. lia. }
  specialize (Hgen (mkCandidates [] [] [], rng)). simpl in Hgen.
  destruct Hgen as (Ht & Hw & Hp). split; [done|]. split; auto.
Qed.

End divergent_facts.

Section divergent_loop_facts.
Context {Pos Rng Val : Type} `{Draws Pos Rng Val}.
Variables (allow_multapses : bool) (get_thread : Z → Z) (source_id : Z)
  (c : candidates Val).

Lemma divergent_draw_connected (is_local_gid : Z → bool)
    (log : list (connection Val)) (i : Z) (s s' : draw Rng Val) :
  divergent_inv allow_multapses is_local_gid get_thread source_id c log i s →
  divergent_draw allow_multapses is_local_gid get_thread source_id c s
  = Connected s' →
  divergent_inv allow_multapses is_local_gid get_thread source_id c log
    (i + 1) s'.
Proof.
  intros (Hlog & Hlen & Hsel & Hids & Hnd).
  unfold divergent_draw.
  destruct (get_random_id (cand_probabilities c) (d_rng s))
    as [random_id rng].
  destruct (if allow_multapses then Some false else _) as [[|]|] eqn:Hm;
    [done| |done].
  destruct (vec_set (d_selected s) random_id true) as [selected|] eqn:Hset;
    [|done].
  destruct (vec_at (cand_weight_delay_pairs c) random_id)
    as [target_weight_delay|] eqn:Hwd; [|done].
  destruct (vec_at (cand_targets c) random_id) as [target_id|] eqn:Ht;
    [|done].
  assert (divergent_connection is_local_gid get_thread source_id c random_id
          = if is_local_gid target_id
            then Some (mkConnection source_id target_id
                         (get_thread target_id) target_weight_delay.2
                         target_weight_delay.1)
            else None) as Hconn
    by (unfold divergent_connection; by rewrite Hwd, Ht).
  assert (Forall (λ id, vec_at selected id = Some true)
            (d_ids s ++ [random_id])) as Hids'.
  { apply Forall_app. split.
    - eapply Forall_impl; [exact Hids|]. intros id Hid. simpl in Hid.
      destruct (decide (random_id = id)) as [->|Hne].
      + by eapply vec_at_set_eq.
      + by eapply vec_at_set_other.
    - constructor; [|constructor]. by eapply vec_at_set_eq. }
  assert (allow_multapses = false → NoDup (d_ids s ++ [random_id])) as Hnd'.
  { intros ->. apply NoDup_app. split; [by apply Hnd|]. split.
    - intros id Hid [->|Hin]%elem_of_cons; [|by apply not_elem_of_nil in Hin].
      rewrite Forall_forall in Hids. apply Hids in Hid. congruence.
    - apply NoDup_singleton. }
  destruct (is_local_gid target_id) eqn:Hloc; simpl; intros [= <-];
    unfold divergent_inv; simpl;
    rewrite omap_app; simpl; rewrite Hconn, length_app; simpl.
  - split; [by rewrite Hlog, <- ?app_assoc, ?app_nil_r|].
    split; [lia|].
    split; [by rewrite (vec_set_length _ _ _ _ Hset)|]. done.
  - split; [by rewrite app_nil_r|].
    split; [lia|].
    split; [by rewrite (vec_set_length _ _ _ _ Hset)|]. done.
Qed.

Lemma divergent_draws_inv (is_local_gid : Z → bool)
    (log : list (connection Val)) (fuel : nat) (n i : Z)
    (s : draw Rng Val) :
  divergent_inv allow_multapses is_local_gid get_thread source_id c log i s →
  i ≤ n →
  match divergent_draws fuel allow_multapses is_local_gid get_thread
          source_id c n i s with
  | Done s' =>
      divergent_inv allow_multapses is_local_gid get_thread source_id c log
        n s'
  | Starved s' =>
      ∃ i', i ≤ i' < n
            ∧ divergent_inv allow_multapses is_local_gid get_thread
                source_id c log i' s'
  | Thrown _ _ => False
  | OutOfBounds => True
  end.
Proof.
  revert i s. induction fuel as [|fuel IH]; intros i s Hinv Hle; simpl.
  - case_bool_decide as Hlt.
    + exists i. split; [lia|done].
    + by replace n with i by lia.
  - case_bool_decide as Hlt; [|by replace n with i by lia].
    destruct (divergent_draw _ _ _ _ _ s) as [rng|s'|] eqn:Hb; [| |done].
    + specialize (IH i (mkDraw (d_selected s) rng (d_log s) (d_ids s))
                    Hinv Hle).
      destruct (divergent_draws fuel _ _ _ _ _ _ _ _); try done.
    + specialize (IH (i + 1) s'
                    (divergent_draw_connected _ _ i s s' Hinv Hb) ltac:(lia)).
      destruct (divergent_draws fuel _ _ _ _ _ _ _ _); try done.
      destruct IH as (i' & Hi' & Hinv'). exists i'. split; [lia|done].
Qed.

Lemma divergent_draw_same (local1 local2 : Z → bool)
    (s1 s2 : draw Rng Val) :
  same_draws s1 s2 →
  match divergent_draw allow_multapses local1 get_thread source_id c s1,
        divergent_draw allow_multapses local2 get_thread source_id c s2 with
  | Rejected rng1, Rejected rng2 => rng1 = rng2
  | Connected s1', Connected s2' => same_draws s1' s2'
  | BadIndex, BadIndex => True
  | _, _ => False
  end.
Proof.
  intros (Hsel & Hrng & Hids). unfold divergent_draw.
  rewrite Hsel, Hrng, Hids.
  destruct (get_random_id (cand_probabilities c) (d_rng s2))
    as [random_id rng].
  destruct (if allow_multapses then Some false else _) as [[|]|];
    [done| |done].
  destruct (vec_set (d_selected s2) random_id true) as [selected|]; [|done].
  destruct (vec_at (cand_weight_delay_pairs c) random_id); [|done].
  destruct (vec_at (cand_targets c) random_id) as [target_id|]; [|done].
  destruct (local1 target_id), (local2 target_id); done.
Qed.

Lemma divergent_draws_same (local1 local2 : Z → bool) (fuel : nat)
    (n i : Z) (s1 s2 : draw Rng Val) :
  same_draws s1 s2 →
  match divergent_draws fuel allow_multapses local1 get_thread source_id c
          n i s1,
        divergent_draws fuel allow_multapses local2 get_thread source_id c
          n i s2 with
  | Done s1', Done s2' => same_draws s1' s2'
  | Starved s1', Starved s2' => same_draws s1' s2'
  | OutOfBounds, OutOfBounds => True
  | _, _ => False
  end.
Proof.
  revert i s1 s2. induction fuel as [|fuel IH]; intros i s1 s2 Hs; simpl.
  - by case_bool_decide.
  - case_bool_decide; [|done].
    pose proof (divergent_draw_same local1 local2 s1 s2 Hs) as Hb.
    destruct (divergent_draw allow_multapses local1 _ _ _ s1)
      as [rng1|s1'|];
      destruct (divergent_draw allow_multapses local2 _ _ _ s2)
        as [rng2|s2'|]; try done.
    + subst rng2. apply IH. destruct Hs as (? & ? & ?). by repeat split.
    + by apply IH.
Qed.

Lemma divergent_connection_local (is_local_gid : Z → bool) (id : Z) :
  divergent_connection is_local_gid get_thread source_id c id
  = match divergent_connection (λ _, true) get_thread source_id c id with
    | Some x => if is_local_gid (conn_target x) then Some x else None
    | None => None
    end.
Proof.
  unfold divergent_connection.
  destruct (vec_at (cand_weight_delay_pairs c) id); [|done].
  destruct (vec_at (cand_targets c) id) as [target_id|]; done.
Qed.

Lemma omap_divergent_connection_local (is_local_gid : Z → bool)
    (ids : list Z) :
  filter (λ x, is_local_gid (conn_target x) = true)
    (omap (divergent_connection (λ _, true) get_thread source_id c) ids)
  = omap (divergent_connection is_local_gid get_thread source_id c) ids.
Proof.
  induction ids as [|id ids IH]; [done|]. cbn [omap list_omap].
  rewrite (divergent_connection_local is_local_gid id).
  destruct (divergent_connection (λ _, true) get_thread source_id c id)
    as [x|]; [|exact IH].
  rewrite filter_cons.
  destruct (is_local_gid (conn_target x)) eqn:Hloc.
  - destruct (decide _); [|done]. f_equal. exact IH.
  - destruct (decide _); [congruence|exact IH].
Qed.

End divergent_loop_facts.

Section divergent_source_facts.
Context {Pos Rng Val : Type} `{Draws Pos Rng Val}.

Lemma divergent_inv_start (allow_multapses : bool) (is_local_gid : Z → bool)
    (get_thread : Z → Z) (source_id : Z) (c : candidates Val)
    (rng : Rng) (log : list (connection Val)) :
  divergent_inv allow_multapses is_local_gid get_thread source_id c log 0
    (mkDraw (replicate (length (cand_targets c)) false) rng log []).
Proof.
  unfold divergent_inv. simpl. rewrite app_nil_r, length_replicate.
  repeat split; try done; constructor.
Qed.

Lemma divergent_draws_log (allow_multapses : bool) (is_local_gid : Z → bool)
    (get_thread : Z → Z) (source_id : Z) (c : candidates Val)
    (fuel : nat) (n : Z) (rng : Rng) (log : list (connection Val)) :
  match divergent_draws fuel allow_multapses is_local_gid get_thread
          source_id c n 0
          (mkDraw (replicate (length (cand_targets c)) false) rng log []) with
  | Done s | Starved s =>
      d_log s
      = log ++ omap (divergent_connection is_local_gid get_thread source_id c)
                 (d_ids s)
  | Thrown _ _ => False
  | OutOfBounds => True
  end.
Proof.
  destruct (decide (0 ≤ n)) as [Hn|Hn].
  - pose proof (divergent_draws_inv allow_multapses get_thread source_id c
                  is_local_gid log fuel n 0 _
                  (divergent_inv_start allow_multapses is_local_gid
                     get_thread source_id c rng log) Hn) as Hinv.
    destruct (divergent_draws fuel _ _ _ _ _ _ _ _); try done.
    + by destruct Hinv as (? & _).
    + by destruct Hinv as (? & _ & ? & _).
  - destruct fuel; simpl; rewrite bool_decide_eq_false_2 by lia; simpl;
      by rewrite app_nil_r.
Qed.

Lemma divergent_source_local (fuel : nat)
    (with_kernel allow_autapses allow_multapses : bool)
    (number_of_connections_ : Z) (masked_target : Pos → list (Pos * Z))
    (is_local_gid : Z → bool) (get_thread : Z → Z) (src : Pos * Z)
    (rng : Rng) (log log_all : list (connection Val)) :
  match divergent_source fuel with_kernel allow_autapses allow_multapses
          number_of_connections_ masked_target is_local_gid get_thread src
          rng
          (log ++ filter (λ x, is_local_gid (conn_target x) = true) log_all),
        divergent_source fuel with_kernel allow_autapses allow_multapses
          number_of_connections_ masked_target (λ _, true) get_thread src
          rng log_all with
  | Done s1, Done s2 | Starved s1, Starved s2 =>
      d_rng s1 = d_rng s2
      ∧ d_log s1
        = log ++ filter (λ x, is_local_gid (conn_target x) = true) (d_log s2)
  | Thrown e1 s1, Thrown e2 s2 =>
      e1 = e2 ∧ d_rng s1 = d_rng s2
      ∧ d_log s1
        = log ++ filter (λ x, is_local_gid (conn_target x) = true) (d_log s2)
  | OutOfBounds, OutOfBounds => True
  | _, _ => False
  end.
Proof.
  unfold divergent_source.
  destruct (find_targets allow_autapses with_kernel (masked_target src.1)
              src.1 src.2 rng) as [c rng'].
  destruct (bool_decide (length (cand_targets c) = 0%nat)
            || negb allow_multapses
               && bool_decide (Z.of_nat (length (cand_targets c))
                               < number_of_connections_)); [done|].
  set (L := log ++ filter (λ x, is_local_gid (conn_target x) = true) log_all).
  pose proof (divergent_draws_same allow_multapses get_thread src.2 c
                is_local_gid (λ _, true) fuel
                (to_long number_of_connections_) 0
                (mkDraw (replicate (length (cand_targets c)) false) rng' L [])
                (mkDraw (replicate (length (cand_targets c)) false) rng'
                   log_all [])
                ltac:(by repeat split)) as Hsame.
  pose proof (divergent_draws_log allow_multapses is_local_gid get_thread
                src.2 c fuel (to_long number_of_connections_) rng' L)
    as Hlog1.
  pose proof (divergent_draws_log allow_multapses (λ _, true) get_thread
                src.2 c fuel (to_long number_of_connections_) rng' log_all)
    as Hlog2.
  destruct (divergent_draws fuel allow_multapses is_local_gid _ _ _ _ _ _)
    as [s1|e1 s1|s1|];
    destruct (divergent_draws fuel allow_multapses (λ _, true) _ _ _ _ _ _)
      as [s2|e2 s2|s2|]; try done;
    destruct Hsame as (_ & Hrng & Hids); (split; [done|]);
    rewrite Hlog1, Hlog2, filter_app, Hids;
    rewrite omap_divergent_connection_local; unfold L;
    by rewrite <- app_assoc.
Qed.

Lemma divergent_sources_local (fuel : nat)
    (with_kernel allow_autapses allow_multapses : bool)
    (number_of_connections_ : Z) (masked_target : Pos → list (Pos * Z))
    (is_local_gid : Z → bool) (get_thread : Z → Z)
    (sources : list (Pos * Z)) (rng : Rng)
    (log log_all : list (connection Val)) :
  divergent_sources fuel with_kernel allow_autapses allow_multapses
    number_of_connections_ masked_target is_local_gid get_thread sources rng
    (log ++ filter (λ x, is_local_gid (conn_target x) = true) log_all)
  = local_part is_local_gid log
      (divergent_sources fuel with_kernel allow_autapses allow_multapses
         number_of_connections_ masked_target (λ _, true) get_thread sources
         rng log_all).
Proof.
  revert rng log_all.
  induction sources as [|src rest IH]; intros rng log_all; [done|].
  cbn [divergent_sources].
  pose proof (divergent_source_local fuel with_kernel allow_autapses
                allow_multapses number_of_connections_ masked_target
                is_local_gid get_thread src rng log log_all) as Hsrc.
  destruct (divergent_source fuel with_kernel allow_autapses allow_multapses
              number_of_connections_ masked_target is_local_gid get_thread
              src rng _) as [s1|e1 s1|s1|];
    destruct (divergent_source fuel with_kernel allow_autapses
                allow_multapses number_of_connections_ masked_target
                (λ _, true) get_thread src rng log_all) as [s2|e2 s2|s2|];
    try done.
  - destruct Hsrc as [-> ->]. apply IH.
  - destruct Hsrc as (-> & -> & ->). done.
  - destruct Hsrc as (-> & ->). done.
Qed.

End divergent_source_facts.

(** X17.  [divergent_connect_] draws the same numbers on every process:
    for every choice of the local targets the call ends the same way and
    leaves the global generator in the same state as a call for which all
    targets are local, and the connections it makes are those of that call
    whose target is local, in the same order. *)
Theorem divergent_connect_local_part {Pos Rng Val : Type}
    `{Draws Pos Rng Val} (fuel : nat)
    (with_kernel allow_autapses allow_multapses : bool)
    (number_of_connections_ : Z) (first_has_proxies : bool)
    (masked_target : Pos → list (Pos * Z))
    (is_local_gid : Z → bool) (get_thread : Z → Z)
    (sources : list (Pos * Z)) (rng : Rng) (log : list (connection Val)) :
  divergent_connect_ fuel with_kernel allow_autapses allow_multapses
    number_of_connections_ first_has_proxies masked_target is_local_gid
    get_thread sources rng log
  = local_part is_local_gid log
      (divergent_connect_ fuel with_kernel allow_autapses allow_multapses
         number_of_connections_ first_has_proxies masked_target (λ _, true)
         get_thread sources rng []).
Proof.
  unfold divergent_connect_.
  case_bool_decide; [simpl; by rewrite app_nil_r|].
  destruct first_has_proxies; simpl; [|by rewrite app_nil_r].
  rewrite <- divergent_sources_local. simpl. by rewrite app_nil_r.
Qed.

Section divergent_done_facts.
Context {Pos Rng Val : Type} `{Draws Pos Rng Val}.

Lemma divergent_connection_Some (is_local_gid : Z → bool)
    (get_thread : Z → Z) (source_id : Z) (c : candidates Val) (id : Z)
    (x : connection Val) :
  divergent_connection is_local_gid get_thread source_id c id = Some x →
  conn_source x = source_id
  ∧ is_local_gid (conn_target x) = true
  ∧ conn_thread x = get_thread (conn_target x)
  ∧ vec_at (cand_targets c) id = Some (conn_target x).
Proof.
  unfold divergent_connection.
  destruct (vec_at (cand_weight_delay_pairs c) id); [|done].
  destruct (vec_at (cand_targets c) id) as [target_id|]; [|done].
  destruct (is_local_gid target_id) eqn:Hloc; [|done].
  intros [= <-]. done.
Qed.

Lemma divergent_connection_is_Some (is_local_gid : Z → bool)
    (get_thread : Z → Z) (source_id : Z) (c : candidates Val) (id : Z) :
  (∀ gid, is_local_gid gid = true) →
  length (cand_weight_delay_pairs c) = length (cand_targets c) →
  0 ≤ id < Z.of_nat (length (cand_targets c)) →
  is_Some (divergent_connection is_local_gid get_thread source_id c id).
Proof.
  intros Hlocal Hlen Hid. unfold divergent_connection, vec_at.
  rewrite bool_decide_eq_true_2 by lia.
  destruct (lookup_lt_is_Some_2 (cand_weight_delay_pairs c) (Z.to_nat id))
    as [wd ->]; [lia|].
  destruct (lookup_lt_is_Some_2 (cand_targets c) (Z.to_nat id))
    as [t ->]; [lia|]. by rewrite Hlocal.
Qed.

Lemma length_omap_all {A B : Type} (f : A → option B) (l : list A) :
  Forall (λ a, is_Some (f a)) l → length (omap f l) = length l.
Proof.
  induction 1 as [|a l [b Hb] _ IH]; [done|].
  cbn [omap list_omap]. rewrite Hb. simpl. by rewrite IH.
Qed.

Lemma length_omap_le {A B : Type} (f : A → option B) (l : list A) :
  (length (omap f l) ≤ length l)%nat.
Proof.
  induction l as [|a l IH]; [done|].
  cbn [omap list_omap]. destruct (f a); simpl; lia.
Qed.

Lemma divergent_source_outcome (fuel : nat)
    (with_kernel allow_autapses allow_multapses : bool)
    (number_of_connections_ : Z) (masked_target : Pos → list (Pos * Z))
    (is_local_gid : Z → bool) (get_thread : Z → Z) (src : Pos * Z)
    (rng : Rng) (log : list (connection Val)) :
  1 ≤ number_of_connections_ ≤ LONG_MAX →
  let c := (find_targets allow_autapses with_kernel (masked_target src.1)
              src.1 src.2 rng).1 in
  match divergent_source fuel with_kernel allow_autapses allow_multapses
          number_of_connections_ masked_target is_local_gid get_thread src
          rng log with
  | Done s =>
      divergent_inv allow_multapses is_local_gid get_thread src.2 c log
        number_of_connections_ s
  | Starved s =>
      ∃ i, 0 ≤ i < number_of_connections_
           ∧ divergent_inv allow_multapses is_local_gid get_thread src.2 c
               log i s
  | Thrown e s => e = KernelException src.2 ∧ d_log s = log
  | OutOfBounds => True
  end.
Proof.
  intros HN c. unfold divergent_source. subst c.
  destruct (find_targets allow_autapses with_kernel (masked_target src.1)
              src.1 src.2 rng) as [c rng']. simpl.
  destruct (bool_decide (length (cand_targets c) = 0%nat)
            || negb allow_multapses
               && bool_decide (Z.of_nat (length (cand_targets c))
                               < number_of_connections_)); [done|].
  rewrite to_long_small by (unfold LONG_MAX in *; lia).
  pose proof (divergent_draws_inv allow_multapses get_thread src.2 c
                is_local_gid log fuel number_of_connections_ 0 _
                (divergent_inv_start allow_multapses is_local_gid get_thread
                   src.2 c rng' log) ltac:(lia)) as Hinv.
  destruct (divergent_draws fuel _ _ _ _ _ _ _ _); done.
Qed.

Lemma divergent_source_done (fuel : nat)
    (with_kernel allow_autapses allow_multapses : bool)
    (number_of_connections_ : Z) (masked_target : Pos → list (Pos * Z))
    (is_local_gid : Z → bool) (get_thread : Z → Z) (src : Pos * Z)
    (rng : Rng) (log : list (connection Val)) (s : draw Rng Val) :
  1 ≤ number_of_connections_ ≤ LONG_MAX →
  divergent_source fuel with_kernel allow_autapses allow_multapses
    number_of_connections_ masked_target is_local_gid get_thread src rng log
  = Done s →
  ∃ new,
    d_log s = log ++ new
    ∧ Z.of_nat (length (d_ids s)) = number_of_connections_
    ∧ Z.of_nat (length new) ≤ number_of_connections_
    ∧ ((∀ gid, is_local_gid gid = true) →
       Z.of_nat (length new) = number_of_connections_)
    ∧ (allow_multapses = false → NoDup (d_ids s))
    ∧ Forall (λ x, conn_source x = src.2
                   ∧ is_local_gid (conn_target x) = true
                   ∧ conn_thread x = get_thread (conn_target x)
                   ∧ conn_target x
                     ∈ (admissible allow_autapses src.2
                          (masked_target src.1)).*2) new
    ∧ (allow_autapses = false →
       Forall (λ x, conn_source x ≠ conn_target x) new).
Proof.
  intros HN Hdone.
  pose proof (divergent_source_outcome fuel with_kernel allow_autapses
                allow_multapses number_of_connections_ masked_target
                is_local_gid get_thread src rng log HN) as Hout.
  simpl in Hout. rewrite Hdone in Hout.
  destruct (find_targets_spec allow_autapses with_kernel
              (masked_target src.1) src.1 src.2 rng) as (Ht & Hw & _).
  set (c := (find_targets allow_autapses with_kernel (masked_target src.1)
               src.1 src.2 rng).1) in *.
  destruct Hout as (Hlog & Hlen & Hsel & Hids & Hnd).
  assert (Forall (λ x, conn_source x = src.2
                       ∧ is_local_gid (conn_target x) = true
                       ∧ conn_thread x = get_thread (conn_target x)
                       ∧ conn_target x
                         ∈ (admissible allow_autapses src.2
                              (masked_target src.1)).*2)
            (omap (divergent_connection is_local_gid get_thread src.2 c)
               (d_ids s))) as Hall.
  { apply Forall_forall. intros x Hx.
    apply list_elem_of_omap in Hx as (id & _ & Hx).
    apply divergent_connection_Some in Hx as (Hs & Hl & Hth & Hat).
    repeat split; try done. rewrite <- Ht.
    unfold vec_at in Hat. case_bool_decide; [|done].
    by eapply list_elem_of_lookup_2. }
  exists (omap (divergent_connection is_local_gid get_thread src.2 c)
            (d_ids s)).
  split; [done|]. split; [done|].
  split; [pose proof (length_omap_le
            (divergent_connection is_local_gid get_thread src.2 c)
            (d_ids s)); lia|].
  split.
  { intros Hlocal. rewrite length_omap_all; [done|].
    eapply Forall_impl; [exact Hids|]. intros id Hid. simpl in Hid.
    apply divergent_connection_is_Some; [done|done|].
    unfold vec_at in Hid. case_bool_decide; [|done].
    apply lookup_lt_Some in Hid. lia. }
  split; [done|]. split; [done|].
  intros ->. eapply Forall_impl; [exact Hall|].
  intros x (Hs & _ & _ & Hin). simpl in *.
  apply list_elem_of_fmap in Hin as (p & -> & Hp).
  apply admissible_no_autapse in Hp. congruence.
Qed.

End divergent_done_facts.

(** X18.  When the selection of [divergent_connect_] for one source
    returns, it has accepted exactly [number_of_connections_] draws and
    made one connection for each draw whose target is local, so at most
    [number_of_connections_] and exactly that many when all targets are
    local; every connection goes from the source to a local target among
    the admissible elements of the masked target layer, on the target's
    thread; with multapses disallowed no index was accepted twice; with
    autapses disallowed no connection is an autapse. *)
Theorem divergent_source_connects {Pos Rng Val : Type}
    `{Draws Pos Rng Val} (fuel : nat)
    (with_kernel allow_autapses allow_multapses : bool)
    (number_of_connections_ : Z) (masked_target : Pos → list (Pos * Z))
    (is_local_gid : Z → bool) (get_thread : Z → Z) (src : Pos * Z)
    (rng : Rng) (log : list (connection Val)) (s : draw Rng Val) :
  1 ≤ number_of_connections_ ≤ LONG_MAX →
  divergent_source fuel with_kernel allow_autapses allow_multapses
    number_of_connections_ masked_target is_local_gid get_thread src rng log
  = Done s →
  ∃ new,
    d_log s = log ++ new
    ∧ Z.of_nat (length (d_ids s)) = number_of_connections_
    ∧ Z.of_nat (length new) ≤ number_of_connections_
    ∧ ((∀ gid, is_local_gid gid = true) →
       Z.of_nat (length new) = number_of_connections_)
    ∧ (allow_multapses = false → NoDup (d_ids s))
    ∧ Forall (λ x, conn_source x = src.2
                   ∧ is_local_gid (conn_target x) = true
                   ∧ conn_thread x = get_thread (conn_target x)
                   ∧ conn_target x
                     ∈ (admissible allow_autapses src.2
                          (masked_target src.1)).*2) new
    ∧ (allow_autapses = false →
       Forall (λ x, conn_source x ≠ conn_target x) new).
Proof.
  apply divergent_source_done.
Qed.

Lemma divergent_source_connects_witness :
  ∃ s,
    divergent_source 10 false false false 2 (λ _, three_positions)
      (λ gid, bool_decide (gid = 7)) (λ _, 0) (0, 5) [0; 1] [] = Done s
    ∧ ∃ new,
        d_log s = [] ++ new
        ∧ Z.of_nat (length (d_ids s)) = 2
        ∧ Z.of_nat (length new) ≤ 2
        ∧ ((∀ gid, bool_decide (gid = 7) = true) → Z.of_nat (length new) = 2)
        ∧ (false = false → NoDup (d_ids s))
        ∧ Forall (λ x, conn_source x = (0, 5).2
                       ∧ bool_decide (conn_target x = 7) = true
                       ∧ conn_thread x = 0
                       ∧ conn_target x
                         ∈ (admissible false (0, 5).2 three_positions).*2)
            new
        ∧ (false = false →
           Forall (λ x, conn_source x ≠ conn_target x) new).
Proof.
  eexists. split; [reflexivity|].
  apply (divergent_source_connects 10 false false false 2
           (λ _, three_positions) (λ gid, bool_decide (gid = 7)) (λ _, 0)
           (0, 5) [0; 1] []).
  - unfold LONG_MAX. lia.
  - reflexivity.
Defined.

Section divergent_outer_facts.
Context {Pos Rng Val : Type} `{Draws Pos Rng Val}.

Lemma divergent_draws_cast (allow_multapses : bool)
    (is_local_gid : Z → bool) (get_thread : Z → Z) (source_id : Z)
    (c : candidates Val) (log : list (connection Val)) (fuel : nat) (n : Z)
    (s : draw Rng Val) :
  divergent_inv allow_multapses is_local_gid get_thread source_id c log 0 s →
  match divergent_draws fuel allow_multapses is_local_gid get_thread
          source_id c n 0 s with
  | Done s' =>
      divergent_inv allow_multapses is_local_gid get_thread source_id c log
        (Z.max 0 n) s'
  | Starved s' =>
      ∃ i, divergent_inv allow_multapses is_local_gid get_thread source_id c
             log i s'
  | Thrown _ _ => False
  | OutOfBounds => True
  end.
Proof.
  intros Hinv. destruct (decide (0 ≤ n)) as [Hn|Hn].
  - pose proof (divergent_draws_inv allow_multapses get_thread source_id c
                  is_local_gid log fuel n 0 s Hinv Hn) as Hl.
    rewrite Z.max_r by done.
    destruct (divergent_draws _ _ _ _ _ _ _ _ _); try done.
    destruct Hl as (i & _ & Hi). by exists i.
  - rewrite Z.max_l by lia.
    destruct fuel; simpl; rewrite bool_decide_eq_false_2 by lia; done.
Qed.

Lemma divergent_source_outcome_cast (fuel : nat)
    (with_kernel allow_autapses allow_multapses : bool)
    (number_of_connections_ : Z) (masked_target : Pos → list (Pos * Z))
    (is_local_gid : Z → bool) (get_thread : Z → Z) (src : Pos * Z)
    (rng : Rng) (log : list (connection Val)) :
  (∀ gid, is_local_gid gid = true) →
  match divergent_source fuel with_kernel allow_autapses allow_multapses
          number_of_connections_ masked_target is_local_gid get_thread src
          rng log with
  | Done s =>
      ∃ new, d_log s = log ++ new
             ∧ length new = Z.to_nat (to_long number_of_connections_)
             ∧ Forall (λ x, conn_source x = src.2) new
  | Starved s => ∃ new, d_log s = log ++ new
  | Thrown e s => e = KernelException src.2 ∧ d_log s = log
  | OutOfBounds => True
  end.
Proof.
  intros Hlocal. unfold divergent_source.
  destruct (find_targets_spec allow_autapses with_kernel
              (masked_target src.1) src.1 src.2 rng) as (_ & Hw & _).
  destruct (find_targets allow_autapses with_kernel (masked_target src.1)
              src.1 src.2 rng) as [c rng']. simpl in Hw.
  destruct (bool_decide (length (cand_targets c) = 0%nat)
            || negb allow_multapses
               && bool_decide (Z.of_nat (length (cand_targets c))
                               < number_of_connections_)); [done|].
  pose proof (divergent_draws_cast allow_multapses is_local_gid get_thread
                src.2 c log fuel (to_long number_of_connections_) _
                (divergent_inv_start allow_multapses is_local_gid get_thread
                   src.2 c rng' log)) as Hinv.
  destruct (divergent_draws fuel _ _ _ _ _ _ _ _) as [s|e s|s|]; try done.
  - destruct Hinv as (Hlog & Hlen & Hsel & Hids & _).
    exists (omap (divergent_connection is_local_gid get_thread src.2 c)
              (d_ids s)).
    split; [done|]. split.
    + rewrite length_omap_all; [lia|].
      eapply Forall_impl; [exact Hids|]. intros id Hid. simpl in Hid.
      apply divergent_connection_is_Some; [done|done|].
      unfold vec_at in Hid. case_bool_decide; [|done].
      apply lookup_lt_Some in Hid. lia.
    + apply Forall_forall. intros x Hx.
      apply list_elem_of_omap in Hx as (id & _ & Hx).
      by apply divergent_connection_Some in Hx as (? & _).
  - destruct Hinv as (i & Hlog & _). eauto.
Qed.

Lemma divergent_sources_outcome (fuel : nat)
    (with_kernel allow_autapses allow_multapses : bool)
    (number_of_connections_ : Z) (masked_target : Pos → list (Pos * Z))
    (is_local_gid : Z → bool) (get_thread : Z → Z)
    (sources : list (Pos * Z)) (rng : Rng) (log : list (connection Val)) :
  (∀ gid, is_local_gid gid = true) →
  match divergent_sources fuel with_kernel allow_autapses allow_multapses
          number_of_connections_ masked_target is_local_gid get_thread
          sources rng log with
  | Done (_, log') =>
      ∃ new, log' = log ++ new
             ∧ conn_source <$> new
               = fan_out (to_long number_of_connections_) sources
  | Thrown e (_, log') =>
      ∃ k src new,
        sources !! k = Some src ∧ e = KernelException src.2
        ∧ log' = log ++ new
        ∧ conn_source <$> new
          = fan_out (to_long number_of_connections_) (take k sources)
  | Starved (_, log') => ∃ new, log' = log ++ new
  | OutOfBounds => True
  end.
Proof.
  intros Hlocal. revert rng log.
  induction sources as [|src rest IH]; intros rng log; simpl.
  - exists []. by rewrite app_nil_r.
  - pose proof (divergent_source_outcome_cast fuel with_kernel
                  allow_autapses allow_multapses number_of_connections_
                  masked_target is_local_gid get_thread src rng log Hlocal)
      as Hout.
    destruct (divergent_source fuel with_kernel allow_autapses
                allow_multapses number_of_connections_ masked_target
                is_local_gid get_thread src rng log) as [s|e s|s|];
      [| | |done].
    + destruct Hout as (new1 & Hlog1 & Hlen1 & Hall).
      assert (conn_source <$> new1
              = replicate (Z.to_nat (to_long number_of_connections_)) src.2)
        as Hsources.
      { rewrite <- Hlen1. by apply fmap_constant_replicate. }
      specialize (IH (d_rng s) (d_log s)).
      destruct (divergent_sources fuel with_kernel allow_autapses
                  allow_multapses number_of_connections_ masked_target
                  is_local_gid get_thread rest (d_rng s) (d_log s))
        as [[rng' log']|e [rng' log']|[rng' log']|]; [| | |done].
      * destruct IH as (new2 & -> & Hnew2). exists (new1 ++ new2).
        rewrite Hlog1, <- app_assoc. split; [done|].
        rewrite fmap_app, Hsources, Hnew2. done.
      * destruct IH as (k & src' & new2 & Hk & -> & -> & Hnew2).
        exists (S k), src', (new1 ++ new2). split; [done|]. split; [done|].
        rewrite Hlog1, <- app_assoc. split; [done|].
        rewrite fmap_app, Hsources, Hnew2. done.
      * destruct IH as (new2 & ->). exists (new1 ++ new2).
        by rewrite Hlog1, <- app_assoc.
    + destruct Hout as (-> & ->). exists 0%nat, src, [].
      simpl. by rewrite app_nil_r.
    + destruct Hout as (new & ->). eauto.
Qed.

Lemma divergent_draws_without_rejection (fuel : nat)
    (is_local_gid : Z → bool) (get_thread : Z → Z) (source_id : Z)
    (c : candidates Val) (n i : Z) (s : draw Rng Val) :
  draws_in_range Pos Rng Val →
  cand_targets c ≠ [] →
  length (cand_weight_delay_pairs c) = length (cand_targets c) →
  length (cand_probabilities c) = length (cand_targets c) →
  length (d_selected s) = length (cand_targets c) →
  (Z.to_nat (n - i) ≤ fuel)%nat →
  ∃ s', divergent_draws fuel true is_local_gid get_thread source_id c n i s
        = Done s'.
Proof.
  intros [_ Hlot] Hne Hw Hp. revert i s.
  induction fuel as [|fuel IH]; intros i s Hsel Hfuel; simpl.
  - rewrite bool_decide_eq_false_2 by lia. by exists s.
  - case_bool_decide as Hlt; [|by exists s].
    unfold divergent_draw.
    assert (0 ≤ (get_random_id (cand_probabilities c) (d_rng s)).1
              < Z.of_nat (length (cand_targets c))) as Hid.
    { rewrite <- Hp. apply Hlot. intros Hnil. rewrite Hnil in Hp.
      destruct (cand_targets c); done. }
    destruct (get_random_id (cand_probabilities c) (d_rng s))
      as [random_id rng]. simpl in Hid.
    unfold vec_set. rewrite bool_decide_eq_true_2 by lia.
    unfold vec_at. rewrite bool_decide_eq_true_2 by lia.
    destruct (lookup_lt_is_Some_2 (cand_weight_delay_pairs c)
                (Z.to_nat random_id)) as [wd ->]; [lia|].
    destruct (lookup_lt_is_Some_2 (cand_targets c) (Z.to_nat random_id))
      as [t ->]; [lia|].
    destruct (is_local_gid t); simpl;
      apply IH; simpl; try (by rewrite length_insert); lia.
Qed.

End divergent_outer_facts.

(** X19.  [divergent_connect_] with all targets local: with
    [number_of_connections_ < 1] it returns at once and changes nothing;
    otherwise it throws [IllegalConnection] before any connection or draw
    if the first target has no proxies; when it returns, every source got
    exactly [( long ) number_of_connections_] connections, in the order of
    the sources: that is [number_of_connections_] itself up to [LONG_MAX],
    and none when the cast is not positive; when a later source has not
    enough targets it throws [KernelException] for that source and the
    connections of all sources before it stay made. *)
Theorem divergent_connect_outcome {Pos Rng Val : Type}
    `{Draws Pos Rng Val} (fuel : nat)
    (with_kernel allow_autapses allow_multapses : bool)
    (number_of_connections_ : Z) (first_has_proxies : bool)
    (masked_target : Pos → list (Pos * Z))
    (is_local_gid : Z → bool) (get_thread : Z → Z)
    (sources : list (Pos * Z)) (rng : Rng) (log : list (connection Val)) :
  (number_of_connections_ < 1 →
   divergent_connect_ fuel with_kernel allow_autapses allow_multapses
     number_of_connections_ first_has_proxies masked_target is_local_gid
     get_thread sources rng log = Done (rng, log))
  ∧ (1 ≤ number_of_connections_ →
     (∀ gid, is_local_gid gid = true) →
     match divergent_connect_ fuel with_kernel allow_autapses
             allow_multapses number_of_connections_ first_has_proxies
             masked_target is_local_gid get_thread sources rng log with
     | Done (_, log') =>
         first_has_proxies = true
         ∧ ∃ new, log' = log ++ new
                  ∧ conn_source <$> new
                    = fan_out (to_long number_of_connections_) sources
     | Thrown e (rng', log') =>
         (first_has_proxies = false ∧ e = IllegalConnection
          ∧ rng' = rng ∧ log' = log)
         ∨ (first_has_proxies = true
            ∧ ∃ k src new,
                sources !! k = Some src ∧ e = KernelException src.2
                ∧ log' = log ++ new
                ∧ conn_source <$> new
                  = fan_out (to_long number_of_connections_)
                      (take k sources))
     | Starved (_, log') =>
         first_has_proxies = true ∧ ∃ new, log' = log ++ new
     | OutOfBounds => first_has_proxies = true
     end)
  ∧ (1 ≤ number_of_connections_ ≤ LONG_MAX →
     to_long number_of_connections_ = number_of_connections_)
  ∧ (to_long number_of_connections_ ≤ 0 →
     fan_out (to_long number_of_connections_) sources = []).
Proof.
  unfold divergent_connect_. split; [|split; [|split]].
  - intros HN. by rewrite bool_decide_eq_true_2.
  - intros HN Hlocal. rewrite bool_decide_eq_false_2 by lia.
    destruct first_has_proxies; simpl; [|by left].
    pose proof (divergent_sources_outcome fuel with_kernel allow_autapses
                  allow_multapses number_of_connections_ masked_target
                  is_local_gid get_thread sources rng log Hlocal) as Hout.
    destruct (divergent_sources fuel with_kernel allow_autapses
                allow_multapses number_of_connections_ masked_target
                is_local_gid get_thread sources rng log)
      as [[rng' log']|e [rng' log']|[rng' log']|]; try done.
    by right.
  - intros HN. apply to_long_small. unfold LONG_MAX in *. lia.
  - intros Hn. unfold fan_out. rewrite Z2Nat.nonpos by done.
    induction sources as [|src rest IH]; [done|]. done.
Qed.

Lemma divergent_connect_outcome_witness :
  match divergent_connect_ 10 false false false 1 true
          (λ _, three_positions) (λ _, true) (λ _, 0) two_positions
          [1; 2] ([] : list (connection Z)) with
  | Done (_, log') =>
      true = true
      ∧ ∃ new, log' = [] ++ new
               ∧ conn_source <$> new = fan_out (to_long 1) two_positions
  | Thrown e (rng', log') =>
      (true = false ∧ e = IllegalConnection ∧ rng' = [1; 2] ∧ log' = [])
      ∨ (true = true
         ∧ ∃ k src new,
             two_positions !! k = Some src ∧ e = KernelException src.2
             ∧ log' = [] ++ new
             ∧ conn_source <$> new
               = fan_out (to_long 1) (take k two_positions))
  | Starved (_, log') => true = true ∧ ∃ new, log' = [] ++ new
  | OutOfBounds => true = true
  end.
Proof.
  apply (proj1 (proj2 (divergent_connect_outcome 10 false false false 1 true
                         (λ _, three_positions) (λ _, true) (λ _, 0)
                         two_positions [1; 2] []))).
  - lia.
  - reflexivity.
Defined.

(** Beyond [LONG_MAX] the cast wraps: with [number_of_connections_ =
    2 ^ 63] the call returns without a connection. *)
Example divergent_connect_wraps :
  ∃ rng,
    divergent_connect_ 10 false true true (2 ^ 63) true
      (λ _, three_positions) (λ _, true) (λ _, 0) two_positions [1; 2]
      ([] : list (connection Z)) = Done (rng, []).
Proof. eexists. reflexivity. Qed.

(** X20.  With multapses allowed the draw loop of [divergent_connect_]
    rejects no draw: if the lottery keeps its range and the source has an
    admissible target, the selection for the source returns after
    [number_of_connections_] iterations. *)
Theorem divergent_source_returns {Pos Rng Val : Type}
    `{Draws Pos Rng Val} (fuel : nat) (with_kernel allow_autapses : bool)
    (number_of_connections_ : Z) (masked_target : Pos → list (Pos * Z))
    (is_local_gid : Z → bool) (get_thread : Z → Z) (src : Pos * Z)
    (rng : Rng) (log : list (connection Val)) :
  draws_in_range Pos Rng Val →
  1 ≤ number_of_connections_ ≤ LONG_MAX →
  admissible allow_autapses src.2 (masked_target src.1) ≠ [] →
  (Z.to_nat number_of_connections_ ≤ fuel)%nat →
  ∃ s, divergent_source fuel with_kernel allow_autapses true
         number_of_connections_ masked_target is_local_gid get_thread src
         rng log = Done s.
Proof.
  intros Hrange HN Hne Hfuel. unfold divergent_source.
  destruct (find_targets_spec allow_autapses with_kernel
              (masked_target src.1) src.1 src.2 rng) as (Ht & Hw & Hp).
  destruct (find_targets allow_autapses with_kernel (masked_target src.1)
              src.1 src.2 rng) as [c rng']. simpl in Ht, Hw, Hp.
  assert (cand_targets c ≠ []) as Hc.
  { rewrite Ht. intros Hnil. apply fmap_nil_inv in Hnil. done. }
  rewrite bool_decide_eq_false_2.
  2:{ intros Hz. destruct (cand_targets c); done. }
  simpl. rewrite to_long_small by (unfold LONG_MAX in *; lia).
  apply divergent_draws_without_rejection; simpl; try done.
  - by rewrite length_replicate.
  - lia.
Qed.

Lemma divergent_source_returns_witness :
  ∃ s, divergent_source 2 false false true 2 (λ _, three_positions)
         (λ _, true) (λ _, 0) (0, 5) [0; 1] [] = Done s.
Proof.
  apply (divergent_source_returns 2 false false 2 (λ _, three_positions)
           (λ _, true) (λ _, 0) (0, 5) [0; 1] []).
  - apply example_draws_in_range.
  - unfold LONG_MAX. lia.
  - done.
  - simpl. lia.
Defined.

